(** * Voice feature extraction ([src/lib/dsp.ts]): a shallow embedding

    The class [DSPProcessor] turns a decoded recording (the first channel of
    an [AudioBuffer], a [Float32Array]) into a [VoiceFeatures] record.  Every
    JavaScript number is an IEEE-754 binary64 value, so the embedding computes
    with Rocq's primitive floats: [+ - * /], [Math.sqrt], [Math.abs] and the
    comparisons are the very operations the engine performs, NaN and the
    infinities included.  Array positions, lengths and loop counters are
    integers ([nat], [Z]) and are converted where the source uses them in
    arithmetic.

    Two users of the record are embedded with it: [stopRecording] of the
    recorder hook ([src/hooks/useVoiceRecorder.ts]), which calls the
    extractor, and the mock predictor ([src/lib/mlService.ts]), which rates
    the features.  What the asynchronous entry point asks of its
    environment -- the content of the blob, the decoder, the audio context
    -- is made explicit in a second reading of it, a computation run in a
    world that answers its requests ([extractFeatures_call]). *)

From Stdlib Require Import String.
From Stdlib Require Import ZArith List Bool Lia Permutation Sorted.
From Stdlib Require Import Floats.
From Stdlib Require Uint63.
Import ListNotations.

Open Scope float_scope.

(** ** Numbers *)

(** A length or an index read as a number (exact below 2^53). *)
Definition of_Z (z : Z) : float :=
  if (z <? 0)%Z then - of_uint63 (Uint63.of_Z (- z))
  else of_uint63 (Uint63.of_Z z).

Definition of_nat (n : nat) : float := of_Z (Z.of_nat n).

(** The integer part [floor (m * 2^e)] of a finite number given by its signed
    mantissa and exponent ([Z.shiftl] by a negative amount shifts right, which
    rounds towards minus infinity). *)
Definition floor_of (s : bool) (m : positive) (e : Z) : Z :=
  Z.shiftl (cond_Zopp s (Zpos m)) e.

(** The integer a number denotes, when it is finite (its floor otherwise
    fractional); [None] for NaN and the infinities. *)
Definition to_Z (x : float) : option Z :=
  match Prim2SF x with
  | S754_zero _ => Some 0%Z
  | S754_finite s m e => Some (floor_of s m e)
  | _ => None
  end.

(** [Math.floor]: NaN, the infinities and the zeros are returned as they
    are, and so is a number whose exponent is not negative (an integer). *)
Definition Math_floor (x : float) : float :=
  match Prim2SF x with
  | S754_finite s m e => if (0 <=? e)%Z then x else of_Z (floor_of s m e)
  | _ => x
  end.

(** [Math.round]: the nearest integer, ties towards plus infinity, that is
    [floor (x + 1/2)] computed exactly; a result of zero keeps the sign of
    the argument. *)
Definition Math_round (x : float) : float :=
  match Prim2SF x with
  | S754_finite s m e =>
      if (0 <=? e)%Z then x
      else
        let z := Z.shiftr (cond_Zopp s (Zpos m) + 2 ^ (- e - 1)) (- e) in
        if (z =? 0)%Z then (if s then (-0) else 0) else of_Z z
  | _ => x
  end.

Definition is_neg_zero (x : float) : bool := PrimFloat.is_zero x && get_sign x.
Definition is_pos_zero (x : float) : bool := PrimFloat.is_zero x && negb (get_sign x).

(** [Math.min] and [Math.max] of two arguments: NaN if either is NaN, and
    [-0] counts as smaller than [+0]. *)
Definition Math_min (a b : float) : float :=
  if is_nan a || is_nan b then nan
  else if (is_neg_zero b && is_pos_zero a) || (b <? a) then b
  else a.

Definition Math_max (a b : float) : float :=
  if is_nan a || is_nan b then nan
  else if (is_pos_zero b && is_neg_zero a) || (a <? b) then b
  else a.

Definition Math_PI : float := 0x1.921fb54442d18p+1.

(** The functions of [Math] that the language leaves to the implementation's
    approximation.  The extractor is parametric in them. *)
Record MathObject : Type := {
  Math_cos : float -> float;
  Math_sin : float -> float;
  Math_log10 : float -> float;
  Math_pow : float -> float -> float
}.

(** ** Arrays *)

(** [a[i]] in arithmetic: a position outside the array reads [undefined],
    which every arithmetic operator turns into NaN. *)
Definition get (a : list float) (i : Z) : float :=
  if (i <? 0)%Z then nan else nth (Z.to_nat i) a nan.

(** [a.slice(i, j)] for [i <= j]. *)
Definition slice (a : list float) (i j : nat) : list float :=
  firstn (j - i) (skipn i a).

Fixpoint takeWhile {A : Type} (p : A -> bool) (l : list A) : list A :=
  match l with
  | [] => []
  | x :: l' => if p x then x :: takeWhile p l' else []
  end.

(** The counters [a, a+1, ..., n-1]. *)
Definition upto (a : Z) (n : nat) : list Z :=
  map (fun k => (a + Z.of_nat k)%Z) (seq 0 (Z.to_nat (Z.of_nat n - a))).

(** The counter values visited by
    [for (let i = a; i < b && i < n; i++)], where [a] is an integer-valued
    number: [i < n] is decided on the integers and [i < b] by the floating
    comparison of the source.  A start that is NaN or infinite fails the
    guard at once.  The loop of [calculateFormants] tests [i < b] alone, with
    a bound [b] that is at most half of [n]. *)
Definition counters (a b : float) (n : nat) : list Z :=
  match to_Z a with
  | Some a' => takeWhile (fun i => of_Z i <? b) (upto a' n)
  | None => []
  end.

(** [a.sort((x, y) => x - y)]: insertion of each element after the elements
    it compares greater than ([x - y > 0]). *)
Fixpoint sort_insert (x : float) (l : list float) : list float :=
  match l with
  | [] => [x]
  | y :: l' => if 0 <? x - y then y :: sort_insert x l' else x :: l
  end.

Definition sort (l : list float) : list float :=
  fold_right sort_insert [] l.

(** The offsets [i] of [for (let i = 0; i + frameSize < len; i += hopSize)].
    The loop leaves after at most [len] rounds, which is the fuel given in
    [frames]. *)
Fixpoint frame_starts (fuel i frameSize hopSize len : nat) : list nat :=
  match fuel with
  | O => []
  | S fuel' =>
      if (i + frameSize <? len)%nat
      then i :: frame_starts fuel' (i + hopSize) frameSize hopSize len
      else []
  end.

(** The frames [samples.slice(i, i + frameSize)] of that loop. *)
Definition frames (frameSize hopSize : nat) (samples : list float)
  : list (list float) :=
  map (fun i => slice samples i (i + frameSize))
      (frame_starts (length samples) 0 frameSize hopSize (length samples)).

(** [a.reduce((x, y) => x + y, 0)]. *)
Definition sum (a : list float) : float := fold_left add a 0.

(** [total += Math.abs(a[i] - a[i - 1])] for [i = 1 .. a.length - 1]. *)
Fixpoint abs_diff_loop (prev : float) (rest : list float) (total : float)
  : float :=
  match rest with
  | [] => total
  | x :: rest' => abs_diff_loop x rest' (total + abs (x - prev))
  end.

Definition total_abs_diff (a : list float) : float :=
  match a with
  | [] => 0
  | x :: rest => abs_diff_loop x rest 0
  end.

(** ** The processor and its output *)

(** [this.sampleRate], read once from the audio context by the constructor. *)
Record DSPProcessor : Type := { sampleRate : float }.

(** What [decodeAudioData] hands over: channel 0 and the duration. *)
Record AudioBuffer : Type := {
  channelData : list float;
  buffer_duration : float
}.

Record VoiceFeatures : Type := {
  pitch : float;
  pitchVariation : float;
  jitter : float;
  shimmer : float;
  hnr : float;
  duration : float;
  amplitude : float;
  formants : list float
}.

(** ** The methods of [DSPProcessor] *)

(** The test of the pitch loops, [pitch > 50 && pitch < 500]. *)
Definition plausible (pitch : float) : bool := (50 <? pitch) && (pitch <? 500).

(** The test of the jitter loop,
    [period > periodSamples * 0.5 && period < periodSamples * 2]. *)
Definition in_window (periodSamples period : float) : bool :=
  (periodSamples * 0.5 <? period) && (period <? periodSamples * 2).

Section Methods.

Variable Math : MathObject.
Variable this : DSPProcessor.

(** The inner loop of [autocorrelationPitch]:
    [correlation += frame[i] * frame[i + lag]] for [i < frame.length - lag].
    For [lag >= 0] the pairs [(frame[i], frame[i + lag])] are the frame zipped
    with its own suffix; a negative lag reads outside the array. *)
Definition correlation (frame : list float) (lag : Z) : float :=
  if (lag <? 0)%Z then nan
  else
    fold_left (fun correlation p => correlation + fst p * snd p)
              (combine frame (skipn (Z.to_nat lag) frame)) 0.

(** The search for the peak: the first index holding the largest value. *)
Fixpoint find_peak (correlations : list float) (i : nat)
         (maxCorr : float) (maxLagIndex : nat) : nat :=
  match correlations with
  | [] => maxLagIndex
  | c :: rest =>
      if maxCorr <? c then find_peak rest (S i) c i
      else find_peak rest (S i) maxCorr maxLagIndex
  end.

Definition autocorrelationPitch (frame : list float) : float :=
  let minLag := Math_floor (sampleRate this / 500) in
  let maxLag := Math_floor (sampleRate this / 50) in
  let correlations :=
    map (correlation frame) (counters minLag maxLag (length frame)) in
  let maxLagIndex := find_peak correlations 0 neg_infinity 0 in
  let bestLag := minLag + of_nat maxLagIndex in
  sampleRate this / bestLag.

(** The loop shared by [calculatePitch] and [calculatePitchVariation]:
    [if (pitch > 50 && pitch < 500) pitches.push(pitch)] for every frame. *)
Definition push_pitch (pitches : list float) (frame : list float)
  : list float :=
  let pitch := autocorrelationPitch frame in
  if plausible pitch then pitches ++ [pitch] else pitches.

Definition frame_pitches (samples : list float) : list float :=
  fold_left push_pitch (frames 2048 512 samples) [].

Definition calculatePitch (samples : list float) : float :=
  let pitches := frame_pitches samples in
  if (length pitches =? 0)%nat then 150
  else nth (length pitches / 2) (sort pitches) nan.

Definition calculatePitchVariation (samples : list float) : float :=
  let pitches := frame_pitches samples in
  if (length pitches <? 2)%nat then 10
  else
    let mean := sum pitches / of_nat (length pitches) in
    let variance :=
      fold_left (fun sum p => sum + Math_pow Math (p - mean) 2) pitches 0
      / of_nat (length pitches) in
    PrimFloat.sqrt variance.

(** The zero-crossing loop of [calculateJitter], at counter [i] with
    [prev = samples[i - 1]] and [rest] the samples from position [i] on. *)
Fixpoint crossing_loop (periodSamples : float) (prev : float)
         (rest : list float) (i lastCrossing : nat) (periods : list float)
  : list float :=
  match rest with
  | [] => periods
  | cur :: rest' =>
      if (prev <=? 0) && (0 <? cur) then
        let periods' :=
          if (0 <? lastCrossing)%nat then
            let period := of_nat (i - lastCrossing) in
            if in_window periodSamples period
            then periods ++ [period]
            else periods
          else periods in
        crossing_loop periodSamples cur rest' (S i) i periods'
      else crossing_loop periodSamples cur rest' (S i) lastCrossing periods
  end.

Definition jitter_periods (samples : list float) (fundamentalFreq : float)
  : list float :=
  let periodSamples := Math_round (sampleRate this / fundamentalFreq) in
  match samples with
  | [] => []
  | s0 :: rest => crossing_loop periodSamples s0 rest 1 0 []
  end.

Definition calculateJitter (samples : list float) (fundamentalFreq : float)
  : float :=
  let periods := jitter_periods samples fundamentalFreq in
  if (length periods <? 2)%nat then 0.5
  else
    let totalDiff := total_abs_diff periods in
    let avgDiff := totalDiff / of_nat (length periods - 1) in
    let avgPeriod := sum periods / of_nat (length periods) in
    (avgDiff / avgPeriod) * 100.

(** [max] over a frame of [calculateShimmer]. *)
Definition frame_peak (frame : list float) : float :=
  fold_left (fun max x => let abs := abs x in if max <? abs then abs else max)
            frame 0.

Definition calculateShimmer (samples : list float) : float :=
  let amplitudes := map frame_peak (frames 512 512 samples) in
  if (length amplitudes <? 2)%nat then 3
  else
    let totalDiff := total_abs_diff amplitudes in
    let avgDiff := totalDiff / of_nat (length amplitudes - 1) in
    let avgAmp := sum amplitudes / of_nat (length amplitudes) in
    (avgDiff / avgAmp) * 100.

(** The two powers of one frame of [calculateHNR]. *)
Definition signalPower (frame : list float) : float :=
  fold_left (fun signalPower x => signalPower + x * x) frame 0
  / of_nat (length frame).

Fixpoint diff_power_loop (prev : float) (rest : list float)
         (noisePower : float) : float :=
  match rest with
  | [] => noisePower
  | x :: rest' =>
      let diff := x - prev in
      diff_power_loop x rest' (noisePower + diff * diff)
  end.

Definition noisePower (frame : list float) : float :=
  match frame with
  | [] => 0
  | x :: rest => diff_power_loop x rest 0
  end / of_nat (length frame).

Definition totalSignalPower (samples : list float) : float :=
  fold_left (fun total frame => total + signalPower frame)
            (frames 2048 2048 samples) 0.

Definition totalNoisePower (samples : list float) : float :=
  fold_left (fun total frame => total + noisePower frame * 0x1.999999999999ap-4)
            (frames 2048 2048 samples) 0.

Definition calculateHNR (samples : list float) : float :=
  if totalNoisePower samples =? 0 then 25
  else
    let hnr :=
      10 * Math_log10 Math (totalSignalPower samples / totalNoisePower samples) in
    Math_max 0 (Math_min 40 hnr).

Definition calculateAmplitude (samples : list float) : float :=
  let sum := fold_left (fun sum x => sum + x * x) samples 0 in
  PrimFloat.sqrt (sum / of_nat (length samples)).

(** The transform [fft]: one pair [(re, im)] per [k < n]. *)
Definition fft_bin (input : list float) (k : nat) : float * float :=
  let n := of_nat (length input) in
  fold_left
    (fun acc tx =>
       let angle := (2 * Math_PI * of_nat (fst tx) * of_nat k) / n in
       (fst acc + snd tx * Math_cos Math angle,
        snd acc - snd tx * Math_sin Math angle))
    (combine (seq 0 (length input)) input) (0, 0).

Definition fft (input : list float) : list (float * float) :=
  map (fft_bin input) (seq 0 (length input)).

(** The peak picking loop of [calculateFormants] over the counters [bins];
    it leaves ([break]) as soon as four peaks are recorded. *)
Fixpoint peak_scan (binWidth : float) (magnitudes : list float)
         (bins : list Z) (prevMag : float) (rising : bool)
         (formants : list float) : list float :=
  match bins with
  | [] => formants
  | i :: rest =>
      let mag := get magnitudes i in
      if prevMag <? mag then peak_scan binWidth magnitudes rest mag true formants
      else if rising && (mag <? prevMag) then
        let formants' := formants ++ [of_Z (i - 1) * binWidth] in
        if (4 <=? length formants')%nat then formants'
        else peak_scan binWidth magnitudes rest mag false formants'
      else peak_scan binWidth magnitudes rest mag rising formants
  end.

(** [while (formants.length < 3) formants.push(500 + formants.length * 1000)]:
    the loop runs [3 - formants.length] times. *)
Fixpoint pad_loop (rounds : nat) (formants : list float) : list float :=
  match rounds with
  | O => formants
  | S rounds' =>
      pad_loop rounds' (formants ++ [500 + of_nat (length formants) * 1000])
  end.

Definition pad_formants (formants : list float) : list float :=
  pad_loop (3 - length formants) formants.

(** The peaks found in the spectrum of the first frame. *)
Definition spectral_peaks (samples : list float) : list float :=
  let frameSize := 2048%nat in
  let frame := slice samples 0 (Nat.min frameSize (length samples)) in
  let magnitudes :=
    map (fun c => PrimFloat.sqrt (fst c * fst c + snd c * snd c)) (fft frame) in
  let minFreq := 200 in
  let maxFreq := 4000 in
  let binWidth := sampleRate this / of_nat frameSize in
  let startBin := Math_floor (minFreq / binWidth) in
  let endBin :=
    Math_min (Math_floor (maxFreq / binWidth))
             (of_nat (length magnitudes) / 2) in
  peak_scan binWidth magnitudes
            (counters startBin endBin (length magnitudes)) 0 false [].

Definition calculateFormants (samples : list float) : list float :=
  slice (pad_formants (spectral_peaks samples)) 0 4.

(** [extractFeatures], from the decoded buffer on. *)
Definition extractFeatures (audioBuffer : AudioBuffer) : VoiceFeatures :=
  let samples := channelData audioBuffer in
  let pitch := calculatePitch samples in
  let pitchVariation := calculatePitchVariation samples in
  let jitter := calculateJitter samples pitch in
  let shimmer := calculateShimmer samples in
  let hnr := calculateHNR samples in
  let amplitude := calculateAmplitude samples in
  let formants := calculateFormants samples in
  let duration := buffer_duration audioBuffer in
  {| pitch := pitch;
     pitchVariation := pitchVariation;
     jitter := jitter;
     shimmer := shimmer;
     hnr := hnr;
     duration := duration;
     amplitude := amplitude;
     formants := formants |}.

End Methods.

(** The module's singleton: [getDSPProcessor] builds the processor on the
    first call and returns the stored one afterwards.  [fresh] is what
    [new DSPProcessor()] would build at the moment of the call. *)
Definition getDSPProcessor (fresh : DSPProcessor) (dspProcessor : option DSPProcessor)
  : DSPProcessor * option DSPProcessor :=
  match dspProcessor with
  | Some p => (p, dspProcessor)
  | None => (fresh, Some fresh)
  end.

(** ** The recorder hook ([src/hooks/useVoiceRecorder.ts]) *)

(** The features [stopRecording] resolves with when the extraction
    throws. *)
Definition fallback_features (duration : float) : VoiceFeatures :=
  {| pitch := 150;
     pitchVariation := 15;
     jitter := 1;
     shimmer := 3;
     hnr := 20;
     duration := duration;
     amplitude := 0.5;
     formants := [500; 1500; 2500] |}.

(** What [stopRecording] resolves with, and the singleton it leaves.
    [active] says that a recorder is there and not inactive ([null] is the
    answer otherwise); [decoded] is the buffer [decodeAudioData] gives for
    the recorded blob, [None] when the promise is rejected and the [catch]
    branch runs; [duration] is the state of the hook. *)
Definition stopRecording (Math : MathObject) (fresh : DSPProcessor)
           (dspProcessor : option DSPProcessor) (active : bool)
           (decoded : option AudioBuffer) (duration : float)
  : option VoiceFeatures * option DSPProcessor :=
  if active then
    let (dsp, dspProcessor') := getDSPProcessor fresh dspProcessor in
    match decoded with
    | Some audioBuffer =>
        (Some (extractFeatures Math dsp audioBuffer), dspProcessor')
    | None => (Some (fallback_features duration), dspProcessor')
    end
  else (None, dspProcessor).

(** ** The mock predictor ([src/lib/mlService.ts]) *)

Module mlService.

Inductive RiskLevel : Type := low | medium | high.

Record FeatureImportance : Type := {
  feature : string;
  importance : float;
  value : float
}.

(** What [generateMockPrediction] returns: a [PredictionResult] without
    its identifiers and its date. *)
Record MockPrediction : Type := {
  probability : float;
  confidence : float;
  riskLevel : RiskLevel;
  featureImportance : list FeatureImportance;
  recommendation : string
}.

(** [list.sort((a, b) => b.importance - a.importance)], by insertion as
    for [sort]. *)
Fixpoint importance_insert (x : FeatureImportance)
         (l : list FeatureImportance) : list FeatureImportance :=
  match l with
  | [] => [x]
  | y :: l' =>
      if 0 <? importance y - importance x
      then y :: importance_insert x l'
      else x :: l
  end.

Definition importance_sort (l : list FeatureImportance)
  : list FeatureImportance :=
  fold_right importance_insert [] l.

Section Prediction.

(** [Math.exp] is left to the implementation like the other functions of
    [Math]; [random1] and [random2] below are the numbers the two calls of
    [Math.random()] give, in the order of the calls. *)
Variable Math_exp : float -> float.

Definition generateMockPrediction (features : VoiceFeatures)
           (random1 random2 : float) : MockPrediction :=
  let weights_jitter := 0.25 in
  let weights_shimmer := 0x1.c28f5c28f5c29p-3 in
  let weights_hnr := - 0x1.70a3d70a3d70ap-3 in
  let weights_pitchVariation := 0x1.3333333333333p-3 in
  let weights_pitch := 0x1.47ae147ae147bp-4 in
  let weights_amplitude := 0x1.eb851eb851eb8p-4 in
  let normalizedJitter := Math_min (jitter features / 3) 1 in
  let normalizedShimmer := Math_min (shimmer features / 8) 1 in
  let normalizedHNR := 1 - Math_min (hnr features / 30) 1 in
  let normalizedPitchVar := Math_min (pitchVariation features / 30) 1 in
  let normalizedPitch := abs (pitch features - 150) / 100 in
  let normalizedAmplitude := 1 - amplitude features in
  let rawScore :=
    weights_jitter * normalizedJitter
    + weights_shimmer * normalizedShimmer
    + weights_hnr * normalizedHNR
    + weights_pitchVariation * normalizedPitchVar
    + weights_pitch * normalizedPitch
    + weights_amplitude * normalizedAmplitude in
  let rawScore := rawScore + (random1 - 0.5) * 0x1.999999999999ap-4 in
  let probability := 1 / (1 + Math_exp (-5 * (rawScore - 0.5))) in
  let confidence := 0x1.999999999999ap-1 + random2 * 0x1.3333333333333p-3 in
  let riskLevel :=
    if 0x1.3333333333333p-1 <? probability then high
    else if 0x1.6666666666666p-2 <? probability then medium
    else low in
  let featureImportance :=
    importance_sort
      [ {| feature := "Jitter"; importance := weights_jitter;
           value := jitter features |};
        {| feature := "Shimmer"; importance := weights_shimmer;
           value := shimmer features |};
        {| feature := "HNR"; importance := abs weights_hnr;
           value := hnr features |};
        {| feature := "Pitch Variation"; importance := weights_pitchVariation;
           value := pitchVariation features |};
        {| feature := "Pitch"; importance := weights_pitch;
           value := pitch features |};
        {| feature := "Amplitude"; importance := weights_amplitude;
           value := amplitude features |} ] in
  let recommendation :=
    match riskLevel with
    | high => "The voice analysis indicates patterns that may warrant further clinical evaluation. Please schedule an appointment with your neurologist for a comprehensive assessment."
    | medium => "Some voice characteristics show mild variations. Continue regular monitoring and consider discussing these results with your healthcare provider during your next visit."
    | low => "Your voice patterns are within the expected range. Continue with your regular check-up schedule and maintain healthy vocal habits."
    end%string in
  {| probability := probability;
     confidence := confidence;
     riskLevel := riskLevel;
     featureImportance := featureImportance;
     recommendation := recommendation |}.

End Prediction.

End mlService.

(** ** The extractor among its effects *)

(** The bytes of a recording. *)
Definition Blob : Type := list Byte.byte.
Definition ArrayBuffer : Type := list Byte.byte.

(** What the code asks of the world around it: the content of a blob, the
    decoder of the audio context (it answers [None] when it rejects the
    data), the sample rate of a new audio context, and a random number.
    The answers are the world's: they may differ from one call to the
    next. *)
Inductive effect : Type -> Type :=
| Blob_arrayBuffer (audioBlob : Blob) : effect ArrayBuffer
| AudioContext_decodeAudioData (arrayBuffer : ArrayBuffer)
  : effect (option AudioBuffer)
| new_AudioContext : effect float
| Math_random : effect float.

(** A computation that asks the world and goes on with the answer. *)
Inductive program (R : Type) : Type :=
| Return (r : R)
| Perform (X : Type) (e : effect X) (k : X -> program R).

Arguments Return {R} r.
Arguments Perform {R X} e k.

Fixpoint bind {A B : Type} (p : program A) (f : A -> program B) : program B :=
  match p with
  | Return a => f a
  | Perform e k => Perform e (fun x => bind (k x) f)
  end.

Notation "x <- p ;; q" := (bind p (fun x => q))
  (at level 61, p at next level, right associativity).

Definition await {X : Type} (e : effect X) : program X := Perform e Return.

(** A world in state [W] answers every request and moves on. *)
Definition World (W : Type) : Type := forall X : Type, effect X -> W -> X * W.

Fixpoint run {W R : Type} (answer : World W) (p : program R) (w : W) : R * W :=
  match p with
  | Return r => (r, w)
  | Perform e k => let (x, w') := answer _ e w in run answer (k x) w'
  end.

(** The requests a computation makes of a world, in order. *)
Fixpoint requests {W R : Type} (answer : World W) (p : program R) (w : W)
  : list {X : Type & effect X} :=
  match p with
  | Return _ => []
  | Perform e k =>
      existT _ _ e :: (let (x, w') := answer _ e w in requests answer (k x) w')
  end.

(** [new DSPProcessor()]: the constructor reads the sample rate of a new
    audio context. *)
Definition new_DSPProcessor : program DSPProcessor :=
  sampleRate <- await new_AudioContext ;;
  Return {| sampleRate := sampleRate |}.

(** [getDSPProcessor()], the module variable passed in and out. *)
Definition getDSPProcessor_call (dspProcessor : option DSPProcessor)
  : program (DSPProcessor * option DSPProcessor) :=
  match dspProcessor with
  | Some p => Return (p, dspProcessor)
  | None => p <- new_DSPProcessor ;; Return (p, Some p)
  end.




(** [generateMockPrediction(features)] of the mock predictor, with its two
    calls of [Math.random()]. *)
Definition generateMockPrediction_call (Math_exp : float -> float)
           (features : VoiceFeatures) : program mlService.MockPrediction :=
  random1 <- await Math_random ;;
  random2 <- await Math_random ;;
  Return (mlService.generateMockPrediction Math_exp features random1 random2).

(** ** The estimators in the words of the specification *)

(** Rising zero crossings: the positions [i >= 1] where the signal goes from
    [<= 0] to [> 0]; [prev] is the sample before position [i]. *)
Fixpoint rising_crossings (prev : float) (rest : list float) (i : nat)
  : list nat :=
  match rest with
  | [] => []
  | cur :: rest' =>
      if (prev <=? 0) && (0 <? cur)
      then i :: rising_crossings cur rest' (S i)
      else rising_crossings cur rest' (S i)
  end.

Definition zero_crossings (samples : list float) : list nat :=
  match samples with
  | [] => []
  | s0 :: rest => rising_crossings s0 rest 1
  end.

(** Candidate periods: the distances between consecutive crossings. *)
Fixpoint gaps (crossings : list nat) : list nat :=
  match crossings with
  | a :: (b :: _) as rest => (b - a)%nat :: gaps rest
  | _ => []
  end.

(** The accepted periods, around the expected period in whole samples. *)
Definition accepted_periods (this : DSPProcessor) (samples : list float)
           (fundamentalFreq : float) : list float :=
  filter (in_window (Math_round (sampleRate this / fundamentalFreq)))
         (map of_nat (gaps (zero_crossings samples))).

(** Mean absolute difference of consecutive periods over the mean period,
    in percent. *)
Definition relative_perturbation (periods : list float) : float :=
  (total_abs_diff periods / of_nat (length periods - 1))
  / (sum periods / of_nat (length periods)) * 100.

(** The element in the middle of the ascending order. *)
Definition median (l : list float) : float :=
  nth (length l / 2) (sort l) nan.

(** The per-frame estimates of the pitch tracker. *)
Definition frame_estimates (this : DSPProcessor) (samples : list float)
  : list float :=
  map (autocorrelationPitch this) (frames 2048 512 samples).

(** The pitch as the specification words it: estimates outside [[50, 500]]
    are discarded, both ends of the interval being kept. *)
Definition within_50_500 (pitch : float) : bool :=
  (50 <=? pitch) && (pitch <=? 500).

Definition spec_pitch (this : DSPProcessor) (samples : list float) : float :=
  match filter within_50_500 (frame_estimates this samples) with
  | [] => 150
  | retained => median retained
  end.

(** The order the comparator [(a, b) => a - b] induces: [a] may stand before
    [b] unless [a - b] is positive. *)
Definition cmp_le (a b : float) : Prop := (0 <? a - b) = false.

(** The padding values [500 + 1000 * index] for the indices from [count]
    up to 2. *)
Definition default_formants (count : nat) : list float :=
  map (fun index => 500 + of_nat index * 1000) (seq count (3 - count)).

(** A frame is constant when all its samples are one finite value. *)
Definition constant_frame (frame : list float) : Prop :=
  exists c, is_finite c = true /\ frame = repeat c (length frame).

(** The ratio in the words of the specification: per frame of 2048 samples
    the mean of the squared samples, and the mean of the squared first
    differences scaled by 0.1, both accumulated over the frames. *)
Fixpoint first_differences_from (prev : float) (rest : list float) : list float :=
  match rest with
  | [] => []
  | x :: rest' => (x - prev) :: first_differences_from x rest'
  end.

Definition first_differences (frame : list float) : list float :=
  match frame with
  | [] => []
  | x :: rest => first_differences_from x rest
  end.

Definition squares (a : list float) : list float := map (fun x => x * x) a.

Definition frame_signal_power (frame : list float) : float :=
  sum (squares frame) / of_nat (length frame).

Definition frame_noise_power (frame : list float) : float :=
  sum (squares (first_differences frame)) / of_nat (length frame)
  * 0x1.999999999999ap-4.

Definition hnr_frames (samples : list float) : list (list float) :=
  map (fun j => slice samples (j * 2048) (j * 2048 + 2048))
      (seq 0 ((length samples - 1) / 2048)).

Definition total_signal_power (samples : list float) : float :=
  sum (map frame_signal_power (hnr_frames samples)).

Definition total_noise_power (samples : list float) : float :=
  sum (map frame_noise_power (hnr_frames samples)).

(** ** Framing and crossings, in closed form *)

(** The number of frames of a loop with frames of [frameSize] samples and
    hop size [hopSize] over [len] samples: the least [n] with
    [n * hopSize + frameSize >= len]. *)
Definition frame_count (frameSize hopSize len : nat) : nat :=
  ((len - frameSize + hopSize - 1) / hopSize)%nat.

(** What the zero-crossing test reads of a sample. *)
Definition crossing_sign (x : float) : bool * bool := (x <=? 0, 0 <? x).

(** The bins at which the spectrum falls after having risen, the scan
    starting with [prevMag] as the magnitude before and [rising] as its
    state: the peaks of the formant scan when none is left out. *)
Fixpoint rise_then_fall (magnitudes : list float) (bins : list Z)
         (prevMag : float) (rising : bool) : list Z :=
  match bins with
  | [] => []
  | i :: rest =>
      let mag := get magnitudes i in
      if prevMag <? mag then rise_then_fall magnitudes rest mag true
      else if rising && (mag <? prevMag)
           then i :: rise_then_fall magnitudes rest mag false
           else rise_then_fall magnitudes rest mag rising
  end.

(** ** Auxiliary predicates *)

(** A number of sign [s] that is neither zero nor NaN, in the specification
    format of the floating-point library. *)
Definition signed_nonzero (s : bool) (x : spec_float) : Prop :=
  match x with
  | S754_finite s' _ _ | S754_infinity s' => s' = s
  | _ => False
  end.

(** A number that is not negative: a positive zero, a positive finite
    number or plus infinity. *)
Definition nonneg_shape (x : spec_float) : Prop :=
  match x with
  | S754_zero false | S754_finite false _ _ | S754_infinity false => True
  | _ => False
  end.

(** A positive finite number. *)
Definition positive_finite (x : float) : Prop :=
  exists m e, Prim2SF x = S754_finite false m e.

(** A list whose every element is at most the next one. *)
Definition ascending (l : list float) : Prop :=
  LocallySorted (fun a b => (a <=? b) = true) l.

(** A value that is NaN or at least zero. *)
Definition not_negative (x : float) : Prop :=
  is_nan x = true \/ (0 <=? x) = true.

(** A value that is NaN, a positive zero, a positive number or plus
    infinity. *)
Definition nonneg_or_nan (x : float) : Prop :=
  match Prim2SF x with
  | S754_nan => True
  | s => nonneg_shape s
  end.

(** A value that is a zero or NaN. *)
Definition zero_or_nan (x : float) : Prop :=
  match Prim2SF x with
  | S754_zero _ | S754_nan => True
  | _ => False
  end.

(** Two values that are each other's opposite, the sign of a zero left
    aside. *)
Definition mirror (a b : spec_float) : Prop :=
  match a, b with
  | S754_zero _, S754_zero _ => True
  | _, _ => b = SFopp a
  end.

Definition mirrored (x y : float) : Prop := mirror (Prim2SF x) (Prim2SF y).

(** The place of a number on the integer line, in units of [2^-1074], the
    smallest positive number; the infinities stand beyond every finite
    number. *)
Definition key_infinity : Z := 2 ^ 2100.

Definition SFkey (x : spec_float) : Z :=
  match x with
  | S754_zero _ | S754_nan => 0
  | S754_infinity s => cond_Zopp s key_infinity
  | S754_finite s m e => cond_Zopp s (Zpos m * 2 ^ (e + 1074))
  end.

Definition key (x : float) : Z := SFkey (Prim2SF x).

(** A positive number whose exponent is at least [low], or plus
    infinity. *)
Definition exponent_from (low : Z) (x : spec_float) : Prop :=
  match x with
  | S754_finite false _ e => (low <= e)%Z
  | S754_infinity false => True
  | _ => False
  end.

(** A positive number of at least [2^-969], or plus infinity. *)
Definition large (x : float) : Prop := exponent_from (-1021) (Prim2SF x).

(** A number that is zero or finite and positive, and at most [c * 2^E]. *)
Definition at_most (c E : Z) (x : spec_float) : Prop :=
  match x with
  | S754_zero false => True
  | S754_finite false m e =>
      (-1074 <= e)%Z /\ (Zpos m * 2 ^ (e + 1074) <= c * 2 ^ (E + 1074))%Z
  | _ => False
  end.

(** A number that is zero or finite, of magnitude at most [2^B]. *)
Definition within (B : Z) (x : spec_float) : Prop :=
  match x with
  | S754_zero _ => True
  | S754_finite _ m e => (Zpos m * 2 ^ (e + 1074) <= 2 ^ (B + 1074))%Z
  | _ => False
  end.

Definition finite_or_zero (x : spec_float) : Prop :=
  match x with
  | S754_zero _ | S754_finite _ _ _ => True
  | _ => False
  end.

(** A sample that is a number of the magnitude a [Float32Array] holds:
    neither NaN nor infinite, and at most [2^128]. *)
Definition single_range (x : float) : Prop := (abs x <=? 0x1p+128) = true.

(** ** Test data *)

(** A [Math] object to run the model on: the Taylor polynomials of degree
    five for the sine and four for the cosine, a logarithm that interpolates
    linearly between the powers of two, and the square for [pow(x, 2)].  It
    stands for no engine in particular; the theorems below hold for every
    [Math] object. *)
Definition coarse_log10 (x : float) : float :=
  if is_nan x || (x <? 0) then nan
  else if x =? 0 then neg_infinity
  else if is_infinity x then infinity
  else
    let (m, e) := Z.frexp x in
    (of_Z e + (2 * m - 2)) * 0x1.34413509f79ffp-2.

Definition coarse_Math : MathObject := {|
  Math_cos := fun x => 1 - x * x / 2 + x * x * x * x / 24;
  Math_sin := fun x => x - x * x * x / 6 + x * x * x * x * x / 120;
  Math_log10 := coarse_log10;
  Math_pow := fun x y => if y =? 2 then x * x else nan
|}.

Definition rate_44100 : DSPProcessor := {| sampleRate := 44100 |}.
Definition rate_48000 : DSPProcessor := {| sampleRate := 48000 |}.

(** [n] samples of silence. *)
Definition silence (n : nat) : list float := repeat 0 n.

Definition recording (samples : list float) (seconds : float) : AudioBuffer :=
  {| channelData := samples; buffer_duration := seconds |}.

(** A square tone: [count] periods of [half] samples at 0.5 followed by
    [half] samples at -0.5. *)
Fixpoint square_tone (half count : nat) : list float :=
  match count with
  | O => []
  | S count' => repeat 0.5 half ++ repeat (-0.5) half ++ square_tone half count'
  end.

(** The square wave of period 2. *)
Definition square_wave (n : nat) : list float := square_tone 1 n.

(** One sample above zero followed by [period - 1] samples below it,
    [count] times: the rising crossings are [period] samples apart. *)
Fixpoint pulse_train (period count : nat) : list float :=
  match count with
  | O => []
  | S count' => (0.5 :: repeat (-0.5) (period - 1)) ++ pulse_train period count'
  end.

(** An exponential to run the predictor on: the Taylor polynomial of
    degree two. *)
Definition coarse_exp (x : float) : float := 1 + x + x * x / 2.

Definition rate_409600 : DSPProcessor := {| sampleRate := 409600 |}.

(** One sample at 1 among seven of silence. *)
Definition tick : list float := [0; 1; 0; 0; 0; 0; 0; 0].

(** 1024 samples at 0.25 followed by 1025 at -0.75: one frame, with one
    step in it. *)
Definition loud_then_louder : list float :=
  repeat 0.25 1024 ++ repeat (-0.75) 1025.

(** A world to run the extractor in: its state counts the requests; every
    random number and every new context's rate depend on it, and the decoder
    gives [samples] whatever it is asked. *)
Definition counting_world (samples : list float) : World nat :=
  fun X e =>
    match e in effect X return nat -> X * nat with
    | Blob_arrayBuffer audioBlob => fun w => (audioBlob, S w)
    | AudioContext_decodeAudioData _ =>
        fun w => (Some (recording samples 0), S w)
    | new_AudioContext => fun w => (44100 + of_nat w, S w)
    | Math_random => fun w => (1 / (1 + of_nat w), S w)
    end.

(** * Properties *)

(** ** Loops and arrays *)

Lemma frame_starts_short (fuel frameSize hopSize len : nat) :
  (len <= frameSize)%nat -> frame_starts fuel 0 frameSize hopSize len = [].
Proof.
  intros Hlen. destruct fuel as [|fuel]; simpl; [reflexivity|].
  destruct (Nat.ltb_spec frameSize len); [lia | reflexivity].
Qed.

(** The fuel of [frames] is never used up: more of it changes nothing. *)
Lemma frame_starts_fuel (fuel extra i frameSize hopSize len : nat) :
  (0 < hopSize)%nat -> (len <= i + fuel)%nat ->
  frame_starts (fuel + extra) i frameSize hopSize len
  = frame_starts fuel i frameSize hopSize len.
Proof.
  intros Hhop. revert i.
  induction fuel as [|fuel IH]; intros i Hfuel.
  - destruct extra as [|extra]; simpl; [reflexivity|].
    destruct (Nat.ltb_spec (i + frameSize) len); [lia | reflexivity].
  - simpl. destruct (Nat.ltb_spec (i + frameSize) len); [|reflexivity].
    f_equal. apply IH. lia.
Qed.

(** Every offset the loop visits satisfies its guard, and the offsets are
    the multiples of the hop size. *)
Lemma frame_starts_guard (fuel i frameSize hopSize len o : nat) :
  In o (frame_starts fuel i frameSize hopSize len) ->
  (o + frameSize < len)%nat /\ exists k, o = (i + k * hopSize)%nat.
Proof.
  revert i. induction fuel as [|fuel IH]; intros i; simpl; [tauto|].
  destruct (Nat.ltb_spec (i + frameSize) len); simpl; [|tauto].
  intros [<- | Hin].
  - split; [assumption | exists 0%nat; lia].
  - destruct (IH _ Hin) as [Hg [k ->]]. split; [assumption|].
    exists (S k). lia.
Qed.

Lemma frames_short (frameSize hopSize : nat) (samples : list float) :
  (length samples <= frameSize)%nat -> frames frameSize hopSize samples = [].
Proof.
  intros H. unfold frames. now rewrite frame_starts_short.
Qed.

Lemma frames_length (frameSize hopSize : nat) (samples frame : list float) :
  In frame (frames frameSize hopSize samples) -> length frame = frameSize.
Proof.
  unfold frames. rewrite in_map_iff. intros [o [<- Hin]].
  apply frame_starts_guard in Hin. destruct Hin as [Hg _].
  unfold slice. rewrite length_firstn, length_skipn. lia.
Qed.

(** The pushing loop keeps the plausible estimates, in frame order. *)
Lemma fold_push_pitch (this : DSPProcessor) (fs : list (list float))
      (pitches : list float) :
  fold_left (push_pitch this) fs pitches
  = pitches ++ filter plausible (map (autocorrelationPitch this) fs).
Proof.
  revert pitches. induction fs as [|f fs IH]; intros pitches; simpl.
  - now rewrite app_nil_r.
  - rewrite IH. unfold push_pitch.
    destruct (plausible (autocorrelationPitch this f)); [|reflexivity].
    now rewrite <- app_assoc.
Qed.

Lemma frame_pitches_filter (this : DSPProcessor) (samples : list float) :
  frame_pitches this samples
  = filter plausible (frame_estimates this samples).
Proof.
  unfold frame_pitches. now rewrite fold_push_pitch.
Qed.

Lemma frame_pitches_plausible (this : DSPProcessor) (samples : list float) :
  Forall (fun p => plausible p = true) (frame_pitches this samples).
Proof.
  rewrite frame_pitches_filter, Forall_forall.
  intros p Hp. now apply filter_In in Hp.
Qed.

(** Sorting rearranges. *)
Lemma sort_insert_perm (x : float) (l : list float) :
  Permutation (sort_insert x l) (x :: l).
Proof.
  induction l as [|y l IH]; simpl; [reflexivity|].
  destruct (0 <? x - y); [|reflexivity].
  rewrite IH. apply perm_swap.
Qed.

Lemma sort_perm (l : list float) : Permutation (sort l) l.
Proof.
  induction l as [|x l IH]; simpl; [reflexivity|].
  rewrite sort_insert_perm. now apply perm_skip.
Qed.

Lemma sort_length (l : list float) : length (sort l) = length l.
Proof. apply Permutation_length, sort_perm. Qed.

Lemma median_In (l : list float) : l <> [] -> In (median l) l.
Proof.
  intros Hl. unfold median.
  apply (Permutation_in _ (sort_perm l)), nth_In.
  rewrite sort_length. destruct l as [|x l]; [congruence|].
  apply Nat.div_lt; simpl; lia.
Qed.

Lemma nth_map_seq {A : Type} (f : nat -> A) (d : A) (start len k : nat) :
  (k < len)%nat -> nth k (map f (seq start len)) d = f (start + k)%nat.
Proof.
  intros Hk.
  rewrite (nth_indep _ d (f 0%nat)) by (rewrite length_map, length_seq; lia).
  rewrite (map_nth f). now rewrite seq_nth.
Qed.

Lemma skipn_repeat {A : Type} (x : A) (k n : nat) :
  skipn k (repeat x n) = repeat x (n - k).
Proof.
  revert n. induction k as [|k IH]; intros n; simpl.
  - now rewrite Nat.sub_0_r.
  - destruct n as [|n]; simpl; [reflexivity | apply IH].
Qed.

Lemma firstn_repeat {A : Type} (x : A) (k n : nat) :
  firstn k (repeat x n) = repeat x (Nat.min k n).
Proof.
  revert n. induction k as [|k IH]; intros n; simpl; [reflexivity|].
  destruct n as [|n]; simpl; [reflexivity | now rewrite IH].
Qed.

Lemma filter_repeat_false {A : Type} (f : A -> bool) (x : A) (k : nat) :
  f x = false -> filter f (repeat x k) = [].
Proof.
  intros Hx. induction k as [|k IH]; simpl; [reflexivity|]. now rewrite Hx.
Qed.

(** ** Rounding keeps the sign *)

Lemma digits2_pos_bounds (m : positive) :
  (2 ^ (Zpos (digits2_pos m) - 1) <= Zpos m < 2 ^ Zpos (digits2_pos m))%Z.
Proof.
  induction m as [m IH|m IH|]; cbn [digits2_pos].
  - rewrite Pos2Z.inj_succ. change (Zpos m~1) with (2 * Zpos m + 1)%Z.
    replace (Z.succ (Zpos (digits2_pos m)) - 1)%Z
      with (Z.succ (Zpos (digits2_pos m) - 1))%Z by lia.
    rewrite !Z.pow_succ_r by lia.
    remember (2 ^ (Zpos (digits2_pos m) - 1))%Z as a.
    remember (2 ^ Zpos (digits2_pos m))%Z as b. clear Heqa Heqb. lia.
  - rewrite Pos2Z.inj_succ. change (Zpos m~0) with (2 * Zpos m)%Z.
    replace (Z.succ (Zpos (digits2_pos m)) - 1)%Z
      with (Z.succ (Zpos (digits2_pos m) - 1))%Z by lia.
    rewrite !Z.pow_succ_r by lia.
    remember (2 ^ (Zpos (digits2_pos m) - 1))%Z as a.
    remember (2 ^ Zpos (digits2_pos m))%Z as b. clear Heqa Heqb. lia.
  - simpl. lia.
Qed.

Lemma shr_1_m (mrs : shr_record) :
  (0 <= shr_m mrs)%Z -> shr_m (shr_1 mrs) = (shr_m mrs / 2)%Z.
Proof.
  destruct mrs as [m r s]. cbn [shr_m]. intros Hm.
  destruct m as [|[p|p|]|p]; cbn [shr_1 shr_m]; try lia.
  - reflexivity.
  - apply Z.div_unique with 1%Z; lia.
  - apply Z.div_unique with 0%Z; lia.
  - reflexivity.
Qed.

Lemma pow2_xO (n : positive) : (2 ^ Zpos n~0 = 2 ^ Zpos n * 2 ^ Zpos n)%Z.
Proof.
  change (Zpos n~0) with (2 * Zpos n)%Z.
  replace (2 * Zpos n)%Z with (Zpos n + Zpos n)%Z by lia.
  apply Z.pow_add_r; lia.
Qed.

Lemma pow2_xI (n : positive) : (2 ^ Zpos n~1 = 2 * (2 ^ Zpos n * 2 ^ Zpos n))%Z.
Proof.
  change (Zpos n~1) with (Z.succ (Zpos n~0)).
  rewrite Z.pow_succ_r by lia. now rewrite pow2_xO.
Qed.

Lemma iter_shr_1_m (n : positive) (mrs : shr_record) :
  (0 <= shr_m mrs)%Z ->
  shr_m (iter_pos shr_1 n mrs) = (shr_m mrs / 2 ^ Zpos n)%Z.
Proof.
  revert mrs. induction n as [n IH|n IH|]; intros mrs Hm; cbn [iter_pos].
  - assert (H1 : (0 <= shr_m (shr_1 mrs))%Z)
      by (rewrite shr_1_m by lia; apply Z.div_pos; lia).
    assert (H2 : (0 <= shr_m (iter_pos shr_1 n (shr_1 mrs)))%Z)
      by (rewrite IH by lia; apply Z.div_pos; lia).
    rewrite IH, IH, shr_1_m by lia.
    assert (Hp : (0 < 2 ^ Zpos n)%Z) by (apply Z.pow_pos_nonneg; lia).
    rewrite !Z.div_div by lia. now rewrite pow2_xI.
  - assert (H2 : (0 <= shr_m (iter_pos shr_1 n mrs))%Z)
      by (rewrite IH by lia; apply Z.div_pos; lia).
    assert (Hp : (0 < 2 ^ Zpos n)%Z) by (apply Z.pow_pos_nonneg; lia).
    rewrite IH, IH by lia. rewrite Z.div_div by lia. now rewrite pow2_xO.
  - rewrite shr_1_m by lia. reflexivity.
Qed.

Lemma shr_record_of_loc_m (m : Z) (l : location) :
  shr_m (shr_record_of_loc m l) = m.
Proof. destruct l as [|[]]; reflexivity. Qed.

(** Shifting a positive mantissa down to its format leaves it positive. *)
Lemma shr_fexp_pos (m e : Z) (l : location) :
  (0 < m)%Z -> (-1074 <= e)%Z ->
  (0 < shr_m (fst (shr_fexp prec emax m e l)))%Z
  /\ (-1074 <= snd (shr_fexp prec emax m e l))%Z.
Proof.
  intros Hm He. unfold shr_fexp, shr.
  destruct m as [|p|p]; try lia. cbn [Zdigits2].
  pose proof (digits2_pos_bounds p) as [Hlo _].
  set (d := Zpos (digits2_pos p)) in *.
  unfold SpecFloat.fexp. change (SpecFloat.emin prec emax) with (-1074)%Z. change prec with 53%Z.
  destruct (Z.max (d + e - 53) (-1074) - e)%Z as [|q|q] eqn:Hn;
    cbn [fst snd]; rewrite ?shr_record_of_loc_m; try (split; lia).
  rewrite iter_shr_1_m by (rewrite shr_record_of_loc_m; lia).
  rewrite shr_record_of_loc_m. split; [|lia].
  apply Z.div_str_pos. split; [apply Z.pow_pos_nonneg; lia|].
  apply Z.le_trans with (2 ^ (d - 1))%Z; [|exact Hlo].
  apply Z.pow_le_mono_r; lia.
Qed.

Lemma round_nearest_even_pos (m : Z) (l : location) :
  (0 < m)%Z -> (0 < round_nearest_even m l)%Z.
Proof.
  intros Hm. destruct l as [|[]]; cbn [round_nearest_even]; try lia.
  destruct (Z.even m); lia.
Qed.

Lemma binary_round_aux_signed (s : bool) (m e : Z) (l : location) :
  (0 < m)%Z -> (-1074 <= e)%Z ->
  signed_nonzero s (binary_round_aux prec emax s m e l).
Proof.
  intros Hm He. unfold binary_round_aux.
  pose proof (shr_fexp_pos m e l Hm He) as [H1 H2].
  destruct (shr_fexp prec emax m e l) as [mrs' e']. cbn [fst snd] in *.
  pose proof (round_nearest_even_pos _ (loc_of_shr_record mrs') H1) as H3.
  pose proof (shr_fexp_pos _ e' loc_Exact H3 H2) as [H4 _].
  destruct (shr_fexp prec emax _ e' loc_Exact) as [mrs'' e''].
  cbn [fst] in H4. destruct (shr_m mrs''); try lia.
  destruct (e'' <=? emax - prec)%Z; reflexivity.
Qed.

Lemma binary_round_signed (s : bool) (p : positive) (e : Z) :
  (-1074 <= e)%Z -> signed_nonzero s (binary_round prec emax s p e).
Proof.
  intros He. unfold binary_round.
  destruct (shl_align p e _) as [mz ez] eqn:E.
  apply binary_round_aux_signed; [lia|].
  unfold shl_align in E.
  destruct (SpecFloat.fexp prec emax (Zpos (digits2_pos p) + e) - e)%Z eqn:Hd;
    inversion E; subst; try lia.
  unfold SpecFloat.fexp. change (SpecFloat.emin prec emax) with (-1074)%Z. lia.
Qed.

Lemma signed_nonzero_pos (x : spec_float) :
  signed_nonzero false x -> SFltb (S754_zero false) x = true.
Proof. destruct x as [s|s| |s m e]; simpl; intros H; now subst. Qed.

(** A result rounded with a negative sign is never positive. *)
Lemma binary_round_aux_neg (m e : Z) (l : location) :
  SFltb (S754_zero false) (binary_round_aux prec emax true m e l) = false.
Proof.
  unfold binary_round_aux.
  destruct (shr_fexp prec emax m e l) as [mrs' e'].
  destruct (shr_fexp prec emax _ e' loc_Exact) as [mrs'' e''].
  destruct (shr_m mrs''); [reflexivity | | reflexivity].
  destruct (e'' <=? emax - prec)%Z; reflexivity.
Qed.

Lemma shr_fexp_nonneg (m e : Z) (l : location) :
  (0 <= m)%Z -> (0 <= shr_m (fst (shr_fexp prec emax m e l)))%Z.
Proof.
  intros Hm. unfold shr_fexp, shr.
  destruct (SpecFloat.fexp prec emax (Zdigits2 m + e) - e)%Z as [|q|q];
    cbn [fst]; rewrite ?shr_record_of_loc_m; try lia.
  rewrite iter_shr_1_m by (rewrite shr_record_of_loc_m; lia).
  rewrite shr_record_of_loc_m. apply Z.div_pos; [lia|].
  apply Z.pow_pos_nonneg; lia.
Qed.

(** Rounding never produces NaN. *)
Lemma binary_round_aux_not_nan (s : bool) (m e : Z) (l : location) :
  (0 <= m)%Z -> binary_round_aux prec emax s m e l <> S754_nan.
Proof.
  intros Hm. unfold binary_round_aux.
  pose proof (shr_fexp_nonneg m e l Hm) as H1.
  destruct (shr_fexp prec emax m e l) as [mrs' e']. cbn [fst] in H1.
  assert (H2 : (0 <= round_nearest_even (shr_m mrs') (loc_of_shr_record mrs'))%Z).
  { destruct (loc_of_shr_record mrs') as [|[]]; cbn [round_nearest_even];
      try lia. destruct (Z.even (shr_m mrs')); lia. }
  pose proof (shr_fexp_nonneg _ e' loc_Exact H2) as H3.
  destruct (shr_fexp prec emax _ e' loc_Exact) as [mrs'' e''].
  cbn [fst] in H3. destruct (shr_m mrs''); try lia; try discriminate.
  destruct (e'' <=? emax - prec)%Z; discriminate.
Qed.

Lemma is_nan_spec (x : float) :
  is_nan x = match Prim2SF x with S754_nan => true | _ => false end.
Proof.
  unfold is_nan. rewrite eqb_spec. unfold SFeqb.
  destruct (Prim2SF x) as [s|s| |s m e]; cbn [SFcompare].
  - reflexivity.
  - now destruct s.
  - reflexivity.
  - destruct s; rewrite Z.compare_refl, Pos.compare_cont_refl; reflexivity.
Qed.

(** Ten times a number is a number. *)
Lemma ten_times_not_nan (y : float) : is_nan y = false -> is_nan (10 * y) = false.
Proof.
  rewrite !is_nan_spec, mul_spec.
  change (Prim2SF 10) with (S754_finite false 5629499534213120 (-49)).
  destruct (Prim2SF y) as [s|s| |s m e]; try reflexivity; try discriminate.
  intros _. unfold SF64mul, SFmul.
  pose proof (binary_round_aux_not_nan (xorb false s)
                (Zpos (5629499534213120 * m)) (-49 + e) loc_Exact
                ltac:(lia)) as H.
  now destruct (binary_round_aux _ _ _ _ _ _).
Qed.

Lemma binary_normalize_neg (p : positive) (e : Z) :
  SFltb (S754_zero false) (binary_normalize prec emax (Zneg p) e false) = false.
Proof.
  unfold binary_normalize, binary_round.
  destruct (shl_align p e _) as [mz ez]. apply binary_round_aux_neg.
Qed.

Lemma of_nat_signed (n : nat) :
  (0 < Z.of_nat n < 2 ^ 63)%Z -> signed_nonzero false (Prim2SF (of_nat n)).
Proof.
  intros Hn. unfold of_nat, of_Z.
  destruct (Z.ltb_spec (Z.of_nat n) 0); [lia|].
  rewrite of_uint63_spec.
  change Uint63Axioms.to_Z with Uint63.to_Z.
  rewrite Uint63.of_Z_spec, Z.mod_small by (change Uint63.wB with (2 ^ 63)%Z; lia).
  destruct (Z.of_nat n) as [|p|p]; try lia.
  cbn [binary_normalize]. apply binary_round_signed. lia.
Qed.

Lemma zero_div_of_nat (n : nat) :
  (0 < Z.of_nat n < 2 ^ 63)%Z -> 0 / of_nat n = 0.
Proof.
  intros Hn. apply of_nat_signed in Hn.
  apply Prim2SF_inj. rewrite div_spec.
  change (Prim2SF 0) with (S754_zero false).
  destruct (Prim2SF (of_nat n)) as [s|s| |s m e]; simpl in Hn; try tauto;
    subst s; reflexivity.
Qed.

(** ** Order of the positive numbers *)

Lemma iter_xO_value (d m : positive) :
  Zpos (Pos.iter xO m d) = (Zpos m * 2 ^ Zpos d)%Z.
Proof.
  induction d as [|d IH] using Pos.peano_ind.
  - simpl. lia.
  - rewrite Pos.iter_succ, Pos2Z.inj_succ, Z.pow_succ_r by lia.
    change (Zpos (Pos.iter xO m d)~0) with (2 * Zpos (Pos.iter xO m d))%Z.
    rewrite IH. lia.
Qed.

(** The mantissa moved to a smaller exponent. *)
Lemma shl_align_value (m : positive) (e e' : Z) :
  (e' <= e)%Z ->
  Zpos (fst (shl_align m e e')) = (Zpos m * 2 ^ (e - e'))%Z.
Proof.
  intros He. unfold shl_align.
  destruct (e' - e)%Z as [|d|d] eqn:Hd; cbn [fst]; try lia.
  - replace (e - e')%Z with 0%Z by lia. simpl. lia.
  - rewrite iter_xO_value. f_equal. f_equal. lia.
Qed.

(** What validity says of a finite number: its exponent is at least -1074
    and its mantissa has at most 53 bits, and exactly 53 above the smallest
    exponent. *)
Lemma valid_finite_bounds (s : bool) (m : positive) (e : Z) :
  valid_binary (S754_finite s m e) = true ->
  (-1074 <= e)%Z
  /\ (Zpos m < 2 ^ 53)%Z
  /\ ((-1074 < e)%Z -> (2 ^ 52 <= Zpos m)%Z).
Proof.
  unfold SpecFloat.valid_binary, bounded, canonical_mantissa, SpecFloat.fexp.
  change (SpecFloat.emin prec emax) with (-1074)%Z. change prec with 53%Z.
  rewrite andb_true_iff, Z.eqb_eq. intros [Hc _].
  pose proof (digits2_pos_bounds m) as [Hlo Hhi].
  set (d := Zpos (digits2_pos m)) in *.
  assert (Hd : (d <= 53)%Z) by lia.
  split; [lia|]. split.
  - apply Z.lt_le_trans with (2 ^ d)%Z; [exact Hhi|].
    apply Z.pow_le_mono_r; lia.
  - intros He. replace d with 53%Z in Hlo by lia. exact Hlo.
Qed.

(** The order of two valid positive numbers is the order of their mantissas
    once aligned to the smaller exponent. *)
Lemma SFcompare_aligned (mx my : positive) (ex ey : Z) :
  valid_binary (S754_finite false mx ex) = true ->
  valid_binary (S754_finite false my ey) = true ->
  SFcompare (S754_finite false mx ex) (S754_finite false my ey)
  = Some (Zpos (fst (shl_align mx ex (Z.min ex ey)))
          ?= Zpos (fst (shl_align my ey (Z.min ex ey))))%Z.
Proof.
  intros Hx Hy.
  apply valid_finite_bounds in Hx. destruct Hx as [Hex [Hxhi Hxlo]].
  apply valid_finite_bounds in Hy. destruct Hy as [Hey [Hyhi Hylo]].
  rewrite !shl_align_value by lia. cbn [SFcompare]. f_equal.
  destruct (Z.compare_spec ex ey) as [Heq|Hlt|Hgt].
  - subst ey. rewrite Z.min_id, Z.sub_diag. simpl (2 ^ 0)%Z.
    rewrite !Z.mul_1_r. reflexivity.
  - rewrite Z.min_l by lia. rewrite Z.sub_diag. simpl (2 ^ 0)%Z.
    rewrite Z.mul_1_r. symmetry. apply Z.compare_lt_iff.
    assert (H2 : (2 ^ 1 <= 2 ^ (ey - ex))%Z) by (apply Z.pow_le_mono_r; lia).
    change (2 ^ 1)%Z with 2%Z in H2. specialize (Hylo ltac:(lia)).
    change (2 ^ 53)%Z with (2 ^ 52 * 2)%Z in Hxhi. nia.
  - rewrite Z.min_r by lia. rewrite Z.sub_diag. simpl (2 ^ 0)%Z.
    rewrite Z.mul_1_r. symmetry. apply Z.compare_gt_iff.
    assert (H2 : (2 ^ 1 <= 2 ^ (ex - ey))%Z) by (apply Z.pow_le_mono_r; lia).
    change (2 ^ 1)%Z with 2%Z in H2. specialize (Hxlo ltac:(lia)).
    change (2 ^ 53)%Z with (2 ^ 52 * 2)%Z in Hyhi. nia.
Qed.

(** On positive finite numbers the comparator [(a, b) => a - b] is positive
    exactly when its first argument is the larger. *)
Lemma sub_pos_ltb (x y : float) :
  positive_finite x -> positive_finite y -> (0 <? x - y) = (y <? x).
Proof.
  intros [mx [ex Hx]] [my [ey Hy]].
  pose proof (Prim2SF_valid x) as Vx. pose proof (Prim2SF_valid y) as Vy.
  rewrite !ltb_spec, sub_spec, Hx, Hy in *.
  change (Prim2SF 0) with (S754_zero false).
  unfold SFltb at 2. rewrite (SFcompare_aligned my mx ey ex Vy Vx).
  unfold SF64sub, SFsub. cbn [cond_Zopp]. rewrite (Z.min_comm ey ex).
  destruct (valid_finite_bounds _ _ _ Vx) as [Hex _].
  destruct (valid_finite_bounds _ _ _ Vy) as [Hey _].
  set (a := Zpos (fst (shl_align mx ex (Z.min ex ey)))).
  set (b := Zpos (fst (shl_align my ey (Z.min ex ey)))).
  destruct (a - b)%Z as [|p|p] eqn:Hab.
  - replace b with a by lia. now rewrite Z.compare_refl.
  - assert (Hlt : (b < a)%Z) by lia. apply Z.compare_lt_iff in Hlt.
    rewrite Hlt. apply signed_nonzero_pos. cbn [binary_normalize].
    apply binary_round_signed. lia.
  - assert (Hgt : (b > a)%Z) by lia. apply Z.compare_gt_iff in Hgt.
    rewrite (proj2 (Z.compare_gt_iff b a)) by lia. apply binary_normalize_neg.
Qed.

Lemma leb_negb_ltb (x y : float) :
  positive_finite x -> positive_finite y -> (x <=? y) = negb (y <? x).
Proof.
  intros [mx [ex Hx]] [my [ey Hy]].
  pose proof (Prim2SF_valid x) as Vx. pose proof (Prim2SF_valid y) as Vy.
  rewrite leb_spec, ltb_spec, Hx, Hy in *. unfold SFleb, SFltb.
  rewrite (SFcompare_aligned mx my ex ey Vx Vy).
  rewrite (SFcompare_aligned my mx ey ex Vy Vx), (Z.min_comm ey ex).
  rewrite (Z.compare_antisym (Zpos (fst (shl_align mx ex (Z.min ex ey))))).
  now destruct (_ ?= _)%Z.
Qed.

Lemma ltb_50_positive (x : float) :
  (50 <? x) = true -> (x <? 500) = true -> positive_finite x.
Proof.
  rewrite !ltb_spec. unfold positive_finite.
  change (Prim2SF 50) with (S754_finite false 7036874417766400 (-47)).
  change (Prim2SF 500) with (S754_finite false 8796093022208000 (-44)).
  destruct (Prim2SF x) as [s|s| |s m e]; unfold SFltb; cbn [SFcompare].
  - destruct s; discriminate.
  - destruct s; discriminate.
  - discriminate.
  - destruct s; [discriminate|]. intros _ _. now exists m, e.
Qed.

Lemma plausible_positive (pitch : float) :
  plausible pitch = true -> positive_finite pitch.
Proof.
  unfold plausible. rewrite andb_true_iff. intros [H50 H500].
  now apply ltb_50_positive.
Qed.

(** ** Exact operations *)

Lemma digits2_pos_unique (m : positive) (d : Z) :
  (2 ^ (d - 1) <= Zpos m < 2 ^ d)%Z -> Zpos (digits2_pos m) = d.
Proof.
  intros [Hlo Hhi]. pose proof (digits2_pos_bounds m) as [Hlo' Hhi'].
  set (d' := Zpos (digits2_pos m)) in *.
  assert (Hd : (0 < d)%Z).
  { destruct (Z.lt_trichotomy d 0) as [H|[H|H]]; [|subst d; simpl in Hhi; lia|lia].
    rewrite Z.pow_neg_r in Hhi by lia. lia. }
  destruct (Z.lt_trichotomy d' d) as [H|[H|H]]; [|exact H|].
  - assert (2 ^ d' <= 2 ^ (d - 1))%Z by (apply Z.pow_le_mono_r; lia). lia.
  - assert (2 ^ d <= 2 ^ (d' - 1))%Z by (apply Z.pow_le_mono_r; lia). lia.
Qed.

Lemma shr_52 (m : positive) :
  iter_pos shr_1 52
    (Build_shr_record (Zpos (m * 4503599627370496)) false false)
  = Build_shr_record (Zpos m) false false.
Proof. rewrite Pos.mul_comm. reflexivity. Qed.

(** A number with a full mantissa times a power of two with mantissa
    2^52, when the exponent stays in range: the mantissa is unchanged. *)
Lemma SFmul_pow2 (s : bool) (m : positive) (e c : Z) :
  (2 ^ 52 <= Zpos m < 2 ^ 53)%Z ->
  (-1074 <= e + c + 52 <= 971)%Z ->
  SFmul prec emax (S754_finite s m e) (S754_finite false 4503599627370496 c)
  = S754_finite s m (e + c + 52).
Proof.
  intros Hm He. cbn [SFmul]. rewrite xorb_false_r.
  assert (Hd : Zpos (digits2_pos m) = 53%Z)
    by (apply digits2_pos_unique; exact Hm).
  assert (Hd' : Zpos (digits2_pos (m * 4503599627370496)) = 105%Z).
  { apply digits2_pos_unique. rewrite Pos2Z.inj_mul.
    change (Zpos 4503599627370496) with (2 ^ 52)%Z.
    change (2 ^ (105 - 1))%Z with (2 ^ 52 * 2 ^ 52)%Z.
    change (2 ^ 105)%Z with (2 ^ 53 * 2 ^ 52)%Z.
    remember (2 ^ 52)%Z as a. remember (2 ^ 53)%Z as b.
    assert (0 < a)%Z by (subst a; reflexivity). nia. }
  unfold binary_round_aux, shr_fexp. cbn [Zdigits2]. rewrite Hd'.
  unfold SpecFloat.fexp.
  change (SpecFloat.emin prec emax) with (-1074)%Z. change prec with 53%Z.
  cbn [shr_record_of_loc].
  replace (Z.max (105 + (e + c) - 53) (-1074) - (e + c))%Z with 52%Z by lia.
  cbn [shr]. rewrite shr_52.
  cbn [shr_m loc_of_shr_record round_nearest_even Zdigits2 shr_record_of_loc].
  rewrite Hd.
  replace (Z.max (53 + (e + c + 52) - 53) (-1074) - (e + c + 52))%Z
    with 0%Z by lia.
  cbn [shr shr_m]. destruct (Z.leb_spec (e + c + 52) (emax - 53)) as [H|H].
  - reflexivity.
  - change emax with 1024%Z in H. lia.
Qed.

Lemma mul_half_exact (x : float) (s : bool) (m : positive) (e : Z) :
  Prim2SF x = S754_finite s m e ->
  (2 ^ 52 <= Zpos m)%Z -> (-1073 <= e)%Z ->
  Prim2SF (x * 0.5) = S754_finite s m (e - 1).
Proof.
  intros Hx Hm He. pose proof (Prim2SF_valid x) as V. rewrite Hx in V.
  pose proof V as V'. apply valid_finite_bounds in V' as [_ [Hhi _]].
  unfold SpecFloat.valid_binary, bounded in V.
  apply andb_true_iff in V as [_ Hmax]. apply Z.leb_le in Hmax.
  change (emax - prec)%Z with 971%Z in Hmax.
  rewrite mul_spec, Hx.
  change (Prim2SF 0.5) with (S754_finite false 4503599627370496 (-53)).
  unfold SF64mul. rewrite SFmul_pow2 by lia. f_equal. lia.
Qed.

Lemma mul_two_exact (x : float) (s : bool) (m : positive) (e : Z) :
  Prim2SF x = S754_finite s m e ->
  (2 ^ 52 <= Zpos m)%Z -> (e <= 970)%Z ->
  Prim2SF (x * 2) = S754_finite s m (e + 1).
Proof.
  intros Hx Hm He. pose proof (Prim2SF_valid x) as V. rewrite Hx in V.
  apply valid_finite_bounds in V as [Hlo [Hhi _]].
  rewrite mul_spec, Hx.
  change (Prim2SF 2) with (S754_finite false 4503599627370496 (-51)).
  unfold SF64mul. rewrite SFmul_pow2 by lia. f_equal. lia.
Qed.

(** A full mantissa with an exponent in range is its own rounding. *)
Lemma binary_round_aux_exact (s : bool) (m : positive) (e : Z) :
  (2 ^ 52 <= Zpos m < 2 ^ 53)%Z -> (-1074 <= e <= 971)%Z ->
  binary_round_aux prec emax s (Zpos m) e loc_Exact = S754_finite s m e.
Proof.
  intros Hm He.
  assert (Hd : Zpos (digits2_pos m) = 53%Z)
    by (apply digits2_pos_unique; exact Hm).
  unfold binary_round_aux, shr_fexp. cbn [Zdigits2]. rewrite Hd.
  unfold SpecFloat.fexp.
  change (SpecFloat.emin prec emax) with (-1074)%Z. change prec with 53%Z.
  replace (Z.max (53 + e - 53) (-1074) - e)%Z with 0%Z by lia.
  cbn [shr shr_record_of_loc shr_m loc_of_shr_record round_nearest_even
       Zdigits2].
  rewrite Hd. replace (Z.max (53 + e - 53) (-1074) - e)%Z with 0%Z by lia.
  cbn [shr shr_m]. destruct (Z.leb_spec e (emax - 53)) as [H|H].
  - reflexivity.
  - change emax with 1024%Z in H. lia.
Qed.

Lemma shl_align_snd (m : positive) (e e' : Z) :
  (e' <= e)%Z -> snd (shl_align m e e') = e'.
Proof.
  intros He. unfold shl_align.
  destruct (e' - e)%Z as [|d|d] eqn:Hd; cbn [snd]; lia.
Qed.

(** An integer below 2^53 is represented exactly, with a full mantissa. *)
Lemma of_Z_exact (z : Z) :
  (0 < z < 2 ^ 53)%Z ->
  exists m e,
    Prim2SF (of_Z z) = S754_finite false m e
    /\ (2 ^ 52 <= Zpos m < 2 ^ 53)%Z /\ (-52 <= e <= 0)%Z
    /\ Zpos m = (z * 2 ^ (- e))%Z.
Proof.
  intros Hz. unfold of_Z. destruct (Z.ltb_spec z 0); [lia|].
  rewrite of_uint63_spec. change Uint63Axioms.to_Z with Uint63.to_Z.
  rewrite Uint63.of_Z_spec, Z.mod_small
    by (change Uint63.wB with (2 ^ 63)%Z; change (2 ^ 53)%Z with 9007199254740992%Z in Hz;
        change (2 ^ 63)%Z with 9223372036854775808%Z; lia).
  destruct z as [|k|k]; try lia. cbn [binary_normalize]. unfold binary_round.
  pose proof (digits2_pos_bounds k) as [Hlo Hhi].
  set (d := Zpos (digits2_pos k)) in *.
  assert (Hd : (1 <= d <= 53)%Z).
  { split; [subst d; lia|].
    destruct (Z.le_gt_cases d 53) as [H53|H53]; [exact H53|].
    assert (2 ^ 53 <= 2 ^ (d - 1))%Z by (apply Z.pow_le_mono_r; lia). lia. }
  unfold SpecFloat.fexp.
  change (SpecFloat.emin prec emax) with (-1074)%Z. change prec with 53%Z.
  replace (Z.max (d + 0 - 53) (-1074))%Z with (d - 53)%Z by lia.
  pose proof (shl_align_value k 0 (d - 53) ltac:(lia)) as Hval.
  pose proof (shl_align_snd k 0 (d - 53) ltac:(lia)) as Hsnd.
  destruct (shl_align k 0 (d - 53)) as [mz ez]. cbn [fst snd] in *. subst ez.
  replace (0 - (d - 53))%Z with (53 - d)%Z in Hval by lia.
  assert (Hfull : (2 ^ 52 <= Zpos mz < 2 ^ 53)%Z).
  { rewrite Hval.
    replace (2 ^ 52)%Z with (2 ^ (d - 1) * 2 ^ (53 - d))%Z
      by (rewrite <- Z.pow_add_r by lia; f_equal; lia).
    replace (2 ^ 53)%Z with (2 ^ d * 2 ^ (53 - d))%Z
      by (rewrite <- Z.pow_add_r by lia; f_equal; lia).
    assert (0 < 2 ^ (53 - d))%Z by (apply Z.pow_pos_nonneg; lia).
    split; [apply Z.mul_le_mono_nonneg_r | apply Z.mul_lt_mono_pos_r]; lia. }
  exists mz, (d - 53)%Z. rewrite binary_round_aux_exact by (try exact Hfull; lia).
  split; [reflexivity|]. split; [exact Hfull|]. split; [lia|].
  rewrite Hval. f_equal. f_equal. lia.
Qed.

(** The order of two positive numbers is the order of their mantissas
    scaled to any common exponent below both. *)
Lemma SFcompare_scaled (x y : float) (mx my : positive) (ex ey c : Z) :
  Prim2SF x = S754_finite false mx ex ->
  Prim2SF y = S754_finite false my ey ->
  (c <= ex)%Z -> (c <= ey)%Z ->
  SFcompare (Prim2SF x) (Prim2SF y)
  = Some (Zpos mx * 2 ^ (ex - c) ?= Zpos my * 2 ^ (ey - c))%Z.
Proof.
  intros Hx Hy Hcx Hcy.
  pose proof (Prim2SF_valid x) as Vx. pose proof (Prim2SF_valid y) as Vy.
  rewrite Hx, Hy in *. rewrite (SFcompare_aligned mx my ex ey Vx Vy).
  rewrite !shl_align_value by lia. f_equal.
  set (ez := Z.min ex ey).
  replace (ex - c)%Z with ((ex - ez) + (ez - c))%Z by lia.
  replace (ey - c)%Z with ((ey - ez) + (ez - c))%Z by lia.
  rewrite !Z.pow_add_r, !Z.mul_assoc by lia.
  apply Zmult_compare_compat_r.
  apply Z.lt_gt, Z.pow_pos_nonneg; lia.
Qed.

Lemma ltb_scaled (x y : float) (mx my : positive) (ex ey c : Z) :
  Prim2SF x = S754_finite false mx ex ->
  Prim2SF y = S754_finite false my ey ->
  (c <= ex)%Z -> (c <= ey)%Z ->
  (x <? y) = (Zpos mx * 2 ^ (ex - c) <? Zpos my * 2 ^ (ey - c))%Z.
Proof.
  intros Hx Hy Hcx Hcy. rewrite ltb_spec. unfold SFltb, Z.ltb.
  rewrite (SFcompare_scaled x y mx my ex ey c Hx Hy Hcx Hcy).
  now destruct (_ ?= _)%Z.
Qed.

Lemma leb_scaled (x y : float) (mx my : positive) (ex ey c : Z) :
  Prim2SF x = S754_finite false mx ex ->
  Prim2SF y = S754_finite false my ey ->
  (c <= ex)%Z -> (c <= ey)%Z ->
  (x <=? y) = (Zpos mx * 2 ^ (ex - c) <=? Zpos my * 2 ^ (ey - c))%Z.
Proof.
  intros Hx Hy Hcx Hcy. rewrite leb_spec. unfold SFleb, Z.leb.
  rewrite (SFcompare_scaled x y mx my ex ey c Hx Hy Hcx Hcy).
  now destruct (_ ?= _)%Z.
Qed.

Lemma binary_round_aux_shape (m e : Z) (l : location) :
  (0 <= m)%Z -> nonneg_shape (binary_round_aux prec emax false m e l).
Proof.
  intros Hm. pose proof (binary_round_aux_not_nan false m e l Hm) as Hnan.
  unfold binary_round_aux in *.
  destruct (shr_fexp prec emax m e l) as [mrs' e'].
  destruct (shr_fexp prec emax _ e' loc_Exact) as [mrs'' e''].
  destruct (shr_m mrs''); [exact I | | congruence].
  destruct (e'' <=? emax - prec)%Z; exact I.
Qed.

Lemma of_uint63_nonneg (i : Uint63.int) : nonneg_shape (Prim2SF (of_uint63 i)).
Proof.
  rewrite of_uint63_spec. change Uint63Axioms.to_Z with Uint63.to_Z.
  pose proof (Uint63.to_Z_bounded i) as [Hlo _].
  destruct (Uint63.to_Z i) as [|p|p]; [exact I | | lia].
  cbn [binary_normalize]. unfold binary_round.
  destruct (shl_align p 0 _) as [mz ez]. apply binary_round_aux_shape. lia.
Qed.

Lemma of_nat_nonneg (k : nat) : nonneg_shape (Prim2SF (of_nat k)).
Proof.
  unfold of_nat, of_Z. destruct (Z.ltb_spec (Z.of_nat k) 0); [lia|].
  apply of_uint63_nonneg.
Qed.

Lemma SFltb_nonneg_nonpos (x y : spec_float) :
  nonneg_shape x -> SFltb (S754_zero false) y = false -> SFltb x y = false.
Proof.
  destruct x as [[]|[]| |[] mx ex]; cbn [nonneg_shape]; try tauto; intros _;
    destruct y as [sy|sy| |sy my ey]; try (destruct sy); try reflexivity;
    discriminate.
Qed.

(** Twice a negative integer is not positive. *)
Lemma twice_negative_nonpos (z : Z) :
  (z < 0)%Z -> (0 <? of_Z z * 2) = false.
Proof.
  intros Hz. unfold of_Z. destruct (Z.ltb_spec z 0); [|lia].
  rewrite ltb_spec, mul_spec, opp_spec.
  pose proof (of_uint63_nonneg (Uint63.of_Z (- z))) as Hshape.
  change (Prim2SF 0) with (S754_zero false).
  change (Prim2SF 2) with (S754_finite false 4503599627370496 (-51)).
  destruct (Prim2SF (of_uint63 (Uint63.of_Z (- z)))) as [[]|[]| |[] m e];
    cbn [nonneg_shape] in Hshape; try tauto; try reflexivity.
  cbn [SFopp negb]. unfold SF64mul. cbn [SFmul xorb].
  apply binary_round_aux_neg.
Qed.

(** ** Comparisons and sorting *)

Lemma ltb_leb (x y : float) : (x <? y) = true -> (x <=? y) = true.
Proof.
  rewrite ltb_spec, leb_spec. unfold SFltb, SFleb.
  destruct (SFcompare (Prim2SF x) (Prim2SF y)) as [[]|]; congruence.
Qed.

(** The comparator never puts two numbers each after the other. *)
Lemma sub_pos_antisym (x y : float) :
  (0 <? x - y) = true -> (0 <? y - x) = false.
Proof.
  rewrite !ltb_spec, !sub_spec.
  change (Prim2SF 0) with (S754_zero false). unfold SF64sub.
  destruct (Prim2SF x) as [sx|sx| |sx mx ex], (Prim2SF y) as [sy|sy| |sy my ey];
    try reflexivity;
    try (destruct sx; reflexivity);
    try (destruct sy; reflexivity);
    try (destruct sx, sy; vm_compute; congruence).
  unfold SFsub. rewrite (Z.min_comm ey ex).
  set (a := cond_Zopp sx _). set (b := cond_Zopp sy _).
  replace (b - a)%Z with (- (a - b))%Z by lia.
  destruct (a - b)%Z as [|p|p]; simpl Z.opp.
  - intros _. reflexivity.
  - intros _. apply binary_normalize_neg.
  - rewrite binary_normalize_neg. congruence.
Qed.

(** The sorted array is ascending for the comparator: no element is followed
    by one the comparator puts before it. *)
Lemma sort_insert_sorted (x : float) (l : list float) :
  LocallySorted cmp_le l -> LocallySorted cmp_le (sort_insert x l).
Proof.
  induction 1 as [|y|y z l Hl IH Hyz]; simpl.
  - constructor.
  - destruct (0 <? x - y) eqn:Hxy.
    + constructor; [constructor|]. now apply sub_pos_antisym.
    + constructor; [constructor|]. exact Hxy.
  - destruct (0 <? x - y) eqn:Hxy.
    + simpl in IH. destruct (0 <? x - z) eqn:Hxz.
      * now constructor.
      * constructor; [assumption|]. now apply sub_pos_antisym.
    + constructor; [now constructor|]. exact Hxy.
Qed.

Lemma sort_sorted (l : list float) : LocallySorted cmp_le (sort l).
Proof.
  induction l as [|x l IH]; simpl; [constructor|].
  now apply sort_insert_sorted.
Qed.

(** On positive finite numbers the sorted array is ascending for [<=]. *)
Lemma sort_insert_ascending (x : float) (l : list float) :
  positive_finite x -> Forall positive_finite l ->
  ascending l -> ascending (sort_insert x l).
Proof.
  intros Hx Hl Hasc. unfold ascending in *.
  induction Hasc as [|y|y z l Hsorted IH Hyz]; simpl.
  - constructor.
  - inversion_clear Hl as [|? ? Hy _].
    rewrite (sub_pos_ltb x y Hx Hy).
    destruct (y <? x) eqn:Hyx.
    + constructor; [constructor|]. now apply ltb_leb.
    + constructor; [constructor|].
      now rewrite (leb_negb_ltb x y Hx Hy), Hyx.
  - inversion_clear Hl as [|? ? Hy Hzl].
    pose proof Hzl as Hzl'. inversion_clear Hzl' as [|? ? Hz _].
    specialize (IH Hzl). simpl in IH.
    rewrite (sub_pos_ltb x y Hx Hy).
    rewrite (sub_pos_ltb x z Hx Hz) in IH |- *.
    destruct (y <? x) eqn:Hyx.
    + destruct (z <? x) eqn:Hzx.
      * now constructor.
      * constructor; [assumption|]. now apply ltb_leb.
    + constructor; [now constructor|].
      now rewrite (leb_negb_ltb x y Hx Hy), Hyx.
Qed.

Lemma sort_ascending (l : list float) :
  Forall positive_finite l -> ascending (sort l).
Proof.
  induction 1 as [|x l Hx Hl IH]; simpl; [constructor|].
  apply sort_insert_ascending; [exact Hx | | exact IH].
  rewrite Forall_forall in *. intros y Hy. apply Hl.
  now apply (Permutation_in _ (sort_perm l)).
Qed.

(** [Math.max(0, Math.min(40, h))] lies in [[0, 40]] unless [h] is NaN. *)
Lemma clamp_0_40 (h : float) :
  is_nan h = false ->
  (0 <=? Math_max 0 (Math_min 40 h)) = true
  /\ (Math_max 0 (Math_min 40 h) <=? 40) = true.
Proof.
  intros Hh. unfold Math_min.
  change (is_nan 40) with false. rewrite Hh.
  change (is_pos_zero 40) with false. rewrite andb_false_r. simpl orb.
  destruct (h <? 40) eqn:H40; unfold Math_max.
  - change (is_nan 0) with false. rewrite Hh.
    change (is_neg_zero 0) with false. rewrite andb_false_r. simpl orb.
    destruct (0 <? h) eqn:H0.
    + split; now apply ltb_leb.
    + split; reflexivity.
  - split; reflexivity.
Qed.

Lemma clamp_nan (h : float) :
  is_nan h = true -> Math_max 0 (Math_min 40 h) = nan.
Proof.
  intros Hh. unfold Math_min. rewrite Hh, orb_true_r. reflexivity.
Qed.

Lemma is_finite_sub_self (c : float) : is_finite c = true -> c - c = 0.
Proof.
  unfold is_finite, is_nan, is_infinity.
  rewrite !eqb_spec, abs_spec. intros H.
  apply Prim2SF_inj. rewrite sub_spec. unfold SF64sub.
  destruct (Prim2SF c) as [s|s| |s m e].
  - now destruct s.
  - destruct s; discriminate H.
  - discriminate H.
  - unfold SFsub. now rewrite Z.sub_diag.
Qed.

(** Zero over anything is a zero or NaN, and the quotient of two such
    values is NaN. *)
Lemma zero_quotients_NaN (a b : float) : 0 / a / (0 / b) * 100 = nan.
Proof.
  apply Prim2SF_inj. rewrite mul_spec, !div_spec.
  change (Prim2SF 0) with (S754_zero false).
  destruct (Prim2SF a) as [sa|sa| |sa ma ea], (Prim2SF b) as [sb|sb| |sb mb eb];
    try reflexivity;
    try (destruct sa; reflexivity);
    try (destruct sb; reflexivity);
    destruct sa, sb; reflexivity.
Qed.

(** ** Constant signals *)

(** Every frame of a constant signal is the constant frame. *)
Lemma frames_repeat (frameSize hopSize : nat) (c : float) (n : nat) :
  frames frameSize hopSize (repeat c n)
  = repeat (repeat c frameSize)
           (length (frame_starts n 0 frameSize hopSize n)).
Proof.
  unfold frames. rewrite repeat_length.
  assert (H : forall starts,
             Forall (fun o => (o + frameSize < n)%nat) starts ->
             map (fun i => slice (repeat c n) i (i + frameSize)) starts
             = repeat (repeat c frameSize) (length starts)).
  { induction 1 as [|o starts Ho _ IH]; simpl; [reflexivity|].
    rewrite IH. f_equal. unfold slice.
    rewrite skipn_repeat, firstn_repeat. f_equal. lia. }
  apply H. rewrite Forall_forall. intros o Ho.
  now apply frame_starts_guard in Ho.
Qed.

Lemma frame_starts_two (frameSize hopSize n : nat) :
  (0 < hopSize)%nat -> (hopSize + frameSize < n)%nat ->
  (2 <= length (frame_starts n 0 frameSize hopSize n))%nat.
Proof.
  intros Hhop Hn. destruct n as [|[|n]]; [lia | lia |].
  cbn [frame_starts].
  destruct (Nat.ltb_spec (0 + frameSize) (S (S n))); [|lia].
  destruct (Nat.ltb_spec (0 + hopSize + frameSize) (S (S n))); [|lia].
  simpl. lia.
Qed.

Lemma abs_diff_loop_zero (k : nat) : abs_diff_loop 0 (repeat 0 k) 0 = 0.
Proof. induction k as [|k IH]; simpl; [reflexivity | exact IH]. Qed.

Lemma total_abs_diff_zero (k : nat) : total_abs_diff (repeat 0 k) = 0.
Proof. destruct k; simpl; [reflexivity | apply abs_diff_loop_zero]. Qed.

Lemma sum_zero (k : nat) : sum (repeat 0 k) = 0.
Proof. unfold sum. induction k as [|k IH]; simpl; [reflexivity | exact IH]. Qed.

(** ** Formants *)

Lemma peak_scan_length (binWidth : float) (magnitudes : list float)
      (bins : list Z) (prevMag : float) (rising : bool) (fs : list float) :
  (length fs <= 3)%nat ->
  (length (peak_scan binWidth magnitudes bins prevMag rising fs) <= 4)%nat.
Proof.
  revert prevMag rising fs.
  induction bins as [|i bins IH]; intros prevMag rising fs Hfs;
    cbn [peak_scan]; [lia|].
  destruct (prevMag <? get magnitudes i); [now apply IH|].
  destruct (rising && (get magnitudes i <? prevMag)); [|now apply IH].
  destruct (Nat.leb_spec 4 (length (fs ++ [of_Z (i - 1) * binWidth]))) as [H4|H4];
    rewrite length_app in *; cbn [length] in *; [lia|].
  apply IH. rewrite length_app. cbn [length]. lia.
Qed.

Lemma spectral_peaks_length (Math : MathObject) (this : DSPProcessor)
      (samples : list float) :
  (length (spectral_peaks Math this samples) <= 4)%nat.
Proof. unfold spectral_peaks. apply peak_scan_length. simpl; lia. Qed.

Lemma pad_loop_app (rounds : nat) (fs : list float) :
  pad_loop rounds fs
  = fs ++ map (fun index => 500 + of_nat index * 1000) (seq (length fs) rounds).
Proof.
  revert fs. induction rounds as [|rounds IH]; intros fs; simpl.
  - now rewrite app_nil_r.
  - rewrite IH, <- app_assoc, length_app, Nat.add_1_r. reflexivity.
Qed.

Lemma pad_formants_app (fs : list float) :
  pad_formants fs = fs ++ default_formants (length fs).
Proof. apply pad_loop_app. Qed.

Lemma default_formants_length (count : nat) :
  length (default_formants count) = (3 - count)%nat.
Proof. unfold default_formants. now rewrite length_map, length_seq. Qed.

Lemma calculateFormants_eq (Math : MathObject) (this : DSPProcessor)
      (samples : list float) :
  let peaks := spectral_peaks Math this samples in
  calculateFormants Math this samples
  = firstn 4 (peaks ++ default_formants (length peaks)).
Proof. unfold calculateFormants. now rewrite pad_formants_app. Qed.

Lemma calculateFormants_length (Math : MathObject) (this : DSPProcessor)
      (samples : list float) :
  length (calculateFormants Math this samples)
  = Nat.max 3 (length (spectral_peaks Math this samples)).
Proof.
  rewrite calculateFormants_eq. cbv zeta.
  pose proof (spectral_peaks_length Math this samples) as H4.
  rewrite length_firstn, length_app, default_formants_length. lia.
Qed.

(** The scan keeps the first four of the bins where the spectrum falls
    after a rise, each as the frequency of the bin before. *)
Lemma peak_scan_first_four (binWidth : float) (magnitudes : list float)
      (bins : list Z) (prevMag : float) (rising : bool) (fs : list float) :
  (length fs < 4)%nat ->
  peak_scan binWidth magnitudes bins prevMag rising fs
  = firstn 4 (fs ++ map (fun i => of_Z (i - 1) * binWidth)
                        (rise_then_fall magnitudes bins prevMag rising)).
Proof.
  revert prevMag rising fs.
  induction bins as [|i bins IH]; intros prevMag rising fs Hfs.
  - cbn [peak_scan rise_then_fall map]. rewrite app_nil_r.
    symmetry. apply firstn_all2. lia.
  - cbn [peak_scan rise_then_fall]. cbv zeta.
    destruct (prevMag <? get magnitudes i); [now apply IH|].
    destruct (rising && (get magnitudes i <? prevMag)); [|now apply IH].
    cbn [map].
    replace (fs ++ of_Z (i - 1) * binWidth
                :: map (fun i0 => of_Z (i0 - 1) * binWidth)
                     (rise_then_fall magnitudes bins (get magnitudes i) false))
      with ((fs ++ [of_Z (i - 1) * binWidth])
              ++ map (fun i0 => of_Z (i0 - 1) * binWidth)
                   (rise_then_fall magnitudes bins (get magnitudes i) false))
      by (rewrite <- app_assoc; reflexivity).
    destruct (Nat.leb_spec 4 (length (fs ++ [of_Z (i - 1) * binWidth]))) as [H4|H4].
    + rewrite firstn_app.
      assert (Hlen : length (fs ++ [of_Z (i - 1) * binWidth]) = 4%nat)
        by (rewrite length_app in *; cbn [length] in *; lia).
      rewrite Hlen, Nat.sub_diag, firstn_O, app_nil_r.
      symmetry. apply firstn_all2. lia.
    + now apply IH.
Qed.

(** C2, amended.  The formants returned by [extractFeatures] are the
    detected peaks, in the order of the scan, followed by the padding: the
    peaks are the first four bins at which the spectrum falls after a rise,
    each as the frequency of the bin before; there are as many formants as
    peaks and never fewer than three, so three or four, and four only with
    four peaks; an entry at an index from the number of peaks up to 2 is the
    padding value [500 + 1000 * index]. *)
Theorem formants_length (Math : MathObject) (this : DSPProcessor)
        (audioBuffer : AudioBuffer) :
  let samples := channelData audioBuffer in
  let peaks := spectral_peaks Math this samples in
  let result := formants (extractFeatures Math this audioBuffer) in
  let frame := slice samples 0 (Nat.min 2048 (length samples)) in
  let magnitudes :=
    map (fun c => PrimFloat.sqrt (fst c * fst c + snd c * snd c))
        (fft Math frame) in
  let binWidth := sampleRate this / of_nat 2048 in
  let bins :=
    counters (Math_floor (200 / binWidth))
             (Math_min (Math_floor (4000 / binWidth))
                       (of_nat (length magnitudes) / 2))
             (length magnitudes) in
  (length peaks <= 4)%nat
  /\ length result = Nat.max 3 (length peaks)
  /\ (length result = 3%nat \/ length result = 4%nat)
  /\ (forall index, (length peaks <= index < 3)%nat ->
        nth index result nan = 500 + of_nat index * 1000)
  /\ result = peaks ++ default_formants (length peaks)
  /\ (forall index, (index < length peaks)%nat ->
        nth index result nan = nth index peaks nan)
  /\ (length result = 4%nat <-> length peaks = 4%nat)
  /\ peaks = firstn 4 (map (fun i => of_Z (i - 1) * binWidth)
                           (rise_then_fall magnitudes bins 0 false)).
Proof.
  cbv zeta. change (formants (extractFeatures Math this audioBuffer))
    with (calculateFormants Math this (channelData audioBuffer)).
  set (samples := channelData audioBuffer).
  pose proof (spectral_peaks_length Math this samples) as H4.
  pose proof (calculateFormants_length Math this samples) as Hlen.
  assert (Heq : calculateFormants Math this samples
                = spectral_peaks Math this samples
                  ++ default_formants (length (spectral_peaks Math this samples))).
  { rewrite calculateFormants_eq. cbv zeta.
    apply firstn_all2. rewrite length_app, default_formants_length. lia. }
  split; [assumption|]. split; [assumption|]. split; [lia|]. split.
  { intros index [Hlo Hhi]. rewrite Heq.
    rewrite app_nth2 by lia. unfold default_formants.
    rewrite nth_map_seq by lia.
    now replace (length (spectral_peaks Math this samples)
                 + (index - length (spectral_peaks Math this samples)))%nat
      with index by lia. }
  split; [exact Heq|]. split.
  { intros index Hlt. rewrite Heq. now apply app_nth1. }
  split; [lia|].
  unfold spectral_peaks. cbv zeta.
  now rewrite peak_scan_first_four by (cbn [length]; lia).
Qed.

Lemma formants_length_witness :
  spectral_peaks coarse_Math rate_409600 tick = [400]
  /\ formants (extractFeatures coarse_Math rate_409600 (recording tick 0))
     = [400; 1500; 2500].
Proof.
  pose proof (formants_length coarse_Math rate_409600 (recording tick 0))
    as [_ [_ [_ [_ [Heq _]]]]].
  cbv zeta in Heq. cbn [channelData recording] in Heq.
  assert (Hpeaks : spectral_peaks coarse_Math rate_409600 tick = [400])
    by (vm_compute; reflexivity).
  split; [exact Hpeaks|]. rewrite Heq, Hpeaks. reflexivity.
Defined.

(** The claim C2 fails on silence: no peak, three formants. *)
Lemma formants_length_counterexample :
  formants (extractFeatures coarse_Math rate_48000 (recording (silence 256) 0))
  = [500; 1500; 2500]
  /\ length (formants (extractFeatures coarse_Math rate_48000
                         (recording (silence 256) 0))) = 3%nat.
Proof. vm_compute. split; reflexivity. Qed.

(** C8.  When fewer than three peaks are found the list is completed up to
    three entries with [500 + 1000 * (current count)], so no peak at all
    gives [[500; 1500; 2500]]; and the result never has more than four
    entries. *)
Theorem formants_padding (Math : MathObject) (this : DSPProcessor)
        (audioBuffer : AudioBuffer) :
  let peaks := spectral_peaks Math this (channelData audioBuffer) in
  let result := formants (extractFeatures Math this audioBuffer) in
  result = slice (pad_formants peaks) 0 4
  /\ pad_formants peaks = peaks ++ default_formants (length peaks)
  /\ ((length peaks < 3)%nat ->
        result = peaks ++ default_formants (length peaks)
        /\ length result = 3%nat)
  /\ (peaks = [] -> result = [500; 1500; 2500])
  /\ (length result <= 4)%nat.
Proof.
  cbv zeta. change (formants (extractFeatures Math this audioBuffer))
    with (calculateFormants Math this (channelData audioBuffer)).
  set (samples := channelData audioBuffer).
  pose proof (calculateFormants_length Math this samples) as Hlen.
  pose proof (spectral_peaks_length Math this samples) as H4.
  split; [reflexivity|]. split; [apply pad_formants_app|].
  split; [|split].
  - intros H3. split; [|lia].
    rewrite calculateFormants_eq. cbv zeta.
    apply firstn_all2. rewrite length_app, default_formants_length. lia.
  - intros Hnil. rewrite calculateFormants_eq. cbv zeta. rewrite Hnil.
    reflexivity.
  - lia.
Qed.

(** ** Pitch *)

Lemma calculatePitch_eq (this : DSPProcessor) (samples : list float) :
  calculatePitch this samples
  = match frame_pitches this samples with
    | [] => 150
    | _ :: _ => median (frame_pitches this samples)
    end.
Proof.
  unfold calculatePitch. now destruct (frame_pitches this samples).
Qed.

(** C5, amended.  The pitch is 150 when no estimate is retained, and
    otherwise the element at position [floor (n / 2)] of the retained
    estimates sorted in ascending order; an estimate is retained when it
    lies strictly between 50 and 500.  A buffer of at most 2048 samples
    retains none. *)
Theorem calculatePitch_median (this : DSPProcessor) (samples : list float) :
  let retained := filter plausible (frame_estimates this samples) in
  calculatePitch this samples
  = match retained with [] => 150 | _ :: _ => median retained end
  /\ median retained = nth (length retained / 2) (sort retained) nan
  /\ Permutation (sort retained) retained
  /\ ascending (sort retained)
  /\ LocallySorted cmp_le (sort retained)
  /\ (retained <> [] -> In (calculatePitch this samples) retained)
  /\ ((length samples <= 2048)%nat -> retained = []).
Proof.
  cbv zeta. rewrite calculatePitch_eq, frame_pitches_filter.
  split; [reflexivity|]. split; [reflexivity|].
  split; [apply sort_perm|]. split; [|split; [apply sort_sorted|split]].
  - apply sort_ascending. rewrite Forall_forall. intros p Hp.
    apply filter_In in Hp. now apply plausible_positive.
  - intros Hne. destruct (filter plausible _) as [|p l] eqn:E; [congruence|].
    apply median_In. congruence.
  - intros Hlen. unfold frame_estimates. now rewrite frames_short.
Qed.

Lemma calculatePitch_median_witness :
  filter plausible (frame_estimates rate_44100 (square_tone 100 11)) = [220.5]
  /\ calculatePitch rate_44100 (square_tone 100 11) = 220.5
  /\ In (calculatePitch rate_44100 (square_tone 100 11))
        (filter plausible (frame_estimates rate_44100 (square_tone 100 11))).
Proof.
  assert (E : filter plausible (frame_estimates rate_44100 (square_tone 100 11))
              = [220.5]) by (vm_compute; reflexivity).
  pose proof (calculatePitch_median rate_44100 (square_tone 100 11))
    as [Hp [_ [_ [_ [_ [Hin _]]]]]].
  rewrite E in Hp, Hin. split; [exact E|]. split.
  - rewrite Hp. vm_compute. reflexivity.
  - rewrite E. apply Hin. discriminate.
Defined.

(** The claim as worded keeps an estimate of exactly 500 Hz; the code drops
    it.  At 48 kHz a silent frame is estimated at [48000 / 96 = 500]. *)
Lemma calculatePitch_counterexample :
  frame_estimates rate_48000 (silence 2049) = [500]
  /\ spec_pitch rate_48000 (silence 2049) = 500
  /\ calculatePitch rate_48000 (silence 2049) = 150.
Proof. vm_compute. repeat split; reflexivity. Qed.

(** C9.  The pitch is the default 150 or one of the retained estimates, and
    then it lies strictly between 50 and 500. *)
Theorem pitch_default_or_in_range (this : DSPProcessor) (samples : list float) :
  let p := calculatePitch this samples in
  (frame_pitches this samples = [] /\ p = 150)
  \/ (In p (frame_pitches this samples)
      /\ (50 <? p) = true /\ (p <? 500) = true).
Proof.
  cbv zeta. rewrite calculatePitch_eq.
  destruct (frame_pitches this samples) as [|q l] eqn:E; [now left | right].
  assert (Hin : In (median (q :: l)) (q :: l)) by (apply median_In; congruence).
  split; [exact Hin|].
  pose proof (frame_pitches_plausible this samples) as Hall.
  rewrite E, Forall_forall in Hall. specialize (Hall _ Hin).
  now apply andb_true_iff in Hall.
Qed.

Lemma pitch_default_or_in_range_witness :
  (50 <? calculatePitch rate_44100 (square_tone 100 11)) = true
  /\ (calculatePitch rate_44100 (square_tone 100 11) <? 500) = true.
Proof.
  destruct (pitch_default_or_in_range rate_44100 (square_tone 100 11))
    as [[Hnone _] | [_ Hrange]].
  - vm_compute in Hnone. discriminate Hnone.
  - exact Hrange.
Defined.

(** C10.  A buffer of at most 2048 samples, one of exactly 2048 included,
    gives the framing loop no frame, so the pitch is 150 and the pitch
    variation 10. *)
Theorem short_buffer_defaults (Math : MathObject) (this : DSPProcessor)
        (samples : list float) :
  (length samples <= 2048)%nat ->
  frames 2048 512 samples = []
  /\ calculatePitch this samples = 150
  /\ calculatePitchVariation Math this samples = 10.
Proof.
  intros Hlen. pose proof (frames_short 2048 512 samples Hlen) as Hf.
  split; [exact Hf|].
  unfold calculatePitch, calculatePitchVariation, frame_pitches.
  rewrite Hf. split; reflexivity.
Qed.

Lemma short_buffer_defaults_witness :
  (length (square_wave 1024) <= 2048)%nat
  /\ frames 2048 512 (square_wave 1024) = []
  /\ calculatePitch rate_44100 (square_wave 1024) = 150
  /\ calculatePitchVariation coarse_Math rate_44100 (square_wave 1024) = 10.
Proof.
  assert (H : (length (square_wave 1024) <= 2048)%nat)
    by (apply Nat.leb_le; vm_compute; reflexivity).
  split; [exact H|].
  exact (short_buffer_defaults coarse_Math rate_44100 (square_wave 1024) H).
Defined.

(** A silent frame is estimated at the smallest lag: 44100 / 88 Hz and
    48000 / 96 Hz, neither of which is below 500. *)
Lemma autocorrelationPitch_silence :
  autocorrelationPitch rate_44100 (repeat 0 2048) = 44100 / 88
  /\ autocorrelationPitch rate_48000 (repeat 0 2048) = 500.
Proof. split; vm_compute; reflexivity. Qed.

Lemma frame_pitches_silence (n : nat) :
  frame_pitches rate_44100 (silence n) = []
  /\ frame_pitches rate_48000 (silence n) = [].
Proof.
  destruct autocorrelationPitch_silence as [H44 H48].
  rewrite !frame_pitches_filter. unfold frame_estimates, silence.
  rewrite frames_repeat, !map_repeat, H44, H48.
  split; now apply filter_repeat_false.
Qed.

(** ** Harmonics-to-noise ratio *)

(** A frame of one finite value has no first-difference energy. *)
Lemma diff_power_loop_constant (c : float) (k : nat) :
  c - c = 0 -> diff_power_loop c (repeat c k) 0 = 0.
Proof.
  intros Hc. induction k as [|k IH]; simpl; [reflexivity|].
  rewrite Hc. exact IH.
Qed.

Lemma noisePower_constant (c : float) :
  is_finite c = true -> noisePower (repeat c 2048) = 0.
Proof.
  intros Hc. apply is_finite_sub_self in Hc. unfold noisePower.
  rewrite repeat_length.
  change (repeat c 2048) with (c :: repeat c 2047). cbv beta iota.
  now rewrite diff_power_loop_constant.
Qed.

Lemma totalNoisePower_constant_frames (samples : list float) :
  Forall constant_frame (frames 2048 2048 samples) ->
  totalNoisePower samples = 0.
Proof.
  unfold totalNoisePower.
  pose proof (frames_length 2048 2048 samples) as Hlen.
  induction (frames 2048 2048 samples) as [|frame fs IH]; intros Hall;
    simpl; [reflexivity|].
  inversion_clear Hall as [|? ? [c [Hc Hframe]] Hfs].
  rewrite (Hlen frame) in Hframe by now left.
  rewrite Hframe, noisePower_constant by exact Hc.
  apply IH; [|exact Hfs]. intros f Hf. apply Hlen. now right.
Qed.

Lemma totalNoisePower_silence (n : nat) : totalNoisePower (silence n) = 0.
Proof.
  apply totalNoisePower_constant_frames. unfold silence.
  rewrite frames_repeat. apply Forall_forall. intros frame Hin.
  apply repeat_spec in Hin. subst frame. exists 0.
  split; [reflexivity | now rewrite repeat_length].
Qed.

(** ** Jitter *)

(** The candidate periods still to come when the loop stands at a position
    with [lastCrossing] recorded ([0]: none so far). *)
Lemma crossing_loop_gaps (periodSamples prev : float) (rest : list float)
      (i lastCrossing : nat) (periods : list float) :
  (1 <= i)%nat ->
  crossing_loop periodSamples prev rest i lastCrossing periods
  = periods
    ++ filter (in_window periodSamples)
         (map of_nat
            (match lastCrossing with
             | O => gaps (rising_crossings prev rest i)
             | S _ => gaps (lastCrossing :: rising_crossings prev rest i)
             end)).
Proof.
  revert prev i lastCrossing periods.
  induction rest as [|cur rest IH]; intros prev i lastCrossing periods Hi;
    cbn [crossing_loop rising_crossings].
  - destruct lastCrossing; simpl; now rewrite app_nil_r.
  - destruct ((prev <=? 0) && (0 <? cur)).
    + rewrite IH by lia. destruct i as [|i']; [lia|].
      destruct lastCrossing as [|last'].
      * reflexivity.
      * cbn [Nat.ltb Nat.leb gaps map filter].
        destruct (rising_crossings cur rest (S (S i'))) as [|c cs];
          destruct (in_window periodSamples (of_nat (S i' - S last')));
          cbn [gaps map filter]; rewrite <- ?app_assoc; reflexivity.
    + now rewrite IH by lia.
Qed.

Lemma jitter_periods_accepted (this : DSPProcessor) (samples : list float)
      (fundamentalFreq : float) :
  jitter_periods this samples fundamentalFreq
  = accepted_periods this samples fundamentalFreq.
Proof.
  unfold jitter_periods, accepted_periods, zero_crossings.
  destruct samples as [|s0 rest]; [reflexivity|].
  now rewrite crossing_loop_gaps by lia.
Qed.

Lemma in_window_closed (periodSamples period : float) :
  in_window periodSamples period = true ->
  (periodSamples * 0.5 <=? period) = true
  /\ (period <=? periodSamples * 2) = true.
Proof.
  unfold in_window. rewrite andb_true_iff. intros [H1 H2].
  split; now apply ltb_leb.
Qed.

Lemma pow2_split (a b : Z) :
  (0 <= a)%Z -> (0 <= b)%Z -> (2 ^ (a + b) = 2 ^ a * 2 ^ b)%Z.
Proof. intros. apply Z.pow_add_r; lia. Qed.

(** Rounding to the nearest integer, in exact arithmetic: an integer
    strictly between half and twice the rounded value lies between half and
    twice the value itself. *)
Lemma round_window (m h z k : Z) :
  (0 < h)%Z -> z = ((m + h) / (2 * h))%Z ->
  (z < 2 * k)%Z -> (k < 2 * z)%Z ->
  (m <= 2 * k * (2 * h))%Z /\ (k * (2 * h) <= 2 * m)%Z.
Proof.
  intros Hh Hz H1 H2.
  pose proof (Z.mul_div_le (m + h) (2 * h) ltac:(lia)) as Hlo.
  pose proof (Z.mul_succ_div_gt (m + h) (2 * h) ltac:(lia)) as Hhi.
  rewrite <- Hz in Hlo, Hhi. nia.
Qed.

(** The heart of the window test: around a rounded period [z > 0]. *)
Lemma window_positive (E : float) (m : positive) (e : Z) (k : nat) :
  Prim2SF E = S754_finite false m e -> (e < 0)%Z ->
  (0 < Z.shiftr (Zpos m + 2 ^ (- e - 1)) (- e))%Z ->
  (Z.of_nat k < 2 ^ 53)%Z ->
  in_window (of_Z (Z.shiftr (Zpos m + 2 ^ (- e - 1)) (- e))) (of_nat k) = true ->
  (E * 0.5 <=? of_nat k) = true /\ (of_nat k <=? E * 2) = true.
Proof.
  intros HE He Hz Hk.
  pose proof (Prim2SF_valid E) as V. rewrite HE in V.
  apply valid_finite_bounds in V as [Hemin [Hmhi Hmlo]].
  set (j := (- e)%Z) in *. replace (- e - 1)%Z with (j - 1)%Z in * by lia.
  assert (Hj : (1 <= j)%Z) by lia.
  set (h := (2 ^ (j - 1))%Z) in *.
  assert (Hh : (0 < h)%Z) by (apply Z.pow_pos_nonneg; lia).
  assert (H2h : (2 ^ j = 2 * h)%Z).
  { subst h. replace j with (1 + (j - 1))%Z at 1 by lia.
    rewrite pow2_split by lia. reflexivity. }
  rewrite Z.shiftr_div_pow2, H2h in * by lia.
  set (z := ((Zpos m + h) / (2 * h))%Z) in *.
  pose proof (Z.mul_div_le (Zpos m + h) (2 * h) ltac:(lia)) as Hzlo.
  pose proof (Z.mul_succ_div_gt (Zpos m + h) (2 * h) ltac:(lia)) as Hzhi.
  fold z in Hzlo, Hzhi.
  assert (Hj53 : (j <= 53)%Z).
  { destruct (Z.le_gt_cases j 53) as [H|H]; [exact H|].
    assert (2 ^ 53 <= h)%Z by (apply Z.pow_le_mono_r; lia). nia. }
  assert (Hz53 : (z < 2 ^ 53)%Z).
  { apply Z.div_lt_upper_bound; [lia|]. nia. }
  specialize (Hmlo ltac:(lia)).
  destruct (of_Z_exact z ltac:(lia)) as [mP [eP [HP [HmP [HeP HvP]]]]].
  pose proof (mul_half_exact _ _ _ _ HP ltac:(lia) ltac:(lia)) as HPhalf.
  pose proof (mul_two_exact _ _ _ _ HP ltac:(lia) ltac:(lia)) as HPtwo.
  pose proof (mul_half_exact _ _ _ _ HE ltac:(lia) ltac:(lia)) as HEhalf.
  pose proof (mul_two_exact _ _ _ _ HE ltac:(lia) ltac:(lia)) as HEtwo.
  unfold in_window. rewrite andb_true_iff. intros [Hlow Hhigh].
  destruct k as [|k'].
  { exfalso. rewrite ltb_spec, HPhalf in Hlow. discriminate Hlow. }
  set (k := S k') in *. unfold of_nat in *.
  destruct (of_Z_exact (Z.of_nat k) ltac:(lia)) as [mk [ek [Hp [Hmk [Hek Hvk]]]]].
  rewrite (ltb_scaled _ _ _ _ _ _ (-60) HPhalf Hp) in Hlow by lia.
  rewrite (ltb_scaled _ _ _ _ _ _ (-60) Hp HPtwo) in Hhigh by lia.
  rewrite (leb_scaled _ _ _ _ _ _ (-60) HEhalf Hp) by lia.
  rewrite (leb_scaled _ _ _ _ _ _ (-60) Hp HEtwo) by lia.
  apply Z.ltb_lt in Hlow, Hhigh. rewrite !Z.leb_le.
  rewrite HvP, Hvk in *. rewrite <- !Z.mul_assoc, <- !pow2_split in * by lia.
  replace (- eP + (eP - 1 - -60))%Z with 59%Z in * by lia.
  replace (- eP + (eP + 1 - -60))%Z with 61%Z in * by lia.
  replace (- ek + (ek - -60))%Z with 60%Z in * by lia.
  change (2 ^ 60)%Z with (2 * 2 ^ 59)%Z in *.
  change (2 ^ 61)%Z with (4 * 2 ^ 59)%Z in *.
  assert (Hwin : (z < 2 * Z.of_nat k)%Z /\ (Z.of_nat k < 2 * z)%Z) by lia.
  destruct Hwin as [Hw1 Hw2].
  destruct (round_window (Zpos m) h z (Z.of_nat k) Hh eq_refl Hw1 Hw2)
    as [Hr1 Hr2].
  set (U := (2 ^ (59 - j))%Z).
  assert (HU : (0 < U)%Z) by (apply Z.pow_pos_nonneg; lia).
  assert (H59 : (2 ^ 59 = U * (2 * h))%Z).
  { rewrite <- H2h. unfold U. rewrite <- pow2_split by lia. f_equal. lia. }
  replace (e - 1 - -60)%Z with (59 - j)%Z by lia.
  replace (e + 1 - -60)%Z with (2 + (59 - j))%Z by lia.
  rewrite (pow2_split 2) by lia. fold U. change (2 ^ 2)%Z with 4%Z.
  rewrite H59. split; nia.
Qed.

(** No number lies strictly between a zero and a zero. *)
Lemma zero_window_empty (s : bool) (p : float) :
  in_window (if s then (-0) else 0) p = false.
Proof.
  unfold in_window. rewrite !ltb_spec.
  destruct s.
  - change (Prim2SF (-0 * 0.5)) with (S754_zero true).
    change (Prim2SF (-0 * 2)) with (S754_zero true).
    destruct (Prim2SF p) as [sp|sp| |sp mp ep]; try destruct sp; reflexivity.
  - change (Prim2SF (0 * 0.5)) with (S754_zero false).
    change (Prim2SF (0 * 2)) with (S754_zero false).
    destruct (Prim2SF p) as [sp|sp| |sp mp ep]; try destruct sp; reflexivity.
Qed.

(** The window test around the rounded period keeps a whole number of
    samples only if it lies between half and twice the period itself. *)
Lemma window_unrounded (E : float) (k : nat) :
  (Z.of_nat k < 2 ^ 53)%Z ->
  in_window (Math_round E) (of_nat k) = true ->
  (E * 0.5 <=? of_nat k) = true /\ (of_nat k <=? E * 2) = true.
Proof.
  intros Hk. unfold Math_round.
  destruct (Prim2SF E) as [s|s| |s m e] eqn:HE;
    try (apply in_window_closed).
  destruct (Z.leb_spec 0 e) as [He|He]; [apply in_window_closed|].
  destruct (Z.eqb_spec (Z.shiftr (cond_Zopp s (Zpos m) + 2 ^ (- e - 1)) (- e)) 0)
    as [Hz|Hz].
  { rewrite zero_window_empty. discriminate. }
  destruct s; cbn [cond_Zopp] in *.
  - (* a negative period *)
    set (z := Z.shiftr _ _) in *.
    assert (Hneg : (z < 0)%Z).
    { assert (z <= 0)%Z; [|lia]. subst z.
      rewrite Z.shiftr_div_pow2 by lia.
      assert (Hh : (0 < 2 ^ (- e - 1))%Z) by (apply Z.pow_pos_nonneg; lia).
      assert (H2 : (2 ^ (- e) = 2 * 2 ^ (- e - 1))%Z).
      { replace (- e)%Z with (1 + (- e - 1))%Z at 1 by lia.
        rewrite pow2_split by lia. reflexivity. }
      rewrite H2. apply Z.lt_succ_r, Z.div_lt_upper_bound; lia. }
    unfold in_window. rewrite andb_true_iff. intros [_ Hhigh].
    exfalso. rewrite ltb_spec in Hhigh.
    pose proof (twice_negative_nonpos z Hneg) as Hnp. rewrite ltb_spec in Hnp.
    rewrite (SFltb_nonneg_nonpos _ _ (of_nat_nonneg k) Hnp) in Hhigh.
    discriminate.
  - (* a positive period *)
    apply window_positive; try assumption.
    set (z := Z.shiftr _ _) in *.
    assert (0 <= z)%Z; [|lia]. subst z. apply Z.shiftr_nonneg.
    assert (0 < 2 ^ (- e - 1))%Z by (apply Z.pow_pos_nonneg; lia). lia.
Qed.

(** Crossings are positions of the buffer, and so are their distances. *)
Lemma rising_crossings_bound (prev : float) (rest : list float) (i : nat) :
  Forall (fun c => (c < i + length rest)%nat) (rising_crossings prev rest i).
Proof.
  revert prev i. induction rest as [|cur rest IH]; intros prev i; simpl.
  - constructor.
  - specialize (IH cur (S i)).
    assert (H : Forall (fun c => (c < i + S (length rest))%nat)
                       (rising_crossings cur rest (S i))).
    { eapply Forall_impl; [|exact IH]. simpl. intros c Hc. lia. }
    destruct ((prev <=? 0) && (0 <? cur)); [constructor; [lia|]|]; exact H.
Qed.

Lemma zero_crossings_bound (samples : list float) :
  Forall (fun c => (c < length samples)%nat) (zero_crossings samples).
Proof.
  destruct samples as [|s0 rest]; simpl; [constructor|].
  apply (rising_crossings_bound s0 rest 1).
Qed.

Lemma gaps_bound (n : nat) (crossings : list nat) :
  Forall (fun c => (c < n)%nat) crossings ->
  Forall (fun g => (g < n)%nat) (gaps crossings).
Proof.
  induction crossings as [|a [|b rest] IH]; intros Hall; simpl;
    try constructor.
  - inversion_clear Hall as [|? ? _ Hrest].
    inversion_clear Hrest as [|? ? Hb _]. lia.
  - apply IH. now inversion_clear Hall.
Qed.

(** C6.  The periods the loop accepts are the distances between consecutive
    rising zero crossings that pass the window test around the expected
    period in whole samples; each of them lies within [[0.5, 2]] times that
    rounded period and, for a buffer of fewer than 2^53 samples, within
    [[0.5, 2]] times [sampleRate / pitch] itself.  With fewer than two of
    them the jitter is 0.5, and otherwise it is their mean absolute
    consecutive difference over their mean, times 100. *)
Theorem calculateJitter_periods (this : DSPProcessor) (samples : list float)
        (fundamentalFreq : float) :
  let period := sampleRate this / fundamentalFreq in
  let candidates := map of_nat (gaps (zero_crossings samples)) in
  let accepted := jitter_periods this samples fundamentalFreq in
  let result := calculateJitter this samples fundamentalFreq in
  accepted = filter (in_window (Math_round period)) candidates
  /\ Forall (fun p => (Math_round period * 0.5 <=? p) = true
                      /\ (p <=? Math_round period * 2) = true) accepted
  /\ ((Z.of_nat (length samples) < 2 ^ 53)%Z ->
        Forall (fun p => (period * 0.5 <=? p) = true
                         /\ (p <=? period * 2) = true) accepted)
  /\ ((length accepted < 2)%nat -> result = 0.5)
  /\ ((2 <= length accepted)%nat -> result = relative_perturbation accepted).
Proof.
  cbv zeta. split; [apply jitter_periods_accepted|]. split; [|split].
  - rewrite jitter_periods_accepted. unfold accepted_periods.
    rewrite Forall_forall. intros p Hp. apply filter_In in Hp.
    now apply in_window_closed.
  - intros Hlen. rewrite jitter_periods_accepted. unfold accepted_periods.
    rewrite Forall_forall. intros p Hp.
    apply filter_In in Hp as [Hin Hwin].
    apply in_map_iff in Hin as [g [<- Hg]].
    pose proof (gaps_bound _ _ (zero_crossings_bound samples)) as Hbound.
    rewrite Forall_forall in Hbound. specialize (Hbound g Hg).
    apply window_unrounded; [lia | exact Hwin].
  - unfold calculateJitter, relative_perturbation. split; intros Hlen.
    + apply Nat.ltb_lt in Hlen. now rewrite Hlen.
    + apply Nat.ltb_ge in Hlen. now rewrite Hlen.
Qed.

Lemma calculateJitter_periods_witness :
  jitter_periods rate_48000 (pulse_train 300 2 ++ pulse_train 330 2) 150
  = [300; 330]
  /\ Forall (fun p => (48000 / 150 * 0.5 <=? p) = true
                      /\ (p <=? 48000 / 150 * 2) = true) [300; 330]
  /\ calculateJitter rate_48000 (pulse_train 300 2 ++ pulse_train 330 2) 150
     = (30 / 1) / (630 / 2) * 100.
Proof.
  pose proof (calculateJitter_periods rate_48000
                (pulse_train 300 2 ++ pulse_train 330 2) 150)
    as [_ [_ [Hwindow [_ Hvalue]]]].
  assert (E : jitter_periods rate_48000
                (pulse_train 300 2 ++ pulse_train 330 2) 150 = [300; 330])
    by (vm_compute; reflexivity).
  rewrite E in Hwindow, Hvalue. split; [exact E|]. split.
  - apply Hwindow. vm_compute. reflexivity.
  - rewrite Hvalue by (simpl; lia). vm_compute. reflexivity.
Defined.

(** The test of the loop is strict: at 48 kHz and 480 Hz the expected period
    is 100 samples, and crossings exactly 200 samples apart are not
    accepted. *)
Lemma calculateJitter_boundary :
  map of_nat (gaps (zero_crossings (pulse_train 200 4))) = [200; 200]
  /\ jitter_periods rate_48000 (pulse_train 200 4) 480 = []
  /\ calculateJitter rate_48000 (pulse_train 200 4) 480 = 0.5.
Proof. repeat split; vm_compute; reflexivity. Qed.

Lemma rising_crossings_silence (k i : nat) :
  rising_crossings 0 (repeat 0 k) i = [].
Proof.
  revert i. induction k as [|k IH]; intros i; simpl; [reflexivity | apply IH].
Qed.

Lemma calculateJitter_silence (this : DSPProcessor) (n : nat)
      (fundamentalFreq : float) :
  calculateJitter this (silence n) fundamentalFreq = 0.5.
Proof.
  unfold calculateJitter.
  rewrite jitter_periods_accepted. unfold accepted_periods, zero_crossings, silence.
  destruct n as [|n]; simpl; [reflexivity|].
  now rewrite rising_crossings_silence.
Qed.

(** ** Shimmer *)

(** The shimmer of silence is NaN as soon as there are two frames. *)
Lemma calculateShimmer_silence (k : nat) :
  calculateShimmer (silence (1025 + k)) = nan.
Proof.
  unfold calculateShimmer, silence. rewrite frames_repeat, map_repeat.
  change (frame_peak (repeat 0 512)) with 0.
  pose proof (frame_starts_two 512 512 (1025 + k) ltac:(lia) ltac:(lia)) as H2.
  set (count := length _) in *. rewrite repeat_length.
  destruct (Nat.ltb_spec count 2); [lia|].
  rewrite total_abs_diff_zero, sum_zero. apply zero_quotients_NaN.
Qed.

(** ** The whole extractor *)

Lemma calculateAmplitude_silence (n : nat) :
  calculateAmplitude (silence n) = PrimFloat.sqrt (0 / of_nat n).
Proof.
  unfold calculateAmplitude, silence. rewrite repeat_length. do 2 f_equal.
  induction n as [|n IH]; simpl; [reflexivity | exact IH].
Qed.

Lemma calculateAmplitude_silence_zero (n : nat) :
  (0 < Z.of_nat n < 2 ^ 63)%Z -> calculateAmplitude (silence n) = 0.
Proof.
  intros Hn. now rewrite calculateAmplitude_silence, zero_div_of_nat.
Qed.

(** ** The extractor among its effects *)





(** The state-passing [getDSPProcessor] above is this computation, with
    the processor a new audio context would give at that moment. *)
Lemma run_getDSPProcessor_call {W : Type} (answer : World W)
      (dspProcessor : option DSPProcessor) (w : W) :
  fst (run answer (getDSPProcessor_call dspProcessor) w)
  = getDSPProcessor {| sampleRate := fst (answer _ new_AudioContext w) |}
                    dspProcessor.
Proof.
  destruct dspProcessor as [p|]; [reflexivity|].
  unfold getDSPProcessor_call, new_DSPProcessor, await. cbn [bind run].
  destruct (answer _ new_AudioContext w) as [rate w1]. reflexivity.
Qed.

(** The mock predictor asks for two random numbers. *)
Lemma generateMockPrediction_draws {W : Type} (answer : World W)
      (Math_exp : float -> float) (features : VoiceFeatures) (w : W) :
  requests answer (generateMockPrediction_call Math_exp features) w
  = [existT _ _ Math_random; existT _ _ Math_random].
Proof.
  unfold generateMockPrediction_call, await. cbn [bind requests].
  destruct (answer _ Math_random w) as [random1 w1].
  destruct (answer _ Math_random w1) as [random2 w2]. reflexivity.
Qed.

(** And it is not repeatable: the draws show in the result. *)
Lemma generateMockPrediction_varies :
  (mlService.confidence
     (fst (run (counting_world []) (generateMockPrediction_call coarse_exp
                                      (fallback_features 0)) 0%nat))
   =? mlService.confidence
        (fst (run (counting_world []) (generateMockPrediction_call coarse_exp
                                         (fallback_features 0)) 2%nat)))
  = false.
Proof. vm_compute. reflexivity. Qed.



(** ** Whole recordings *)

(** A square tone of 220.5 Hz at 44.1 kHz: the pitch is found, and jitter
    and shimmer vanish. *)
Lemma tone_features :
  calculatePitch rate_44100 (square_tone 100 11) = 220.5
  /\ calculateJitter rate_44100 (square_tone 100 11) 220.5 = 0
  /\ calculateShimmer (square_tone 100 11) = 0
  /\ calculateAmplitude (square_tone 100 11) = 0.5.
Proof. repeat split; vm_compute; reflexivity. Qed.

(** C1: on every silent buffer with two shimmer frames or more (1025
    samples and up) [calculateShimmer] divides zero by zero, and the empty
    buffer does the same to [calculateAmplitude]: the field is NaN. *)
Theorem silence_shimmer_NaN (Math : MathObject) (this : DSPProcessor)
        (seconds : float) (k : nat) :
  shimmer (extractFeatures Math this (recording (silence (1025 + k)) seconds))
  = nan
  /\ amplitude (extractFeatures Math this (recording [] seconds)) = nan.
Proof.
  split.
  - apply calculateShimmer_silence.
  - reflexivity.
Qed.

(** C3: on silence of 2048 samples or more, at 44.1 kHz and at 48 kHz,
    jitter, pitch, pitch variation and the harmonics-to-noise ratio take
    the values the claim gives and the amplitude is zero (the length being
    a number the counter can hold), but the shimmer is NaN and not 3. *)
Theorem silence_features (Math : MathObject) (seconds : float) (k : nat) :
  let f := extractFeatures Math rate_44100
             (recording (silence (2048 + k)) seconds) in
  let g := extractFeatures Math rate_48000
             (recording (silence (2048 + k)) seconds) in
  (jitter f = 0.5 /\ pitch f = 150 /\ pitchVariation f = 10
   /\ hnr f = 25 /\ shimmer f = nan)
  /\ (jitter g = 0.5 /\ pitch g = 150 /\ pitchVariation g = 10
      /\ hnr g = 25 /\ shimmer g = nan)
  /\ ((Z.of_nat (2048 + k) < 2 ^ 63)%Z -> amplitude f = 0 /\ amplitude g = 0).
Proof.
  cbv zeta. unfold extractFeatures, recording; cbn [channelData jitter pitch
    pitchVariation hnr shimmer amplitude].
  destruct (frame_pitches_silence (2048 + k)) as [H44 H48].
  assert (Hshimmer : calculateShimmer (silence (2048 + k)) = nan).
  { replace (2048 + k)%nat with (1025 + (1023 + k))%nat by lia.
    apply calculateShimmer_silence. }
  assert (Hhnr : calculateHNR Math (silence (2048 + k)) = 25).
  { unfold calculateHNR. now rewrite totalNoisePower_silence. }
  rewrite !calculateJitter_silence, Hshimmer, Hhnr.
  unfold calculatePitch, calculatePitchVariation. rewrite H44, H48.
  repeat split; apply calculateAmplitude_silence_zero; lia.
Qed.

(** ** Frames in closed form *)

Lemma ceil_div_step (a hop : nat) :
  (0 < hop)%nat -> (0 < a)%nat ->
  ((a + hop - 1) / hop = S ((a - hop + hop - 1) / hop))%nat.
Proof.
  intros Hhop Ha.
  replace (a + hop - 1)%nat with (a - 1 + 1 * hop)%nat by lia.
  rewrite Nat.div_add by lia.
  destruct (Nat.le_gt_cases hop a) as [H|H].
  - replace (a - hop + hop - 1)%nat with (a - 1)%nat by lia. lia.
  - replace (a - hop + hop - 1)%nat with (hop - 1)%nat by lia.
    rewrite !Nat.div_small by lia. lia.
Qed.

Lemma frame_starts_eq (fuel i frameSize hopSize len : nat) :
  (0 < hopSize)%nat -> (len <= i + fuel)%nat ->
  frame_starts fuel i frameSize hopSize len
  = map (fun j => (i + j * hopSize)%nat)
        (seq 0 ((len - (i + frameSize) + hopSize - 1) / hopSize)).
Proof.
  intros Hhop. revert i. induction fuel as [|fuel IH]; intros i Hfuel.
  - replace (len - (i + frameSize))%nat with 0%nat by lia.
    cbn [frame_starts]. rewrite Nat.div_small by lia. reflexivity.
  - cbn [frame_starts]. destruct (Nat.ltb_spec (i + frameSize) len) as [H|H].
    + rewrite ceil_div_step by lia. cbn [seq map]. f_equal; [lia|].
      rewrite IH by lia. rewrite <- seq_shift, map_map.
      replace (len - (i + hopSize + frameSize))%nat
        with (len - (i + frameSize) - hopSize)%nat by lia.
      apply map_ext. intros j. lia.
    + replace (len - (i + frameSize))%nat with 0%nat by lia.
      rewrite Nat.div_small by lia. reflexivity.
Qed.

Lemma frames_eq (frameSize hopSize : nat) (samples : list float) :
  (0 < hopSize)%nat ->
  frames frameSize hopSize samples
  = map (fun j => slice samples (j * hopSize) (j * hopSize + frameSize))
        (seq 0 (frame_count frameSize hopSize (length samples))).
Proof.
  intros Hhop. unfold frames, frame_count.
  rewrite frame_starts_eq by lia. rewrite map_map. reflexivity.
Qed.

Lemma frame_count_guard (frameSize hopSize len j : nat) :
  (0 < hopSize)%nat -> (j < frame_count frameSize hopSize len)%nat ->
  (j * hopSize + frameSize < len)%nat.
Proof.
  intros Hhop Hj. unfold frame_count in Hj.
  assert (H : (S j * hopSize <= len - frameSize + hopSize - 1)%nat).
  { transitivity (hopSize * ((len - frameSize + hopSize - 1) / hopSize))%nat.
    - rewrite (Nat.mul_comm hopSize). apply Nat.mul_le_mono_r. lia.
    - apply Nat.Div0.mul_div_le. }
  cbn [Nat.mul] in H. lia.
Qed.

Lemma slice_app (a b : list float) (i frameSize : nat) :
  (i + frameSize <= length a)%nat ->
  slice (a ++ b) i (i + frameSize) = slice a i (i + frameSize).
Proof.
  intros H. unfold slice. rewrite skipn_app.
  replace (i - length a)%nat with 0%nat by lia. cbn [skipn].
  rewrite firstn_app, length_skipn.
  replace (i + frameSize - i - (length a - i))%nat with 0%nat by lia.
  cbn [firstn]. apply app_nil_r.
Qed.

(** A frame loop reads nothing beyond its last frame. *)
Lemma frames_app (frameSize hopSize : nat) (a b : list float) :
  (0 < hopSize)%nat ->
  (forall j, (j < frame_count frameSize hopSize (length (a ++ b)))%nat ->
             (j * hopSize + frameSize <= length a)%nat) ->
  frames frameSize hopSize (a ++ b)
  = map (fun j => slice a (j * hopSize) (j * hopSize + frameSize))
        (seq 0 (frame_count frameSize hopSize (length (a ++ b)))).
Proof.
  intros Hhop Hin. rewrite frames_eq by exact Hhop.
  apply map_ext_in. intros j Hj. apply in_seq in Hj.
  apply slice_app. apply Hin. lia.
Qed.

Lemma frames_last (frameSize hopSize : nat) (l : list float) (x y : float) :
  (0 < hopSize)%nat ->
  frames frameSize hopSize (l ++ [x]) = frames frameSize hopSize (l ++ [y]).
Proof.
  intros Hhop.
  rewrite !frames_app; try exact Hhop.
  - rewrite !length_app. reflexivity.
  - intros j Hj. apply frame_count_guard in Hj; [|exact Hhop].
    rewrite length_app in Hj. cbn [length] in Hj. lia.
  - intros j Hj. apply frame_count_guard in Hj; [|exact Hhop].
    rewrite length_app in Hj. cbn [length] in Hj. lia.
Qed.

Lemma frame_count_blocks (frameSize k r : nat) :
  (1 <= r <= frameSize)%nat ->
  frame_count frameSize frameSize (k * frameSize + r) = k.
Proof.
  intros Hr. unfold frame_count. destruct k as [|k].
  - replace (0 * frameSize + r - frameSize + frameSize - 1)%nat
      with (frameSize - 1)%nat by lia.
    apply Nat.div_small. lia.
  - replace (S k * frameSize + r - frameSize + frameSize - 1)%nat
      with (r - 1 + S k * frameSize)%nat by lia.
    rewrite Nat.div_add by lia. rewrite Nat.div_small by lia. reflexivity.
Qed.

(** With frames that do not overlap, what follows the last whole block
    before the end is not read. *)
Lemma frames_blocks (frameSize k : nat) (a b : list float) :
  length a = (k * frameSize)%nat -> (1 <= length b <= frameSize)%nat ->
  frames frameSize frameSize (a ++ b)
  = map (fun j => slice a (j * frameSize) (j * frameSize + frameSize))
        (seq 0 k).
Proof.
  intros Ha Hb. assert (Hfs : (0 < frameSize)%nat) by lia.
  rewrite frames_app; try exact Hfs.
  - rewrite length_app, Ha, frame_count_blocks by exact Hb. reflexivity.
  - rewrite length_app, Ha, frame_count_blocks by exact Hb.
    intros j Hj.
    replace (j * frameSize + frameSize)%nat with (S j * frameSize)%nat by lia.
    apply Nat.mul_le_mono_r. lia.
Qed.

(** X1.  The framing loops in closed form: frame [j] holds the samples from
    [j * hopSize] up to [j * hopSize + frameSize], there is one frame for
    every [j] below [frame_count], every frame is whole and ends before the
    last sample, and there is no frame at all unless the buffer is longer
    than a frame. *)
Theorem analysis_frames (frameSize hopSize : nat) (samples : list float) :
  (0 < hopSize)%nat ->
  let count := frame_count frameSize hopSize (length samples) in
  frames frameSize hopSize samples
  = map (fun j => slice samples (j * hopSize) (j * hopSize + frameSize))
        (seq 0 count)
  /\ Forall (fun frame => length frame = frameSize)
            (frames frameSize hopSize samples)
  /\ (forall j, (j < count)%nat ->
                (j * hopSize + frameSize < length samples)%nat)
  /\ (count = 0%nat <-> (length samples <= frameSize)%nat).
Proof.
  intros Hhop. cbv zeta. split; [now apply frames_eq|]. split.
  - apply Forall_forall. intros frame Hin.
    now apply (frames_length frameSize hopSize samples).
  - split; [intros j Hj; now apply frame_count_guard|].
    unfold frame_count. rewrite Nat.div_small_iff by lia. lia.
Qed.

Lemma analysis_frames_witness :
  frames 4 2 [1; 2; 3; 4; 5; 6; 7] = [[1; 2; 3; 4]; [3; 4; 5; 6]]
  /\ frame_count 2048 512 3000 = 2%nat.
Proof.
  destruct (analysis_frames 4 2 [1; 2; 3; 4; 5; 6; 7] ltac:(lia)) as [H _].
  split; [exact H | reflexivity].
Defined.

(** X2.  The last sample of a buffer is never read by the four framed
    measures: the loops stop at [i + frameSize < samples.length], so the
    pitch, its variation, the shimmer and the ratio are the same whatever
    the last sample is. *)
Theorem last_sample_unread (Math : MathObject) (this : DSPProcessor)
        (l : list float) (x y : float) :
  calculatePitch this (l ++ [x]) = calculatePitch this (l ++ [y])
  /\ calculatePitchVariation Math this (l ++ [x])
     = calculatePitchVariation Math this (l ++ [y])
  /\ calculateShimmer (l ++ [x]) = calculateShimmer (l ++ [y])
  /\ calculateHNR Math (l ++ [x]) = calculateHNR Math (l ++ [y]).
Proof.
  unfold calculatePitch, calculatePitchVariation, frame_pitches,
    calculateShimmer, calculateHNR, totalNoisePower, totalSignalPower.
  rewrite (frames_last 2048 512 l x y), (frames_last 512 512 l x y),
    (frames_last 2048 2048 l x y) by lia.
  repeat split; reflexivity.
Qed.

(** X3.  The shimmer and the harmonics-to-noise ratio cut the buffer into
    blocks of 512 and of 2048 samples and leave out what follows the last
    block that ends before the end of the buffer: a tail of one sample up to
    a whole block does not count. *)
Theorem trailing_block_unread (Math : MathObject) :
  (forall (k : nat) (a b b' : list float),
      length a = (k * 512)%nat -> (1 <= length b <= 512)%nat ->
      (1 <= length b' <= 512)%nat ->
      calculateShimmer (a ++ b) = calculateShimmer (a ++ b'))
  /\ (forall (k : nat) (a b b' : list float),
      length a = (k * 2048)%nat -> (1 <= length b <= 2048)%nat ->
      (1 <= length b' <= 2048)%nat ->
      calculateHNR Math (a ++ b) = calculateHNR Math (a ++ b')).
Proof.
  split; intros k a b b' Ha Hb Hb'.
  - unfold calculateShimmer.
    now rewrite (frames_blocks 512 k a b), (frames_blocks 512 k a b').
  - unfold calculateHNR, totalNoisePower, totalSignalPower.
    now rewrite (frames_blocks 2048 k a b), (frames_blocks 2048 k a b').
Qed.

Lemma trailing_block_unread_witness :
  calculateShimmer (square_wave 512 ++ [1])
  = calculateShimmer (square_wave 512 ++ repeat 0 512)
  /\ calculateHNR coarse_Math (square_wave 1024 ++ [1])
     = calculateHNR coarse_Math (square_wave 1024 ++ repeat 0 2048).
Proof.
  destruct (trailing_block_unread coarse_Math) as [Hs Hh]. split.
  - apply (Hs 2%nat); [reflexivity | cbn [length]; lia |].
    rewrite repeat_length. lia.
  - apply (Hh 1%nat); [reflexivity | cbn [length]; lia |].
    rewrite repeat_length. lia.
Defined.

Lemma firstn_min {A : Type} (n : nat) (l : list A) :
  firstn (Nat.min n (length l)) l = firstn n l.
Proof.
  destruct (Nat.le_ge_cases n (length l)) as [H|H].
  - now rewrite Nat.min_l.
  - rewrite Nat.min_r by exact H. now rewrite firstn_all, firstn_all2.
Qed.

(** X4.  The formants are read off the first 2048 samples alone. *)
Theorem formants_first_frame (Math : MathObject) (this : DSPProcessor)
        (samples : list float) :
  calculateFormants Math this samples
  = calculateFormants Math this (firstn 2048 samples).
Proof.
  unfold calculateFormants, spectral_peaks, slice.
  rewrite !Nat.sub_0_r. cbn [skipn].
  rewrite !firstn_min. rewrite firstn_firstn, Nat.min_id. reflexivity.
Qed.

(** ** Short recordings *)

Lemma positive_not_leb_zero (x : float) : (0 <? x) = true -> (x <=? 0) = false.
Proof.
  rewrite ltb_spec, leb_spec. change (Prim2SF 0) with (S754_zero false).
  destruct (Prim2SF x) as [s|s| |s m e]; try discriminate;
    destruct s; try discriminate; reflexivity.
Qed.

(** Two rising crossings are at least two samples apart, so a stretch of
    samples holds at most half as many crossings. *)
Lemma rising_crossings_count (prev : float) (rest : list float) (i : nat) :
  (length (rising_crossings prev rest i)
   <= (length rest + (if (prev <=? 0)%float then 1 else 0)) / 2)%nat.
Proof.
  revert prev i. induction rest as [|cur rest IH]; intros prev i.
  - cbn [rising_crossings length]. lia.
  - cbn [rising_crossings length].
    destruct (prev <=? 0) eqn:Hprev; cbn [andb].
    + destruct (0 <? cur) eqn:Hcur.
      * specialize (IH cur (S i)).
        rewrite (positive_not_leb_zero cur Hcur) in IH. cbn [length].
        replace (S (length rest) + 1)%nat with (length rest + 0 + 1 * 2)%nat
          by lia.
        rewrite Nat.div_add by lia. lia.
      * specialize (IH cur (S i)).
        etransitivity; [exact IH|]. apply Nat.Div0.div_le_mono.
        destruct (cur <=? 0); lia.
    + specialize (IH cur (S i)).
      etransitivity; [exact IH|]. apply Nat.Div0.div_le_mono.
      destruct (cur <=? 0); lia.
Qed.

Lemma zero_crossings_count (samples : list float) :
  (length (zero_crossings samples) <= length samples / 2)%nat.
Proof.
  destruct samples as [|s0 rest]; [cbn; lia|].
  unfold zero_crossings. etransitivity; [apply rising_crossings_count|].
  cbn [length]. apply Nat.Div0.div_le_mono. destruct (s0 <=? 0); lia.
Qed.

Lemma gaps_length (crossings : list nat) :
  length (gaps crossings) = (length crossings - 1)%nat.
Proof.
  induction crossings as [|a [|b rest] IH]; try reflexivity.
  cbn [gaps length] in *. rewrite IH. lia.
Qed.

Lemma jitter_periods_count (this : DSPProcessor) (samples : list float)
      (fundamentalFreq : float) :
  (length (jitter_periods this samples fundamentalFreq)
   <= length samples / 2 - 1)%nat.
Proof.
  rewrite jitter_periods_accepted. unfold accepted_periods.
  etransitivity; [apply filter_length_le|].
  rewrite length_map, gaps_length.
  pose proof (zero_crossings_count samples). lia.
Qed.

(** X7.  Where the defaults end: two accepted periods need three rising
    crossings, which are two samples apart at least, so six samples; two
    shimmer frames need 1025 samples; two pitch estimates need 2561.  Below
    that the jitter is 0.5, the shimmer 3 and the pitch variation 10,
    whatever the samples are. *)
Theorem default_thresholds (Math : MathObject) (this : DSPProcessor)
        (samples : list float) (fundamentalFreq : float) :
  ((length samples <= 5)%nat ->
   calculateJitter this samples fundamentalFreq = 0.5)
  /\ ((length samples <= 1024)%nat -> calculateShimmer samples = 3)
  /\ ((length samples <= 2560)%nat ->
      calculatePitchVariation Math this samples = 10).
Proof.
  split; [|split]; intros Hlen.
  - unfold calculateJitter.
    pose proof (jitter_periods_count this samples fundamentalFreq) as Hc.
    assert (Hdiv : (length samples / 2 < 3)%nat).
    { apply Nat.Div0.div_lt_upper_bound. lia. }
    destruct (Nat.ltb_spec (length (jitter_periods this samples fundamentalFreq)) 2);
      [reflexivity | lia].
  - unfold calculateShimmer. rewrite length_map, frames_eq, length_map, length_seq by lia.
    assert (Hc : (frame_count 512 512 (length samples) < 2)%nat).
    { unfold frame_count. apply Nat.Div0.div_lt_upper_bound. lia. }
    apply Nat.ltb_lt in Hc. now rewrite Hc.
  - unfold calculatePitchVariation.
    assert (Hc : (length (frame_pitches this samples) < 2)%nat).
    { rewrite frame_pitches_filter. unfold frame_estimates.
      eapply Nat.le_lt_trans; [apply filter_length_le|].
      rewrite length_map, frames_eq, length_map, length_seq by lia.
      unfold frame_count. apply Nat.Div0.div_lt_upper_bound. lia. }
    apply Nat.ltb_lt in Hc. now rewrite Hc.
Qed.

Lemma default_thresholds_witness :
  calculateJitter rate_48000 [-0.5; 0.5; -0.5; 0.5; -0.5] 150 = 0.5
  /\ calculateShimmer (square_wave 512) = 3
  /\ calculatePitchVariation coarse_Math rate_48000 (square_wave 1280) = 10.
Proof.
  destruct (default_thresholds coarse_Math rate_48000
              [-0.5; 0.5; -0.5; 0.5; -0.5] 150) as [Hj _].
  destruct (default_thresholds coarse_Math rate_48000 (square_wave 512) 150)
    as [_ [Hs _]].
  destruct (default_thresholds coarse_Math rate_48000 (square_wave 1280) 150)
    as [_ [_ Hv]].
  split; [apply Hj; cbn [length]; lia|].
  split; [apply Hs | apply Hv]; apply Nat.leb_le; vm_compute; reflexivity.
Defined.

Lemma peak_scan_nil (binWidth : float) (bins : list Z) (prevMag : float)
      (rising : bool) (fs : list float) :
  peak_scan binWidth [] bins prevMag rising fs = fs.
Proof.
  revert prevMag rising. induction bins as [|i bins IH]; intros prevMag rising;
    [reflexivity|].
  cbn [peak_scan].
  assert (Hget : get [] i = nan).
  { unfold get. destruct (i <? 0)%Z; [reflexivity|]. now destruct (Z.to_nat i). }
  rewrite Hget.
  assert (H1 : (prevMag <? nan) = false).
  { rewrite ltb_spec. change (Prim2SF nan) with S754_nan.
    now destruct (Prim2SF prevMag) as [s|s| |s m e]. }
  assert (H2 : (nan <? prevMag) = false).
  { rewrite ltb_spec. change (Prim2SF nan) with S754_nan. reflexivity. }
  rewrite H1, H2, andb_false_r. apply IH.
Qed.

(** X8.  The empty buffer: every measure falls back to its default but
    the amplitude, the square root of [0 / 0]. *)
Theorem empty_buffer_features (Math : MathObject) (this : DSPProcessor)
        (seconds : float) :
  extractFeatures Math this (recording [] seconds)
  = {| pitch := 150; pitchVariation := 10; jitter := 0.5; shimmer := 3;
       hnr := 25; duration := seconds; amplitude := nan;
       formants := [500; 1500; 2500] |}.
Proof.
  unfold extractFeatures, recording. cbn [channelData buffer_duration].
  f_equal.
  unfold calculateFormants, spectral_peaks. cbn [length Nat.min slice skipn firstn fft seq map].
  rewrite peak_scan_nil. reflexivity.
Qed.

(** ** Zero crossings *)

Lemma rising_crossings_signs (prev prev' : float) (rest rest' : list float)
      (i : nat) :
  crossing_sign prev = crossing_sign prev' ->
  map crossing_sign rest = map crossing_sign rest' ->
  rising_crossings prev rest i = rising_crossings prev' rest' i.
Proof.
  revert prev prev' rest' i.
  induction rest as [|cur rest IH]; intros prev prev' [|cur' rest'] i Hp Hr;
    try discriminate; [reflexivity|].
  cbn [map] in Hr.
  assert (Hc : crossing_sign cur = crossing_sign cur') by congruence.
  assert (Ht : map crossing_sign rest = map crossing_sign rest') by congruence.
  cbn [rising_crossings]. rewrite (IH cur cur' rest' (S i) Hc Ht).
  unfold crossing_sign in Hp, Hc.
  assert (H1 : (prev <=? 0) = (prev' <=? 0)) by congruence.
  assert (H2 : (0 <? cur) = (0 <? cur')) by congruence.
  now rewrite H1, H2.
Qed.

(** X6.  The jitter reads of every sample only whether it is at most zero
    and whether it is above zero: two buffers that agree on that, sample by
    sample, have the same jitter, however loud they are. *)
Theorem calculateJitter_signs (this : DSPProcessor)
        (samples samples' : list float)
        (fundamentalFreq : float) :
  map crossing_sign samples = map crossing_sign samples' ->
  calculateJitter this samples fundamentalFreq
  = calculateJitter this samples' fundamentalFreq.
Proof.
  intros H. unfold calculateJitter.
  rewrite !jitter_periods_accepted. unfold accepted_periods, zero_crossings.
  destruct samples as [|s0 rest], samples' as [|s0' rest'];
    try discriminate; [reflexivity|].
  cbn [map] in H.
  assert (H0 : crossing_sign s0 = crossing_sign s0') by congruence.
  assert (Hr : map crossing_sign rest = map crossing_sign rest') by congruence.
  now rewrite (rising_crossings_signs s0 s0' rest rest' 1 H0 Hr).
Qed.

Lemma calculateJitter_signs_witness :
  calculateJitter rate_48000 [-0.5; 0.5; -0.5] 150
  = calculateJitter rate_48000 [-1; 0x1p-149; 0] 150.
Proof.
  apply (calculateJitter_signs rate_48000 [-0.5; 0.5; -0.5] [-1; 0x1p-149; 0] 150).
  reflexivity.
Defined.

(** A period that is a zero, infinite or NaN lets no candidate through. *)
Lemma in_window_degenerate (periodSamples period : float) :
  match Prim2SF periodSamples with
  | S754_finite _ _ _ => False
  | _ => True
  end ->
  in_window periodSamples period = false.
Proof.
  destruct (Prim2SF periodSamples) as [s|s| |s m e] eqn:E; intros H;
    try contradiction.
  - replace periodSamples with (if s then (-0) else 0).
    + apply zero_window_empty.
    + apply Prim2SF_inj. rewrite E. now destruct s.
  - unfold in_window. rewrite !ltb_spec, !mul_spec, E.
    destruct s; cbn [SF64mul SFmul xorb].
    + change (Prim2SF 2) with (S754_finite false 4503599627370496 (-51)).
      cbn [SF64mul SFmul xorb]. rewrite andb_false_iff. right.
      unfold SFltb. now destruct (Prim2SF period) as [sp|sp| |sp mp ep];
        try destruct sp.
    + change (Prim2SF 0.5) with (S754_finite false 4503599627370496 (-53)).
      cbn [SF64mul SFmul xorb]. rewrite andb_false_iff. left.
      unfold SFltb. now destruct (Prim2SF period) as [sp|sp| |sp mp ep];
        try destruct sp.
  - unfold in_window. rewrite ltb_spec, mul_spec, E. reflexivity.
Qed.

Lemma div_degenerate (x y : float) :
  (y =? 0) = true \/ is_finite y = false ->
  match Prim2SF (x / y) with
  | S754_finite _ _ _ => False
  | _ => True
  end.
Proof.
  unfold is_finite, is_infinity.
  rewrite is_nan_spec, !eqb_spec, abs_spec, div_spec.
  change (Prim2SF 0) with (S754_zero false).
  change (Prim2SF infinity) with (S754_infinity false).
  destruct (Prim2SF y) as [sy|sy| |sy my ey];
    destruct (Prim2SF x) as [sx|sx| |sx mx ex]; cbn;
    intros [H|H]; try discriminate; try exact I;
    try (destruct sy; discriminate).
Qed.

(** X18.  A fundamental frequency that is zero, infinite or NaN makes the
    expected period infinite, zero or NaN; no candidate passes the window
    test then, and the jitter is the default 0.5 instead of the outcome of
    a division by zero. *)
Theorem degenerate_pitch_jitter (this : DSPProcessor) (samples : list float)
        (fundamentalFreq : float) :
  (fundamentalFreq =? 0) = true \/ is_finite fundamentalFreq = false ->
  calculateJitter this samples fundamentalFreq = 0.5.
Proof.
  intros H. unfold calculateJitter.
  rewrite jitter_periods_accepted. unfold accepted_periods.
  assert (Hw : forall p,
             in_window (Math_round (sampleRate this / fundamentalFreq)) p
             = false).
  { intros p. apply in_window_degenerate.
    pose proof (div_degenerate (sampleRate this) fundamentalFreq H) as Hd.
    unfold Math_round.
    destruct (Prim2SF (sampleRate this / fundamentalFreq)) as [s|s| |s m e] eqn:E;
      try contradiction; now rewrite E. }
  assert (Hnil : forall l,
             filter (in_window (Math_round (sampleRate this / fundamentalFreq))) l
             = []).
  { induction l as [|p l IH]; [reflexivity|]. cbn [filter]. now rewrite Hw. }
  rewrite Hnil. reflexivity.
Qed.

Lemma degenerate_pitch_jitter_witness :
  calculateJitter rate_48000 (pulse_train 300 4) 0 = 0.5.
Proof.
  apply (degenerate_pitch_jitter rate_48000 (pulse_train 300 4) 0).
  left. reflexivity.
Defined.

Lemma rising_crossings_none (prev : float) (tail : list float) (i : nat) :
  Forall (fun x => (0 <? x) = false) tail ->
  rising_crossings prev tail i = [].
Proof.
  revert prev i. induction tail as [|x tail IH]; intros prev i H;
    [reflexivity|].
  inversion H as [|? ? Hx Ht]; subst. cbn [rising_crossings].
  rewrite Hx, andb_false_r. now apply IH.
Qed.

Lemma rising_crossings_tail (prev : float) (rest tail : list float) (i : nat) :
  Forall (fun x => (0 <? x) = false) tail ->
  rising_crossings prev (rest ++ tail) i = rising_crossings prev rest i.
Proof.
  intros H. revert prev i. induction rest as [|x rest IH]; intros prev i.
  - cbn [app rising_crossings]. now apply rising_crossings_none.
  - cbn [app rising_crossings]. now rewrite IH.
Qed.

(** X19.  What follows the voice does not count for the jitter as long as
    it never rises above zero: trailing silence, or any tail without a
    positive sample, leaves the jitter as it is. *)
Theorem calculateJitter_tail (this : DSPProcessor)
        (samples tail : list float) (fundamentalFreq : float) :
  Forall (fun x => (0 <? x) = false) tail ->
  calculateJitter this (samples ++ tail) fundamentalFreq
  = calculateJitter this samples fundamentalFreq.
Proof.
  intros H. unfold calculateJitter.
  rewrite !jitter_periods_accepted. unfold accepted_periods, zero_crossings.
  destruct samples as [|s0 rest].
  - cbn [app]. destruct tail as [|t0 tail]; [reflexivity|].
    inversion H; subst. now rewrite rising_crossings_none.
  - cbn [app]. now rewrite rising_crossings_tail.
Qed.

Lemma calculateJitter_tail_witness :
  calculateJitter rate_48000 (pulse_train 300 4 ++ silence 100) 160
  = calculateJitter rate_48000 (pulse_train 300 4) 160.
Proof.
  apply (calculateJitter_tail rate_48000 (pulse_train 300 4) (silence 100) 160).
  apply Forall_forall. intros x Hx. apply repeat_spec in Hx. now subst x.
Defined.

(** ** Signs *)

Lemma nonneg_or_nan_spec (x : float) :
  nonneg_or_nan x -> not_negative x.
Proof.
  unfold nonneg_or_nan, not_negative. rewrite is_nan_spec, leb_spec.
  change (Prim2SF 0) with (S754_zero false).
  destruct (Prim2SF x) as [s|s| |s m e]; try (now left);
    destruct s; cbn [nonneg_shape]; intros H; try contradiction; now right.
Qed.

Lemma nonneg_shape_or_nan (x : float) :
  nonneg_shape (Prim2SF x) -> nonneg_or_nan x.
Proof. unfold nonneg_or_nan. now destruct (Prim2SF x). Qed.

Lemma binary_round_shape (m : positive) (e : Z) :
  nonneg_shape (binary_round prec emax false m e).
Proof.
  unfold binary_round.
  destruct (shl_align m e _) as [mz ez]. apply binary_round_aux_shape. lia.
Qed.

Lemma add_nonneg (x y : float) :
  nonneg_or_nan x -> nonneg_or_nan y -> nonneg_or_nan (x + y).
Proof.
  unfold nonneg_or_nan. rewrite add_spec.
  destruct (Prim2SF x) as [sx|sx| |sx mx ex], (Prim2SF y) as [sy|sy| |sy my ey];
    try (destruct sx); try (destruct sy); cbn [nonneg_shape];
    intros Hx Hy; try contradiction; try exact I.
  unfold SF64add, SFadd. cbn [cond_Zopp].
  rewrite <- Pos2Z.inj_add. cbn [binary_normalize].
  pose proof (binary_round_shape
                (fst (shl_align mx ex (Z.min ex ey))
                 + fst (shl_align my ey (Z.min ex ey))) (Z.min ex ey)) as H.
  now destruct (binary_round _ _ _ _ _).
Qed.

Lemma div_eucl_nonneg (a b : Z) :
  (0 <= a)%Z -> (0 < b)%Z -> (0 <= fst (Z.div_eucl a b))%Z.
Proof.
  intros Ha Hb. change (fst (Z.div_eucl a b)) with (a / b)%Z.
  apply Z.div_pos; assumption.
Qed.

Lemma div_nonneg (x y : float) :
  nonneg_or_nan x -> nonneg_or_nan y -> nonneg_or_nan (x / y).
Proof.
  unfold nonneg_or_nan. rewrite div_spec.
  destruct (Prim2SF x) as [sx|sx| |sx mx ex], (Prim2SF y) as [sy|sy| |sy my ey];
    try (destruct sx); try (destruct sy); cbn [nonneg_shape];
    intros Hx Hy; try contradiction; try exact I.
  unfold SF64div, SFdiv, SFdiv_core_binary. cbn [xorb].
  set (e' := Z.min _ _). set (m' := match (ex - ey - e')%Z with
                                     | 0%Z => Zpos mx
                                     | Zpos _ => Z.shiftl (Zpos mx) (ex - ey - e')
                                     | Zneg _ => 0%Z end).
  assert (Hm' : (0 <= m')%Z).
  { subst m'. destruct (ex - ey - e')%Z; try lia.
    apply Z.shiftl_nonneg. lia. }
  pose proof (div_eucl_nonneg m' (Zpos my) Hm' ltac:(lia)) as Hq.
  destruct (Z.div_eucl m' (Zpos my)) as [q r]. cbn [fst] in Hq.
  pose proof (binary_round_aux_shape q e' (new_location (Zpos my) r) Hq) as H.
  now destruct (binary_round_aux _ _ _ _ _ _).
Qed.

Lemma mul_nonneg (x y : float) :
  nonneg_or_nan x -> nonneg_or_nan y -> nonneg_or_nan (x * y).
Proof.
  unfold nonneg_or_nan. rewrite mul_spec.
  destruct (Prim2SF x) as [sx|sx| |sx mx ex], (Prim2SF y) as [sy|sy| |sy my ey];
    try (destruct sx); try (destruct sy); cbn [nonneg_shape];
    intros Hx Hy; try contradiction; try exact I.
  unfold SF64mul, SFmul. cbn [xorb].
  pose proof (binary_round_aux_shape (Zpos (mx * my)) (ex + ey) loc_Exact
                ltac:(lia)) as H.
  now destruct (binary_round_aux _ _ _ _ _ _).
Qed.

(** A square is never negative. *)
Lemma square_nonneg (x : float) : nonneg_or_nan (x * x).
Proof.
  unfold nonneg_or_nan. rewrite mul_spec.
  destruct (Prim2SF x) as [sx|sx| |sx mx ex]; try (destruct sx; exact I);
    try exact I.
  unfold SF64mul, SFmul. rewrite xorb_nilpotent.
  pose proof (binary_round_aux_shape (Zpos (mx * mx)) (ex + ex) loc_Exact
                ltac:(lia)) as H.
  now destruct (binary_round_aux _ _ _ _ _ _).
Qed.

Lemma abs_nonneg (x : float) : nonneg_or_nan (abs x).
Proof.
  unfold nonneg_or_nan. rewrite abs_spec.
  now destruct (Prim2SF x) as [sx|sx| |sx mx ex].
Qed.

Lemma sqrtrem_nonneg (m : Z) : (0 <= fst (Z.sqrtrem m))%Z.
Proof.
  pose proof (Z.sqrtrem_sqrt m) as H. rewrite H. apply Z.sqrt_nonneg.
Qed.

Lemma sqrt_nonneg (x : float) : nonneg_or_nan x -> nonneg_or_nan (PrimFloat.sqrt x).
Proof.
  unfold nonneg_or_nan. rewrite sqrt_spec.
  destruct (Prim2SF x) as [sx|sx| |sx mx ex]; try (destruct sx);
    cbn [nonneg_shape]; intros Hx; try contradiction; try exact I.
  unfold SF64sqrt, SFsqrt, SFsqrt_core_binary.
  set (e' := Z.min _ _). set (m' := match (ex - 2 * e')%Z with
                                     | 0%Z => Zpos mx
                                     | Zpos _ => Z.shiftl (Zpos mx) (ex - 2 * e')
                                     | Zneg _ => 0%Z end).
  pose proof (sqrtrem_nonneg m') as Hq.
  destruct (Z.sqrtrem m') as [q r]. cbn [fst] in Hq.
  set (l := if (r =? 0)%Z then _ else _).
  pose proof (binary_round_aux_shape q e' l Hq) as H.
  now destruct (binary_round_aux _ _ _ _ _ _).
Qed.

Lemma of_nat_nonneg_or_nan (k : nat) : nonneg_or_nan (of_nat k).
Proof. apply nonneg_shape_or_nan, of_nat_nonneg. Qed.

Lemma abs_diff_loop_nonneg (prev : float) (rest : list float) (total : float) :
  nonneg_or_nan total -> nonneg_or_nan (abs_diff_loop prev rest total).
Proof.
  revert prev total. induction rest as [|x rest IH]; intros prev total Ht;
    [exact Ht|].
  cbn [abs_diff_loop]. apply IH, add_nonneg; [exact Ht | apply abs_nonneg].
Qed.

Lemma total_abs_diff_nonneg (a : list float) : nonneg_or_nan (total_abs_diff a).
Proof.
  destruct a as [|x rest]; [exact I|]. apply abs_diff_loop_nonneg. exact I.
Qed.

Lemma fold_add_nonneg {A : Type} (f : A -> float) (l : list A) (acc : float) :
  (forall x, In x l -> nonneg_or_nan (f x)) -> nonneg_or_nan acc ->
  nonneg_or_nan (fold_left (fun s x => s + f x) l acc).
Proof.
  revert acc. induction l as [|x l IH]; intros acc Hl Hacc; [exact Hacc|].
  cbn [fold_left]. apply IH.
  - intros y Hy. apply Hl. now right.
  - apply add_nonneg; [exact Hacc | apply Hl; now left].
Qed.

Lemma sum_nonneg (a : list float) :
  Forall nonneg_or_nan a -> nonneg_or_nan (sum a).
Proof.
  intros H. unfold sum.
  change add with (fun s x : float => s + (fun y => y) x).
  apply fold_add_nonneg; [|exact I].
  intros x Hx. rewrite Forall_forall in H. now apply H.
Qed.

(** The quotient both perturbation measures end with. *)
Lemma perturbation_nonneg (a : list float) :
  Forall nonneg_or_nan a ->
  nonneg_or_nan
    (total_abs_diff a / of_nat (length a - 1)
     / (sum a / of_nat (length a)) * 100).
Proof.
  intros H. apply mul_nonneg; [|exact I].
  apply div_nonneg; apply div_nonneg;
    try apply of_nat_nonneg_or_nan;
    [apply total_abs_diff_nonneg | now apply sum_nonneg].
Qed.

Lemma frame_peak_nonneg (frame : list float) : nonneg_or_nan (frame_peak frame).
Proof.
  unfold frame_peak.
  assert (H : forall acc, nonneg_or_nan acc ->
    nonneg_or_nan
      (fold_left (fun max x => let abs := abs x in if max <? abs then abs else max)
                 frame acc)).
  { induction frame as [|x frame IH]; intros acc Hacc; [exact Hacc|].
    cbn [fold_left]. apply IH. cbv zeta.
    destruct (acc <? abs x); [apply abs_nonneg | exact Hacc]. }
  apply H. exact I.
Qed.

Lemma sqrt_not_negative (x : float) :
  not_negative (PrimFloat.sqrt x).
Proof.
  destruct (Prim2SF x) as [s|s| |s m ex] eqn:E;
    try (destruct s);
    try (apply nonneg_or_nan_spec, sqrt_nonneg; unfold nonneg_or_nan;
         rewrite E; exact I);
    unfold not_negative; rewrite is_nan_spec, leb_spec, sqrt_spec, E; try (now left); now right.
Qed.

Lemma calculateJitter_nonneg (this : DSPProcessor)
      (samples : list float) (fundamentalFreq : float) :
  nonneg_or_nan (calculateJitter this samples fundamentalFreq).
Proof.
  unfold calculateJitter.
  destruct (_ <? 2)%nat; [exact I|].
  apply perturbation_nonneg.
  rewrite jitter_periods_accepted. unfold accepted_periods.
  apply Forall_forall. intros p Hp. apply filter_In in Hp as [Hp _].
  apply in_map_iff in Hp as [k [<- _]]. apply of_nat_nonneg_or_nan.
Qed.

Lemma calculateShimmer_nonneg (samples : list float) :
  nonneg_or_nan (calculateShimmer samples).
Proof.
  unfold calculateShimmer.
  destruct (_ <? 2)%nat; [exact I|].
  apply perturbation_nonneg.
  apply Forall_forall. intros p Hp.
  apply in_map_iff in Hp as [f [<- _]]. apply frame_peak_nonneg.
Qed.

Lemma calculateAmplitude_nonneg (samples : list float) :
  nonneg_or_nan (calculateAmplitude samples).
Proof.
  unfold calculateAmplitude. apply sqrt_nonneg, div_nonneg.
  - apply (fold_add_nonneg (fun x => x * x)); [|exact I].
    intros x _. apply square_nonneg.
  - apply of_nat_nonneg_or_nan.
Qed.

Lemma calculateHNR_range (Math : MathObject) (samples : list float) :
  is_nan (calculateHNR Math samples) = true
  \/ ((0 <=? calculateHNR Math samples) = true
      /\ (calculateHNR Math samples <=? 40) = true).
Proof.
  unfold calculateHNR. destruct (_ =? 0); [now right|].
  set (h := 10 * _). destruct (is_nan h) eqn:Hn.
  - left. now rewrite clamp_nan.
  - right. now apply clamp_0_40.
Qed.

(** X9.  No measure is ever negative: the jitter, the shimmer, the
    amplitude, the pitch variation and the ratio are each NaN or at least
    zero, and the ratio is NaN or at most 40, for every buffer and every
    [Math] object. *)
Theorem never_negative (Math : MathObject) (this : DSPProcessor)
        (samples : list float) (fundamentalFreq : float) :
  not_negative (calculateJitter this samples fundamentalFreq)
  /\ not_negative (calculateShimmer samples)
  /\ not_negative (calculateAmplitude samples)
  /\ not_negative (calculatePitchVariation Math this samples)
  /\ not_negative (calculateHNR Math samples)
  /\ (is_nan (calculateHNR Math samples) = true
      \/ (calculateHNR Math samples <=? 40) = true).
Proof.
  split; [apply nonneg_or_nan_spec, calculateJitter_nonneg|].
  split; [apply nonneg_or_nan_spec, calculateShimmer_nonneg|].
  split; [apply nonneg_or_nan_spec, calculateAmplitude_nonneg|].
  split.
  - unfold calculatePitchVariation.
    destruct (_ <? 2)%nat; [now right | apply sqrt_not_negative].
  - destruct (calculateHNR_range Math samples) as [H|[H0 H40]].
    + split; now left.
    + split; now right.
Qed.

(** ** Polarity *)

Lemma mirror_opp (a : spec_float) : mirror a (SFopp a).
Proof. now destruct a. Qed.

Lemma mirror_cases (a b : spec_float) :
  mirror a b -> b = SFopp a \/ exists s s', a = S754_zero s /\ b = S754_zero s'.
Proof.
  destruct a as [sa|sa| |sa ma ea]; cbn [mirror]; try (now left).
  destruct b as [sb|sb| |sb mb eb]; try (now left).
  intros _. right. now exists sa, sb.
Qed.

Lemma binary_round_aux_opp (s : bool) (m e : Z) (l : location) :
  binary_round_aux prec emax (negb s) m e l
  = SFopp (binary_round_aux prec emax s m e l).
Proof.
  unfold binary_round_aux.
  destruct (shr_fexp prec emax m e l) as [mrs' e'].
  destruct (shr_fexp prec emax _ e' loc_Exact) as [mrs'' e''].
  destruct (shr_m mrs''); try reflexivity.
  now destruct (e'' <=? emax - prec)%Z.
Qed.

Lemma binary_round_opp (s : bool) (m : positive) (e : Z) :
  binary_round prec emax (negb s) m e = SFopp (binary_round prec emax s m e).
Proof.
  unfold binary_round. destruct (shl_align m e _) as [mz ez].
  apply binary_round_aux_opp.
Qed.

Lemma binary_normalize_mirror (m e : Z) :
  mirror (binary_normalize prec emax m e false)
         (binary_normalize prec emax (- m) e false).
Proof.
  destruct m as [|p|p]; cbn [binary_normalize Z.opp]; [exact I| |].
  - rewrite (binary_round_opp false). apply mirror_opp.
  - rewrite (binary_round_opp false).
    destruct (binary_round prec emax false p e) as [s|s| |s m' e'];
      try reflexivity; try exact I; cbn [SFopp mirror]; now rewrite negb_involutive.
Qed.

Lemma cond_Zopp_negb (s : bool) (z : Z) : cond_Zopp (negb s) z = (- cond_Zopp s z)%Z.
Proof. destruct s; cbn [cond_Zopp negb]; lia. Qed.

Lemma SFadd_opp (a p : spec_float) :
  mirror (SF64add a p) (SF64add (SFopp a) (SFopp p)).
Proof.
  destruct a as [sa|sa| |sa ma ea], p as [sp|sp| |sp mp ep];
    try (destruct sa); try (destruct sp); try reflexivity; try exact I;
    unfold SF64add, SFadd, SFopp;
    rewrite !cond_Zopp_negb, <- Z.opp_add_distr;
    apply binary_normalize_mirror.
Qed.

Lemma SFsub_opp (a p : spec_float) :
  mirror (SF64sub a p) (SF64sub (SFopp a) (SFopp p)).
Proof.
  destruct a as [sa|sa| |sa ma ea], p as [sp|sp| |sp mp ep];
    try (destruct sa); try (destruct sp); try reflexivity; try exact I;
    unfold SF64sub, SFsub, SFopp;
    rewrite !cond_Zopp_negb;
    match goal with
    | |- context [(- ?x - - ?y)%Z] =>
        replace (- x - - y)%Z with (- (x - y))%Z by lia
    end;
    apply binary_normalize_mirror.
Qed.

Lemma SFadd_mirror (a a' p : spec_float) :
  mirror a a' -> mirror (SF64add a p) (SF64add a' (SFopp p)).
Proof.
  intros H. apply mirror_cases in H as [->|[s [s' [-> ->]]]];
    [apply SFadd_opp|].
  destruct p as [sp|sp| |sp mp ep]; try reflexivity.
  destruct s, s', sp; exact I.
Qed.

Lemma SFsub_mirror (a a' p : spec_float) :
  mirror a a' -> mirror (SF64sub a p) (SF64sub a' (SFopp p)).
Proof.
  intros H. apply mirror_cases in H as [->|[s [s' [-> ->]]]];
    [apply SFsub_opp|].
  destruct p as [sp|sp| |sp mp ep]; try reflexivity.
  destruct s, s', sp; exact I.
Qed.

Lemma SFmul_opp_opp (a b : spec_float) :
  SF64mul (SFopp a) (SFopp b) = SF64mul a b.
Proof.
  destruct a as [sa|sa| |sa ma ea], b as [sb|sb| |sb mb eb];
    try reflexivity; cbn; now rewrite xorb_negb_negb.
Qed.

Lemma SFmul_opp_l (a b : spec_float) :
  SF64mul (SFopp a) b = SFopp (SF64mul a b).
Proof.
  destruct a as [sa|sa| |sa ma ea], b as [sb|sb| |sb mb eb];
    try reflexivity; cbn [SF64mul SFmul SFopp]; unfold SF64mul, SFmul;
    rewrite <- ?negb_xorb_l; try reflexivity.
  apply binary_round_aux_opp.
Qed.

Lemma SFmul_mirror_square (a a' : spec_float) :
  mirror a a' -> SF64mul a' a' = SF64mul a a.
Proof.
  intros H. apply mirror_cases in H as [->|[s [s' [-> ->]]]];
    [apply SFmul_opp_opp|].
  cbn. now rewrite !xorb_nilpotent.
Qed.

Lemma mul_opp_opp (x y : float) : (- x) * (- y) = x * y.
Proof.
  apply Prim2SF_inj. rewrite !mul_spec, !opp_spec. apply SFmul_opp_opp.
Qed.

Lemma mul_opp_l (x y : float) : (- x) * y = - (x * y).
Proof.
  apply Prim2SF_inj. rewrite opp_spec, !mul_spec, opp_spec. apply SFmul_opp_l.
Qed.

Lemma abs_opp (x : float) : abs (- x) = abs x.
Proof.
  apply Prim2SF_inj. rewrite !abs_spec, opp_spec.
  now destruct (Prim2SF x).
Qed.

Lemma square_mirrored (x y : float) : mirrored x y -> y * y = x * x.
Proof.
  intros H. apply Prim2SF_inj. rewrite !mul_spec.
  now apply SFmul_mirror_square.
Qed.

Lemma sub_opp_mirrored (x y : float) : mirrored (x - y) (- x - - y).
Proof. unfold mirrored. rewrite !sub_spec, !opp_spec. apply SFsub_opp. Qed.

Lemma add_mirrored (x x' p : float) :
  mirrored x x' -> mirrored (x + p) (x' + - p).
Proof.
  unfold mirrored. rewrite !add_spec, opp_spec. apply SFadd_mirror.
Qed.

Lemma sub_mirrored (x x' p : float) :
  mirrored x x' -> mirrored (x - p) (x' - - p).
Proof.
  unfold mirrored. rewrite !sub_spec, opp_spec. apply SFsub_mirror.
Qed.

(** Framing commutes with a change of every sample. *)
Lemma slice_map (f : float -> float) (a : list float) (i j : nat) :
  slice (map f a) i j = map f (slice a i j).
Proof. unfold slice. now rewrite skipn_map, firstn_map. Qed.

Lemma frames_map (f : float -> float) (frameSize hopSize : nat)
      (samples : list float) :
  frames frameSize hopSize (map f samples)
  = map (map f) (frames frameSize hopSize samples).
Proof.
  unfold frames. rewrite length_map, map_map.
  apply map_ext. intros i. apply slice_map.
Qed.

Lemma fold_products_opp (a b : list float) (acc : float) :
  fold_left (fun correlation p => correlation + fst p * snd p)
            (combine (map opp a) (map opp b)) acc
  = fold_left (fun correlation p => correlation + fst p * snd p)
              (combine a b) acc.
Proof.
  revert b acc. induction a as [|x a IH]; intros [|y b] acc; try reflexivity.
  cbn [map combine fold_left fst snd]. rewrite mul_opp_opp. apply IH.
Qed.

Lemma fold_squares_opp (l : list float) (acc : float) :
  fold_left (fun s x => s + x * x) (map opp l) acc
  = fold_left (fun s x => s + x * x) l acc.
Proof.
  revert acc. induction l as [|x l IH]; intros acc; [reflexivity|].
  cbn [map fold_left]. rewrite mul_opp_opp. apply IH.
Qed.

Lemma frame_peak_opp (frame : list float) :
  frame_peak (map opp frame) = frame_peak frame.
Proof.
  unfold frame_peak. generalize 0.
  induction frame as [|x frame IH]; intros acc; [reflexivity|].
  cbn [map fold_left]. cbv zeta. rewrite abs_opp. apply IH.
Qed.

Lemma diff_power_loop_opp (prev : float) (rest : list float) (acc : float) :
  diff_power_loop (- prev) (map opp rest) acc = diff_power_loop prev rest acc.
Proof.
  revert prev acc. induction rest as [|x rest IH]; intros prev acc;
    [reflexivity|].
  cbn [map diff_power_loop]. cbv zeta.
  rewrite (square_mirrored (x - prev) (- x - - prev) (sub_opp_mirrored x prev)).
  apply IH.
Qed.

Lemma correlation_opp (frame : list float) (lag : Z) :
  correlation (map opp frame) lag = correlation frame lag.
Proof.
  unfold correlation. destruct (lag <? 0)%Z; [reflexivity|].
  rewrite skipn_map. apply fold_products_opp.
Qed.

Lemma autocorrelationPitch_opp (this : DSPProcessor)
      (frame : list float) :
  autocorrelationPitch this (map opp frame) = autocorrelationPitch this frame.
Proof.
  unfold autocorrelationPitch. rewrite length_map.
  now rewrite (map_ext _ _ (correlation_opp frame)).
Qed.

Lemma frame_pitches_opp (this : DSPProcessor)
      (samples : list float) :
  frame_pitches this (map opp samples) = frame_pitches this samples.
Proof.
  rewrite !frame_pitches_filter. unfold frame_estimates.
  rewrite frames_map, map_map.
  now rewrite (map_ext _ _ (autocorrelationPitch_opp this)).
Qed.

Lemma signalPower_opp (frame : list float) :
  signalPower (map opp frame) = signalPower frame.
Proof.
  unfold signalPower. now rewrite fold_squares_opp, length_map.
Qed.

Lemma noisePower_opp (frame : list float) :
  noisePower (map opp frame) = noisePower frame.
Proof.
  unfold noisePower. rewrite length_map.
  destruct frame as [|x rest]; [reflexivity|].
  cbn [map]. now rewrite diff_power_loop_opp.
Qed.

Lemma fft_bin_opp (Math : MathObject) (input : list float) (k : nat) :
  mirrored (fst (fft_bin Math input k)) (fst (fft_bin Math (map opp input) k))
  /\ mirrored (snd (fft_bin Math input k)) (snd (fft_bin Math (map opp input) k)).
Proof.
  unfold fft_bin. rewrite length_map.
  set (n := of_nat (length input)).
  assert (H : forall l start acc acc',
             mirrored (fst acc) (fst acc') -> mirrored (snd acc) (snd acc') ->
             let step := fun (acc : float * float) (tx : nat * float) =>
               let angle := (2 * Math_PI * of_nat (fst tx) * of_nat k) / n in
               (fst acc + snd tx * Math_cos Math angle,
                snd acc - snd tx * Math_sin Math angle) in
             mirrored (fst (fold_left step (combine (seq start (length l)) l) acc))
                      (fst (fold_left step
                              (combine (seq start (length l)) (map opp l)) acc'))
             /\ mirrored (snd (fold_left step (combine (seq start (length l)) l) acc))
                      (snd (fold_left step
                              (combine (seq start (length l)) (map opp l)) acc'))).
  { induction l as [|x l IH]; intros start acc acc' Hre Him; cbv zeta in *.
    - now split.
    - cbn [length seq map combine fold_left fst snd].
      apply IH; cbn [fst snd]; rewrite mul_opp_l.
      + now apply add_mirrored.
      + now apply sub_mirrored. }
  specialize (H input 0%nat (0, 0) (0, 0)). cbv zeta in H.
  apply H; exact I.
Qed.

Lemma magnitudes_opp (Math : MathObject) (input : list float) :
  map (fun c => PrimFloat.sqrt (fst c * fst c + snd c * snd c))
      (fft Math (map opp input))
  = map (fun c => PrimFloat.sqrt (fst c * fst c + snd c * snd c))
        (fft Math input).
Proof.
  unfold fft. rewrite length_map, !map_map. apply map_ext. intros k.
  destruct (fft_bin_opp Math input k) as [Hre Him].
  now rewrite (square_mirrored _ _ Hre), (square_mirrored _ _ Him).
Qed.

(** X5.  Turning the recording upside down changes nothing but the
    jitter: the pitch, its variation, the shimmer, the ratio, the amplitude
    and the formants of the negated samples are those of the samples, bit
    for bit. *)
Theorem polarity_unseen (Math : MathObject) (this : DSPProcessor)
        (samples : list float) :
  let inverted := map opp samples in
  calculatePitch this inverted = calculatePitch this samples
  /\ calculatePitchVariation Math this inverted
     = calculatePitchVariation Math this samples
  /\ calculateShimmer inverted = calculateShimmer samples
  /\ calculateHNR Math inverted = calculateHNR Math samples
  /\ calculateAmplitude inverted = calculateAmplitude samples
  /\ calculateFormants Math this inverted = calculateFormants Math this samples.
Proof.
  cbv zeta. repeat split.
  - unfold calculatePitch. now rewrite frame_pitches_opp.
  - unfold calculatePitchVariation. now rewrite frame_pitches_opp.
  - unfold calculateShimmer. rewrite frames_map, map_map.
    now rewrite (map_ext _ _ frame_peak_opp).
  - unfold calculateHNR, totalNoisePower, totalSignalPower.
    rewrite frames_map.
    assert (HS : forall fs acc,
      fold_left (fun total frame => total + signalPower frame)
                (map (map opp) fs) acc
      = fold_left (fun total frame => total + signalPower frame) fs acc).
    { induction fs as [|f fs IH]; intros acc; [reflexivity|].
      cbn [map fold_left]. rewrite signalPower_opp. apply IH. }
    assert (HN : forall fs acc,
      fold_left (fun total frame => total + noisePower frame * 0x1.999999999999ap-4)
                (map (map opp) fs) acc
      = fold_left (fun total frame => total + noisePower frame * 0x1.999999999999ap-4)
                  fs acc).
    { induction fs as [|f fs IH]; intros acc; [reflexivity|].
      cbn [map fold_left]. rewrite noisePower_opp. apply IH. }
    now rewrite HS, HN.
  - unfold calculateAmplitude. now rewrite fold_squares_opp, length_map.
  - unfold calculateFormants, spectral_peaks.
    rewrite length_map, slice_map, magnitudes_opp. reflexivity.
Qed.

(** ** The order of the numbers *)

Lemma valid_exponent_upper (s : bool) (m : positive) (e : Z) :
  valid_binary (S754_finite s m e) = true -> (e <= 971)%Z.
Proof.
  unfold SpecFloat.valid_binary, bounded.
  rewrite andb_true_iff, Z.leb_le. change (emax - prec)%Z with 971%Z. tauto.
Qed.

Lemma finite_key_bounds (s : bool) (m : positive) (e : Z) :
  valid_binary (S754_finite s m e) = true ->
  (0 < Zpos m * 2 ^ (e + 1074) < key_infinity)%Z.
Proof.
  intros V. pose proof (valid_exponent_upper s m e V) as Hup.
  destruct (valid_finite_bounds s m e V) as [Hlo [Hm _]].
  assert (Hp : (0 < 2 ^ (e + 1074))%Z) by (apply Z.pow_pos_nonneg; lia).
  split; [lia|]. unfold key_infinity.
  apply Z.lt_le_trans with (2 ^ 53 * 2 ^ (e + 1074))%Z.
  - apply Z.mul_lt_mono_pos_r; assumption.
  - rewrite <- Z.pow_add_r by lia. apply Z.pow_le_mono_r; lia.
Qed.

Lemma SFcompare_pos_key (mx my : positive) (ex ey : Z) :
  valid_binary (S754_finite false mx ex) = true ->
  valid_binary (S754_finite false my ey) = true ->
  SFcompare (S754_finite false mx ex) (S754_finite false my ey)
  = Some (Zpos mx * 2 ^ (ex + 1074) ?= Zpos my * 2 ^ (ey + 1074))%Z.
Proof.
  intros Vx Vy. rewrite (SFcompare_aligned mx my ex ey Vx Vy).
  destruct (valid_finite_bounds _ _ _ Vx) as [Hex _].
  destruct (valid_finite_bounds _ _ _ Vy) as [Hey _].
  rewrite !shl_align_value by lia. f_equal.
  set (ez := Z.min ex ey).
  replace (ex + 1074)%Z with ((ex - ez) + (ez + 1074))%Z by lia.
  replace (ey + 1074)%Z with ((ey - ez) + (ez + 1074))%Z by lia.
  assert (Hez : (0 <= ez + 1074)%Z) by (subst ez; lia).
  assert (Hxz : (0 <= ex - ez)%Z) by (subst ez; lia).
  assert (Hyz : (0 <= ey - ez)%Z) by (subst ez; lia).
  rewrite (Z.pow_add_r 2 (ex - ez)), (Z.pow_add_r 2 (ey - ez)) by assumption.
  rewrite !Z.mul_assoc.
  apply Zmult_compare_compat_r.
  apply Z.lt_gt, Z.pow_pos_nonneg; lia.
Qed.

Lemma SFcompare_neg_swap (mx my : positive) (ex ey : Z) :
  SFcompare (S754_finite true mx ex) (S754_finite true my ey)
  = SFcompare (S754_finite false my ey) (S754_finite false mx ex).
Proof.
  cbn [SFcompare]. rewrite (Z.compare_antisym ex ey).
  destruct (ex ?= ey)%Z; cbn [CompOpp]; try reflexivity.
  f_equal. exact (Pos.compare_cont_antisym mx my Eq).
Qed.

(** The order of the numbers is the order of their places. *)
Lemma SFcompare_key (x y : float) :
  is_nan x = false -> is_nan y = false ->
  SFcompare (Prim2SF x) (Prim2SF y) = Some (key x ?= key y)%Z.
Proof.
  rewrite !is_nan_spec. unfold key.
  pose proof (Prim2SF_valid x) as Vx. pose proof (Prim2SF_valid y) as Vy.
  assert (Hinf : (0 < key_infinity)%Z) by (unfold key_infinity; lia).
  destruct (Prim2SF x) as [sx|sx| |sx mx ex], (Prim2SF y) as [sy|sy| |sy my ey];
    try discriminate; intros _ _; cbn [SFkey];
    try pose proof (finite_key_bounds _ _ _ Vx) as Bx;
    try pose proof (finite_key_bounds _ _ _ Vy) as By;
    try (destruct sx); try (destruct sy); cbn [SFcompare cond_Zopp];
    try reflexivity; f_equal; symmetry;
    try (apply Z.compare_lt_iff; lia); try (apply Z.compare_gt_iff; lia);
    try (apply Z.compare_eq_iff; lia).
  - rewrite Z.compare_opp.
    pose proof (SFcompare_neg_swap mx my ex ey) as Hs.
    rewrite (SFcompare_pos_key my mx ey ex Vy Vx) in Hs.
    cbn [SFcompare] in Hs. now injection Hs as ->.
  - pose proof (SFcompare_pos_key mx my ex ey Vx Vy) as Hs.
    cbn [SFcompare] in Hs. now injection Hs as ->.
Qed.

Lemma ltb_key (x y : float) :
  is_nan x = false -> is_nan y = false -> (x <? y) = (key x <? key y)%Z.
Proof.
  intros Hx Hy. rewrite ltb_spec. unfold SFltb, Z.ltb.
  rewrite (SFcompare_key x y Hx Hy). now destruct (_ ?= _)%Z.
Qed.

Lemma leb_key (x y : float) :
  is_nan x = false -> is_nan y = false -> (x <=? y) = (key x <=? key y)%Z.
Proof.
  intros Hx Hy. rewrite leb_spec. unfold SFleb, Z.leb.
  rewrite (SFcompare_key x y Hx Hy). now destruct (_ ?= _)%Z.
Qed.

Lemma ltb_nan_l (x y : float) : is_nan x = true -> (x <? y) = false.
Proof.
  rewrite is_nan_spec, ltb_spec.
  now destruct (Prim2SF x) as [s|s| |s m e].
Qed.

Lemma ltb_nan_r (x y : float) : is_nan y = true -> (x <? y) = false.
Proof.
  rewrite is_nan_spec, ltb_spec.
  destruct (Prim2SF y) as [s|s| |s m e]; try discriminate.
  now destruct (Prim2SF x) as [s|s| |s m e].
Qed.

Lemma ltb_not_nan (x y : float) :
  (x <? y) = true -> is_nan x = false /\ is_nan y = false.
Proof.
  intros H. split.
  - destruct (is_nan x) eqn:E; [|reflexivity].
    now rewrite (ltb_nan_l x y E) in H.
  - destruct (is_nan y) eqn:E; [|reflexivity].
    now rewrite (ltb_nan_r x y E) in H.
Qed.

Lemma leb_not_nan (x y : float) :
  (x <=? y) = true -> is_nan x = false /\ is_nan y = false.
Proof.
  rewrite leb_spec, !is_nan_spec.
  destruct (Prim2SF x) as [sx|sx| |sx mx ex], (Prim2SF y) as [sy|sy| |sy my ey];
    try discriminate; now split.
Qed.

Lemma key_bounds (x : float) : (- key_infinity <= key x <= key_infinity)%Z.
Proof.
  unfold key. pose proof (Prim2SF_valid x) as V.
  assert (Hinf : (0 < key_infinity)%Z) by (unfold key_infinity; lia).
  destruct (Prim2SF x) as [s|s| |s m e]; cbn [SFkey]; try lia.
  - destruct s; cbn [cond_Zopp]; lia.
  - pose proof (finite_key_bounds s m e V). destruct s; cbn [cond_Zopp]; lia.
Qed.

Lemma abs_not_nan (x : float) : is_nan (abs x) = is_nan x.
Proof. rewrite !is_nan_spec, abs_spec. now destruct (Prim2SF x). Qed.

(** The loop over a frame of [calculateShimmer], from a running maximum
    on. *)
Lemma peak_loop_spec (frame : list float) (acc : float) :
  is_nan acc = false ->
  let peak :=
    fold_left (fun max x => let abs := abs x in if max <? abs then abs else max)
              frame acc in
  is_nan peak = false
  /\ (key acc <= key peak)%Z
  /\ (forall x, In x frame -> (peak <? abs x) = false)
  /\ (peak = acc \/ In peak (map abs frame)).
Proof.
  revert acc. cbv zeta. induction frame as [|x frame IH]; intros acc Hacc.
  - cbn [fold_left]. split; [exact Hacc|]. split; [lia|].
    split; [intros ? []| now left].
  - cbn [fold_left map].
    destruct (acc <? abs x) eqn:Hlt.
    + destruct (ltb_not_nan _ _ Hlt) as [_ Hx].
      destruct (IH (abs x) Hx) as [Hn [Hk [Hall Hin]]].
      rewrite ltb_key in Hlt by assumption. apply Z.ltb_lt in Hlt.
      split; [exact Hn|]. split; [lia|]. split.
      * intros y [<-|Hy]; [|now apply Hall].
        rewrite ltb_key by assumption. apply Z.ltb_ge. exact Hk.
      * right. destruct Hin as [->|Hin]; [now left | now right].
    + destruct (IH acc Hacc) as [Hn [Hk [Hall Hin]]].
      split; [exact Hn|]. split; [exact Hk|]. split.
      * intros y [<-|Hy]; [|now apply Hall].
        destruct (is_nan (abs x)) eqn:Hx; [now apply ltb_nan_r|].
        rewrite ltb_key in Hlt |- * by assumption.
        apply Z.ltb_ge. apply Z.ltb_ge in Hlt. lia.
      * destruct Hin as [->|Hin]; [now left | right; now right].
Qed.

(** X12.  The amplitude of a shimmer frame is its largest absolute sample:
    no sample of the frame exceeds it, every sample that is a number is at
    most it, and it is zero or the absolute value of a sample.  A NaN sample
    is passed over. *)
Theorem frame_peak_largest (frame : list float) :
  (forall x, In x frame -> (frame_peak frame <? abs x) = false)
  /\ (forall x, In x frame -> is_nan x = false ->
                (abs x <=? frame_peak frame) = true)
  /\ (frame_peak frame = 0 \/ In (frame_peak frame) (map abs frame)).
Proof.
  pose proof (peak_loop_spec frame 0 eq_refl) as H. cbv zeta in H.
  unfold frame_peak. cbv zeta.
  set (peak := fold_left _ frame 0) in *.
  destruct H as [Hn [_ [Hall Hin]]].
  split; [exact Hall|]. split; [|exact Hin].
  intros x Hx Hnan. specialize (Hall x Hx).
  rewrite <- abs_not_nan in Hnan.
  rewrite ltb_key in Hall by assumption. rewrite leb_key by assumption.
  apply Z.leb_le. apply Z.ltb_ge in Hall. exact Hall.
Qed.

Lemma frame_peak_largest_witness :
  (abs (-0.5) <=? frame_peak [0.25; nan; -0.5; 0.125]) = true.
Proof.
  destruct (frame_peak_largest [0.25; nan; -0.5; 0.125]) as [_ [H _]].
  apply H; [cbn [In]; tauto | reflexivity].
Defined.

(** The search for the peak, from a position on: the best value so far
    only grows, and the index that comes out is the first to hold the
    largest value. *)
Lemma find_peak_spec (correlations : list float) (i : nat) (maxCorr : float)
      (maxLagIndex : nat) :
  Forall (fun c => is_nan c = false) correlations ->
  is_nan maxCorr = false ->
  let k := find_peak correlations i maxCorr maxLagIndex in
  (k = maxLagIndex
   /\ Forall (fun c => (c <=? maxCorr) = true) correlations)
  \/ ((i <= k < i + length correlations)%nat
      /\ (maxCorr <? nth (k - i) correlations nan) = true
      /\ Forall (fun c => (c <=? nth (k - i) correlations nan) = true)
                correlations
      /\ forall j, (j < k - i)%nat ->
                   (nth j correlations nan <? nth (k - i) correlations nan)
                   = true).
Proof.
  revert i maxCorr maxLagIndex.
  induction correlations as [|c rest IH]; intros i maxCorr maxLagIndex Hnan Hmax.
  - left. split; [reflexivity | constructor].
  - inversion Hnan as [|? ? Hc Hrest]; subst. cbn [find_peak]. cbv zeta.
    destruct (maxCorr <? c) eqn:Hlt.
    + specialize (IH (S i) c i Hrest Hc). cbv zeta in IH.
      set (k := find_peak rest (S i) c i) in *.
      right. destruct IH as [[Hk Hall]|[Hk [Hbest [Hall Hfirst]]]].
      * rewrite Hk, Nat.sub_diag. cbn [nth length].
        split; [lia|]. split; [exact Hlt|]. split.
        -- constructor; [|exact Hall].
           rewrite leb_key by assumption. apply Z.leb_refl.
        -- intros j Hj. lia.
      * replace (k - i)%nat with (S (k - S i)) by lia. cbn [nth length].
        set (best := nth (k - S i) rest nan) in *.
        destruct (ltb_not_nan _ _ Hbest) as [_ Hb].
        rewrite ltb_key in Hlt, Hbest |- * by assumption.
        split; [lia|]. split; [apply Z.ltb_lt; apply Z.ltb_lt in Hlt, Hbest; lia|].
        split.
        -- constructor; [|exact Hall].
           rewrite leb_key by assumption. apply Z.leb_le.
           apply Z.ltb_lt in Hbest. lia.
        -- intros [|j] Hj; cbn [nth].
           ++ rewrite ltb_key by assumption. exact Hbest.
           ++ apply Hfirst. lia.
    + specialize (IH (S i) maxCorr maxLagIndex Hrest Hmax). cbv zeta in IH.
      set (k := find_peak rest (S i) maxCorr maxLagIndex) in *.
      rewrite ltb_key in Hlt by assumption. apply Z.ltb_ge in Hlt.
      destruct IH as [[Hk Hall]|[Hk [Hbest [Hall Hfirst]]]].
      * left. split; [exact Hk|]. constructor; [|exact Hall].
        rewrite leb_key by assumption. now apply Z.leb_le.
      * right. replace (k - i)%nat with (S (k - S i)) by lia. cbn [nth length].
        set (best := nth (k - S i) rest nan) in *.
        destruct (ltb_not_nan _ _ Hbest) as [_ Hb].
        split; [lia|]. split; [exact Hbest|]. split.
        -- constructor; [|exact Hall].
           rewrite ltb_key in Hbest by assumption. apply Z.ltb_lt in Hbest.
           rewrite leb_key by assumption. apply Z.leb_le. lia.
        -- intros [|j] Hj; cbn [nth].
           ++ rewrite ltb_key in Hbest |- * by assumption.
              apply Z.ltb_lt. apply Z.ltb_lt in Hbest. lia.
           ++ apply Hfirst. lia.
Qed.

(** X13.  The pitch of a frame is the sample rate over the first lag whose
    correlation is the largest: when no correlation is NaN, the index picked
    holds a correlation that no other exceeds and that all earlier ones stay
    strictly below. *)
Theorem autocorrelationPitch_first_peak (this : DSPProcessor)
        (frame : list float) :
  let minLag := Math_floor (sampleRate this / 500) in
  let maxLag := Math_floor (sampleRate this / 50) in
  let correlations :=
    map (correlation frame) (counters minLag maxLag (length frame)) in
  Forall (fun c => is_nan c = false) correlations ->
  exists k,
    autocorrelationPitch this frame = sampleRate this / (minLag + of_nat k)
    /\ (k < Nat.max 1 (length correlations))%nat
    /\ Forall (fun c => (c <=? nth k correlations neg_infinity) = true)
              correlations
    /\ forall j, (j < k)%nat ->
                 (nth j correlations nan <? nth k correlations nan) = true.
Proof.
  cbv zeta. intros Hnan.
  set (cs := map _ _) in *.
  exists (find_peak cs 0 neg_infinity 0).
  split; [reflexivity|].
  destruct (find_peak_spec cs 0 neg_infinity 0 Hnan eq_refl)
    as [[Hk Hall]|[Hk [_ [Hall Hfirst]]]];
    set (k := find_peak cs 0 neg_infinity 0) in *.
  - rewrite Hk. split; [lia|]. split; [|intros j Hj; lia].
    destruct cs as [|c0 cs']; [constructor|]. cbn [nth].
    inversion Hnan as [|? ? Hc0 _]; subst.
    eapply Forall_impl; [|apply (Forall_and Hnan Hall)].
    cbv beta. intros c [Hc Hle].
    rewrite leb_key in Hle |- * by (assumption || reflexivity).
    apply Z.leb_le. apply Z.leb_le in Hle.
    pose proof (key_bounds c0).
    change (key neg_infinity) with (- key_infinity)%Z in Hle. lia.
  - rewrite Nat.sub_0_r in *. split; [lia|].
    rewrite (nth_indep cs neg_infinity nan) by lia.
    split; [exact Hall | exact Hfirst].
Qed.

Lemma autocorrelationPitch_first_peak_witness :
  exists k,
    autocorrelationPitch rate_44100 (square_tone 25 2)
    = 44100 / (Math_floor (44100 / 500) + of_nat k)
    /\ (k < 12)%nat.
Proof.
  destruct (autocorrelationPitch_first_peak rate_44100 (square_tone 25 2))
    as [k [Hk [Hlt _]]].
  - vm_compute. repeat constructor.
  - exists k. split; [exact Hk | exact Hlt].
Defined.

(** ** Steady signals *)

Lemma shr_fexp_snd (m e : Z) (l : location) :
  snd (shr_fexp prec emax m e l)
  = Z.max e (SpecFloat.fexp prec emax (Zdigits2 m + e)).
Proof.
  unfold shr_fexp, shr.
  destruct (SpecFloat.fexp prec emax (Zdigits2 m + e) - e)%Z eqn:H;
    cbn [snd]; lia.
Qed.

Lemma binary_round_aux_exponent (low m e : Z) (l : location) :
  (0 < m)%Z -> (-1074 <= e)%Z ->
  (low <= SpecFloat.fexp prec emax (Zdigits2 m + e))%Z ->
  exponent_from low (binary_round_aux prec emax false m e l).
Proof.
  intros Hm He Hlow. unfold binary_round_aux.
  pose proof (shr_fexp_pos m e l Hm He) as [H1 H2].
  pose proof (shr_fexp_snd m e l) as Hs.
  destruct (shr_fexp prec emax m e l) as [mrs' e']. cbn [fst snd] in *.
  pose proof (round_nearest_even_pos _ (loc_of_shr_record mrs') H1) as H3.
  pose proof (shr_fexp_pos _ e' loc_Exact H3 H2) as [H4 _].
  pose proof (shr_fexp_snd (round_nearest_even (shr_m mrs') (loc_of_shr_record mrs'))
                e' loc_Exact) as Hs'.
  destruct (shr_fexp prec emax _ e' loc_Exact) as [mrs'' e''].
  cbn [fst snd] in *. destruct (shr_m mrs''); try lia.
  destruct (e'' <=? emax - prec)%Z; cbn [exponent_from]; [lia | exact I].
Qed.

Lemma digits2_pos_large (p : positive) :
  (2 ^ 53 <= Zpos p)%Z -> (54 <= Zpos (digits2_pos p))%Z.
Proof.
  intros Hp. pose proof (digits2_pos_bounds p) as [_ Hhi].
  destruct (Z.le_gt_cases 54 (Zpos (digits2_pos p))) as [H|H]; [exact H|].
  assert (2 ^ Zpos (digits2_pos p) <= 2 ^ 53)%Z
    by (apply Z.pow_le_mono_r; lia).
  lia.
Qed.

Lemma shl_align_ge (m : positive) (e e' : Z) :
  (Zpos m <= Zpos (fst (shl_align m e e')))%Z.
Proof.
  destruct (Z.le_gt_cases e' e) as [H|H].
  - rewrite shl_align_value by exact H.
    assert (0 < 2 ^ (e - e'))%Z by (apply Z.pow_pos_nonneg; lia). nia.
  - unfold shl_align. destruct (e' - e)%Z eqn:Hd; cbn [fst]; lia.
Qed.

(** The sum of two numbers with full mantissas and exponents from [low]
    on is another one. *)
Lemma SFadd_exponent (low : Z) (a b : spec_float) :
  (-1074 < low)%Z ->
  valid_binary a = true -> valid_binary b = true ->
  exponent_from low a -> exponent_from low b ->
  exponent_from low (SF64add a b).
Proof.
  intros Hlow Va Vb.
  destruct a as [sa|sa| |sa ma ea], b as [sb|sb| |sb mb eb];
    try (destruct sa); try (destruct sb); cbn [exponent_from];
    intros Ha Hb; try contradiction; try exact I.
  unfold SF64add, SFadd. cbn [cond_Zopp].
  destruct (valid_finite_bounds _ _ _ Va) as [_ [_ Hma]].
  destruct (valid_finite_bounds _ _ _ Vb) as [_ [_ Hmb]].
  specialize (Hma ltac:(lia)). specialize (Hmb ltac:(lia)).
  set (ez := Z.min ea eb).
  pose proof (shl_align_ge ma ea ez) as HA.
  pose proof (shl_align_ge mb eb ez) as HB.
  rewrite <- Pos2Z.inj_add. cbn [binary_normalize].
  set (p := (fst (shl_align ma ea ez) + fst (shl_align mb eb ez))%positive) in *.
  assert (Hp : (2 ^ 53 <= Zpos p)%Z).
  { subst p. rewrite Pos2Z.inj_add.
    change (2 ^ 53)%Z with (2 ^ 52 + 2 ^ 52)%Z. lia. }
  pose proof (digits2_pos_large p Hp) as Hd.
  unfold binary_round.
  assert (Hf : (ez < SpecFloat.fexp prec emax (Zpos (digits2_pos p) + ez))%Z).
  { unfold SpecFloat.fexp. change prec with 53%Z. lia. }
  unfold shl_align at 1.
  destruct (SpecFloat.fexp prec emax (Zpos (digits2_pos p) + ez) - ez)%Z eqn:Hn;
    try lia.
  apply binary_round_aux_exponent; [lia | subst ez; lia |].
  cbn [Zdigits2]. subst ez. lia.
Qed.

(** Such a number over a positive integer below [2^53] is positive. *)
Lemma SFdiv_exponent (a : spec_float) (mb : positive) (eb : Z) :
  valid_binary a = true -> exponent_from (-1021) a ->
  (2 ^ 52 <= Zpos mb < 2 ^ 53)%Z -> (-52 <= eb <= 0)%Z ->
  signed_nonzero false (SF64div a (S754_finite false mb eb)).
Proof.
  intros Va Ha Hmb Heb.
  destruct a as [sa|sa| |sa ma ea]; try (destruct sa); cbn [exponent_from] in Ha;
    try contradiction; [reflexivity|].
  unfold SF64div, SFdiv, SFdiv_core_binary. cbn [xorb Zdigits2].
  destruct (valid_finite_bounds _ _ _ Va) as [_ [Hup Hma]].
  specialize (Hma ltac:(lia)).
  rewrite (digits2_pos_unique ma 53), (digits2_pos_unique mb 53) by lia.
  unfold SpecFloat.fexp.
  change (SpecFloat.emin prec emax) with (-1074)%Z. change prec with 53%Z.
  replace (Z.min (Z.max (53 + ea - (53 + eb) - 53) (-1074)) (ea - eb))
    with (ea - eb - 53)%Z by lia.
  replace (ea - eb - (ea - eb - 53))%Z with 53%Z by lia.
  rewrite Z.shiftl_mul_pow2 by lia.
  pose proof (Z.div_str_pos (Zpos ma * 2 ^ 53) (Zpos mb)) as Hq.
  assert (Hlt : (0 < Zpos mb <= Zpos ma * 2 ^ 53)%Z).
  { split; [lia|]. change (2 ^ 53)%Z with 9007199254740992%Z in *.
    change (2 ^ 52)%Z with 4503599627370496%Z in *. nia. }
  specialize (Hq Hlt). unfold Z.div in Hq.
  destruct (Z.div_eucl (Zpos ma * 2 ^ 53) (Zpos mb)) as [q r]. cbn [fst] in Hq.
  apply binary_round_aux_signed; lia.
Qed.

Lemma add_large (x y : float) : large x -> large y -> large (x + y).
Proof.
  unfold large. rewrite add_spec.
  apply SFadd_exponent; [lia | apply Prim2SF_valid | apply Prim2SF_valid].
Qed.

Lemma of_nat_large (k : nat) :
  (0 < Z.of_nat k < 2 ^ 53)%Z -> large (of_nat k) /\ is_finite (of_nat k) = true.
Proof.
  intros Hk. destruct (of_Z_exact (Z.of_nat k) Hk) as [m [e [H [_ [He _]]]]].
  unfold large, of_nat. split.
  - rewrite H. cbn [exponent_from]. lia.
  - unfold is_finite. rewrite is_nan_spec.
    unfold is_infinity. rewrite eqb_spec, abs_spec, H. reflexivity.
Qed.

Lemma div_large (x : float) (n : nat) :
  large x -> (0 < Z.of_nat n < 2 ^ 53)%Z ->
  signed_nonzero false (Prim2SF (x / of_nat n)).
Proof.
  intros Hx Hn. destruct (of_Z_exact (Z.of_nat n) Hn) as [m [e [H [Hm [He _]]]]].
  rewrite div_spec. unfold of_nat. rewrite H.
  apply SFdiv_exponent; [apply Prim2SF_valid | exact Hx | exact Hm | exact He].
Qed.

Lemma zero_div_positive (y : float) :
  signed_nonzero false (Prim2SF y) -> 0 / y = 0.
Proof.
  intros H. apply Prim2SF_inj. rewrite div_spec.
  change (Prim2SF 0) with (S754_zero false).
  destruct (Prim2SF y) as [s|s| |s m e]; cbn [signed_nonzero] in H;
    try contradiction; subst s; reflexivity.
Qed.

Lemma fold_add_repeat_large (c : float) (k : nat) (acc : float) :
  large c -> large acc -> large (fold_left add (repeat c k) acc).
Proof.
  intros Hc. revert acc. induction k as [|k IH]; intros acc Hacc; [exact Hacc|].
  cbn [repeat fold_left]. apply IH. now apply add_large.
Qed.

Lemma zero_add_large (c : float) : large c -> 0 + c = c.
Proof.
  unfold large. intros H. apply Prim2SF_inj. rewrite add_spec.
  change (Prim2SF 0) with (S754_zero false).
  destruct (Prim2SF c) as [s|s| |s m e]; try contradiction; reflexivity.
Qed.

Lemma sum_repeat_large (c : float) (n : nat) :
  large c -> (0 < n)%nat -> large (sum (repeat c n)).
Proof.
  intros Hc Hn. destruct n as [|n]; [lia|].
  unfold sum. cbn [repeat fold_left]. rewrite zero_add_large by exact Hc.
  now apply fold_add_repeat_large.
Qed.

Lemma abs_diff_loop_repeat (c : float) (k : nat) :
  is_finite c = true -> abs_diff_loop c (repeat c k) 0 = 0.
Proof.
  intros Hc. induction k as [|k IH]; [reflexivity|].
  cbn [repeat abs_diff_loop]. rewrite (is_finite_sub_self c Hc).
  exact IH.
Qed.

(** Equal values have no perturbation. *)
Lemma steady_perturbation (c : float) (n : nat) :
  large c -> is_finite c = true -> (2 <= n)%nat -> (Z.of_nat n < 2 ^ 53)%Z ->
  total_abs_diff (repeat c n) / of_nat (n - 1)
  / (sum (repeat c n) / of_nat n) * 100 = 0.
Proof.
  intros Hc Hf Hn Hn53.
  assert (Ht : total_abs_diff (repeat c n) = 0).
  { destruct n as [|n]; [reflexivity|]. cbn [repeat total_abs_diff].
    now apply abs_diff_loop_repeat. }
  rewrite Ht, zero_div_of_nat
    by (change (2 ^ 53)%Z with 9007199254740992%Z in Hn53;
        change (2 ^ 63)%Z with 9223372036854775808%Z; lia).
  rewrite zero_div_positive; [reflexivity|].
  apply div_large; [apply sum_repeat_large; [exact Hc | lia] | lia].
Qed.

Lemma rising_crossings_from (prev : float) (rest : list float) (i : nat) :
  Forall (fun c => (i <= c)%nat) (rising_crossings prev rest i).
Proof.
  revert prev i. induction rest as [|cur rest IH]; intros prev i;
    cbn [rising_crossings]; [constructor|].
  assert (H : Forall (fun c => (i <= c)%nat) (rising_crossings cur rest (S i))).
  { eapply Forall_impl; [|apply IH]. cbv beta. intros; lia. }
  destruct ((prev <=? 0) && (0 <? cur)); [constructor; [lia | exact H] | exact H].
Qed.

Lemma gaps_cons_positive (a : nat) (crossings : list nat) :
  Forall (fun c => (a < c)%nat) crossings ->
  Forall (fun g => (0 < g)%nat) (gaps crossings) ->
  Forall (fun g => (0 < g)%nat) (gaps (a :: crossings)).
Proof.
  intros Ha Hg. destruct crossings as [|b rest]; [constructor|].
  cbn [gaps]. inversion Ha; subst. constructor; [lia | exact Hg].
Qed.

(** Crossings come in increasing order: every candidate period is a
    positive number of samples. *)
Lemma gaps_positive (prev : float) (rest : list float) (i : nat) :
  Forall (fun g => (0 < g)%nat) (gaps (rising_crossings prev rest i)).
Proof.
  revert prev i. induction rest as [|cur rest IH]; intros prev i;
    cbn [rising_crossings]; [constructor|].
  destruct ((prev <=? 0) && (0 <? cur)); [|apply IH].
  apply gaps_cons_positive; [|apply IH].
  eapply Forall_impl; [|apply (rising_crossings_from cur rest (S i))].
  cbv beta. intros; lia.
Qed.

Lemma zero_crossings_gaps_positive (samples : list float) :
  Forall (fun g => (0 < g)%nat) (gaps (zero_crossings samples)).
Proof.
  destruct samples as [|s0 rest]; [constructor | apply gaps_positive].
Qed.

(** A finite number from [2^-149] on, the smallest positive value of a
    [Float32Array], has an exponent far from the bottom of the range. *)
Lemma float32_large (c : float) :
  is_finite c = true -> (0x1p-149 <=? c) = true -> large c.
Proof.
  intros Hf Hc. destruct (leb_not_nan _ _ Hc) as [H1 H2].
  rewrite leb_key in Hc by assumption. apply Z.leb_le in Hc.
  change (key 0x1p-149) with (2 ^ 52 * 2 ^ 873)%Z in Hc.
  unfold large, key in *. pose proof (Prim2SF_valid c) as V.
  unfold is_finite in Hf. rewrite is_nan_spec in Hf.
  unfold is_infinity in Hf. rewrite eqb_spec, abs_spec in Hf.
  destruct (Prim2SF c) as [s|s| |s m e]; cbn [SFkey cond_Zopp] in Hc;
    try discriminate; try (destruct s; discriminate).
  - assert (0 < 2 ^ 52 * 2 ^ 873)%Z by (apply Z.mul_pos_pos; apply Z.pow_pos_nonneg; lia).
    lia.
  - destruct (finite_key_bounds s m e V) as [Hpos _].
    destruct (valid_finite_bounds s m e V) as [Hlo [Hm _]].
    assert (0 < 2 ^ 52 * 2 ^ 873)%Z by (apply Z.mul_pos_pos; apply Z.pow_pos_nonneg; lia).
    destruct s; cbn [cond_Zopp] in Hc; [lia|]. cbn [exponent_from].
    destruct (Z.le_gt_cases (-1021) e) as [He|He]; [exact He|]. exfalso.
    assert (Hpow : (2 ^ (e + 1074) <= 2 ^ 53)%Z) by (apply Z.pow_le_mono_r; lia).
    assert (H53 : (0 < 2 ^ (e + 1074))%Z) by (apply Z.pow_pos_nonneg; lia).
    assert (Hlt : (Zpos m * 2 ^ (e + 1074) < 2 ^ 53 * 2 ^ 53)%Z).
    { apply Z.le_lt_trans with (Zpos m * 2 ^ 53)%Z.
      - apply Z.mul_le_mono_nonneg_l; lia.
      - apply Z.mul_lt_mono_pos_r; lia. }
    assert (Hbig : (2 ^ 53 * 2 ^ 53 <= 2 ^ 52 * 2 ^ 873)%Z).
    { rewrite <- !Z.pow_add_r by lia. apply Z.pow_le_mono_r; lia. }
    lia.
Qed.

(** X10.  Evenly spaced crossings have no jitter: when the rising
    crossings are all [g] samples apart, [g] passes the window test and
    there are two periods at least, the jitter is exactly 0. *)
Theorem steady_crossings_no_jitter (this : DSPProcessor)
        (samples : list float)
        (fundamentalFreq : float) (g n : nat) :
  gaps (zero_crossings samples) = repeat g n ->
  in_window (Math_round (sampleRate this / fundamentalFreq)) (of_nat g) = true ->
  (2 <= n)%nat ->
  (Z.of_nat (length samples) < 2 ^ 53)%Z ->
  calculateJitter this samples fundamentalFreq = 0.
Proof.
  intros Hgaps Hwin Hn Hlen.
  assert (Hperiods : jitter_periods this samples fundamentalFreq
                     = repeat (of_nat g) n).
  { rewrite jitter_periods_accepted. unfold accepted_periods.
    rewrite Hgaps. clear Hgaps Hn.
    induction n as [|n IH]; [reflexivity|].
    cbn [repeat map filter]. now rewrite Hwin, IH. }
  unfold calculateJitter. rewrite Hperiods, repeat_length.
  destruct (Nat.ltb_spec n 2) as [H|_]; [lia|].
  pose proof (zero_crossings_gaps_positive samples) as Hpos.
  pose proof (gaps_bound (length samples) _ (zero_crossings_bound samples)) as Hup.
  pose proof (zero_crossings_count samples) as Hcount.
  assert (Hlen_n : length (gaps (zero_crossings samples)) = n)
    by (rewrite Hgaps; apply repeat_length).
  rewrite gaps_length in Hlen_n.
  assert (Hdiv : (length samples / 2 <= length samples)%nat)
    by (apply Nat.Div0.div_le_upper_bound; lia).
  rewrite Hgaps in Hpos, Hup.
  destruct n as [|n]; [lia|]. cbn [repeat] in Hpos, Hup.
  inversion Hpos; subst. inversion Hup; subst.
  destruct (of_nat_large g ltac:(lia)) as [Hlarge Hfin].
  apply steady_perturbation; try assumption; lia.
Qed.

Lemma steady_crossings_no_jitter_witness :
  calculateJitter rate_48000 (pulse_train 300 4) 160 = 0.
Proof.
  apply (steady_crossings_no_jitter rate_48000 (pulse_train 300 4) 160 300 2).
  - vm_compute. reflexivity.
  - vm_compute. reflexivity.
  - lia.
  - vm_compute. reflexivity.
Defined.

(** X11.  Frames of equal peak have no shimmer: when every 512-sample
    frame has the same finite peak, at least [2^-149] (the smallest positive
    value of a [Float32Array]), and there are two frames at least, the
    shimmer is exactly 0. *)
Theorem steady_peaks_no_shimmer (samples : list float) (c : float) (n : nat) :
  map frame_peak (frames 512 512 samples) = repeat c n ->
  is_finite c = true -> (0x1p-149 <=? c) = true ->
  (2 <= n)%nat ->
  (Z.of_nat (length samples) < 2 ^ 53)%Z ->
  calculateShimmer samples = 0.
Proof.
  intros Hpeaks Hfin Hc Hn Hlen.
  unfold calculateShimmer. rewrite Hpeaks, repeat_length.
  destruct (Nat.ltb_spec n 2) as [H|_]; [lia|].
  assert (Hcount : n = frame_count 512 512 (length samples)).
  { rewrite <- (repeat_length c n), <- Hpeaks, length_map, frames_eq by lia.
    now rewrite length_map, length_seq. }
  assert (Hle : (n <= length samples)%nat).
  { unfold frame_count in Hcount.
    pose proof (Nat.Div0.mul_div_le (length samples - 512 + 512 - 1) 512).
    lia. }
  apply steady_perturbation; try assumption; [|lia].
  now apply float32_large.
Qed.

Lemma steady_peaks_no_shimmer_witness :
  calculateShimmer (square_tone 1 1024) = 0.
Proof.
  apply (steady_peaks_no_shimmer (square_tone 1 1024) 0.5 3).
  - vm_compute. reflexivity.
  - reflexivity.
  - reflexivity.
  - lia.
  - vm_compute. reflexivity.
Defined.

(** ** The spectrum of silence *)

Lemma zero_mul_zero_or_nan (y : float) : zero_or_nan (0 * y).
Proof.
  unfold zero_or_nan. rewrite mul_spec.
  change (Prim2SF 0) with (S754_zero false).
  now destruct (Prim2SF y) as [s|s| |s m e].
Qed.

Lemma add_zero_or_nan (x y : float) :
  zero_or_nan x -> zero_or_nan y -> zero_or_nan (x + y).
Proof.
  unfold zero_or_nan. rewrite add_spec.
  destruct (Prim2SF x) as [sx|sx| |sx mx ex], (Prim2SF y) as [sy|sy| |sy my ey];
    try contradiction; intros _ _; try exact I.
  destruct sx, sy; exact I.
Qed.

Lemma sub_zero_or_nan (x y : float) :
  zero_or_nan x -> zero_or_nan y -> zero_or_nan (x - y).
Proof.
  unfold zero_or_nan. rewrite sub_spec.
  destruct (Prim2SF x) as [sx|sx| |sx mx ex], (Prim2SF y) as [sy|sy| |sy my ey];
    try contradiction; intros _ _; try exact I.
  destruct sx, sy; exact I.
Qed.

Lemma square_zero_or_nan (x : float) : zero_or_nan x -> zero_or_nan (x * x).
Proof.
  unfold zero_or_nan. rewrite mul_spec.
  destruct (Prim2SF x) as [sx|sx| |sx mx ex]; try contradiction;
    intros _; exact I.
Qed.

Lemma sqrt_zero_or_nan (x : float) :
  zero_or_nan x -> zero_or_nan (PrimFloat.sqrt x).
Proof.
  unfold zero_or_nan. rewrite sqrt_spec.
  destruct (Prim2SF x) as [sx|sx| |sx mx ex]; try contradiction;
    intros _; exact I.
Qed.

Lemma ltb_zero_or_nan (x y : float) :
  zero_or_nan x -> zero_or_nan y -> (x <? y) = false.
Proof.
  unfold zero_or_nan. rewrite ltb_spec.
  destruct (Prim2SF x) as [sx|sx| |sx mx ex], (Prim2SF y) as [sy|sy| |sy my ey];
    try contradiction; reflexivity.
Qed.

(** The transform of silence: every sum is a zero or NaN, whatever [Math]
    gives for the cosine and the sine. *)
Lemma fft_bin_silence (Math : MathObject) (n k : nat) :
  zero_or_nan (fst (fft_bin Math (repeat 0 n) k))
  /\ zero_or_nan (snd (fft_bin Math (repeat 0 n) k)).
Proof.
  unfold fft_bin. rewrite repeat_length.
  assert (H : forall m start acc,
             zero_or_nan (fst acc) -> zero_or_nan (snd acc) ->
             let step := fun (acc : float * float) (tx : nat * float) =>
               let angle :=
                 (2 * Math_PI * of_nat (fst tx) * of_nat k) / of_nat n in
               (fst acc + snd tx * Math_cos Math angle,
                snd acc - snd tx * Math_sin Math angle) in
             zero_or_nan
               (fst (fold_left step (combine (seq start m) (repeat 0 m)) acc))
             /\ zero_or_nan
               (snd (fold_left step (combine (seq start m) (repeat 0 m)) acc))).
  { induction m as [|m IH]; intros start acc Hre Him; cbv zeta in *.
    - now split.
    - cbn [seq repeat combine fold_left fst snd]. apply IH; cbn [fst snd].
      + apply add_zero_or_nan; [exact Hre | apply zero_mul_zero_or_nan].
      + apply sub_zero_or_nan; [exact Him | apply zero_mul_zero_or_nan]. }
  apply (H n 0%nat (0, 0)); exact I.
Qed.

Lemma get_zero_or_nan (magnitudes : list float) (i : Z) :
  Forall zero_or_nan magnitudes -> zero_or_nan (get magnitudes i).
Proof.
  intros H. unfold get. destruct (i <? 0)%Z; [exact I|].
  destruct (Nat.lt_ge_cases (Z.to_nat i) (length magnitudes)) as [Hlt|Hge].
  - rewrite Forall_forall in H. apply H. now apply nth_In.
  - rewrite nth_overflow by exact Hge. exact I.
Qed.

(** Where no magnitude rises above the one before, no peak is found. *)
Lemma peak_scan_flat (binWidth : float) (magnitudes : list float)
      (bins : list Z) (prevMag : float) (fs : list float) :
  Forall zero_or_nan magnitudes -> zero_or_nan prevMag ->
  peak_scan binWidth magnitudes bins prevMag false fs = fs.
Proof.
  intros Hm. revert prevMag. induction bins as [|i bins IH]; intros prevMag Hp;
    [reflexivity|].
  cbn [peak_scan]. cbv zeta.
  pose proof (get_zero_or_nan magnitudes i Hm) as Hg.
  rewrite (ltb_zero_or_nan prevMag (get magnitudes i) Hp Hg).
  cbn [andb]. now apply IH.
Qed.

(** X20.  Silence has no spectral peak: the formants of an all-zero buffer
    are the three defaults, at every sample rate and whatever [Math] computes
    for the cosine and the sine. *)
Theorem silence_formants (Math : MathObject) (this : DSPProcessor) (n : nat) :
  calculateFormants Math this (silence n) = [500; 1500; 2500].
Proof.
  unfold calculateFormants, spectral_peaks, silence.
  rewrite repeat_length. unfold slice at 2. cbn [skipn].
  rewrite Nat.sub_0_r, firstn_repeat.
  rewrite peak_scan_flat; [reflexivity| |exact I].
  apply Forall_forall. intros x Hx. apply in_map_iff in Hx as [c [<- Hc]].
  unfold fft in Hc. apply in_map_iff in Hc as [k [<- _]].
  destruct (fft_bin_silence Math (Nat.min (Nat.min 2048 n) n) k) as [Hre Him].
  apply sqrt_zero_or_nan, add_zero_or_nan; now apply square_zero_or_nan.
Qed.

(** ** Not a number *)

Lemma is_nan_eq (x : float) : is_nan x = true -> x = nan.
Proof.
  rewrite is_nan_spec. intros H. apply Prim2SF_inj.
  change (Prim2SF nan) with S754_nan. now destruct (Prim2SF x).
Qed.

Lemma nan_add_l (y : float) : nan + y = nan.
Proof.
  apply Prim2SF_inj. rewrite add_spec. reflexivity.
Qed.

Lemma nan_add_r (x : float) : x + nan = nan.
Proof.
  apply Prim2SF_inj. rewrite add_spec. change (Prim2SF nan) with S754_nan.
  now destruct (Prim2SF x).
Qed.

Lemma nan_sub_l (y : float) : nan - y = nan.
Proof. apply Prim2SF_inj. rewrite sub_spec. reflexivity. Qed.

Lemma nan_sub_r (x : float) : x - nan = nan.
Proof.
  apply Prim2SF_inj. rewrite sub_spec. change (Prim2SF nan) with S754_nan.
  now destruct (Prim2SF x).
Qed.

Lemma nan_mul_r (x : float) : x * nan = nan.
Proof.
  apply Prim2SF_inj. rewrite mul_spec. change (Prim2SF nan) with S754_nan.
  now destruct (Prim2SF x).
Qed.

Lemma nan_div_l (y : float) : nan / y = nan.
Proof. apply Prim2SF_inj. rewrite div_spec. reflexivity. Qed.

Lemma nan_div_r (x : float) : x / nan = nan.
Proof.
  apply Prim2SF_inj. rewrite div_spec. change (Prim2SF nan) with S754_nan.
  now destruct (Prim2SF x).
Qed.

Lemma Math_min_nan (y : float) : Math_min nan y = nan.
Proof. reflexivity. Qed.

Lemma fold_squares_nan (l : list float) :
  fold_left (fun sum x => sum + x * x) l nan = nan.
Proof.
  induction l as [|x l IH]; [reflexivity|].
  cbn [fold_left]. now rewrite nan_add_l.
Qed.

(** X17.  One sample that is NaN makes the amplitude NaN. *)
Theorem nan_sample_amplitude (samples : list float) :
  In nan samples -> calculateAmplitude samples = nan.
Proof.
  intros Hin. unfold calculateAmplitude.
  assert (H : forall acc,
             fold_left (fun sum x => sum + x * x) samples acc = nan).
  { induction samples as [|x l IH]; [contradiction|]. intros acc.
    cbn [fold_left]. destruct Hin as [->|Hin].
    - rewrite nan_mul_r, nan_add_r. apply fold_squares_nan.
    - now apply IH. }
  rewrite H, nan_div_l. reflexivity.
Qed.

Lemma nan_sample_amplitude_witness :
  calculateAmplitude [0.5; nan; 0.25] = nan.
Proof.
  apply (nan_sample_amplitude [0.5; nan; 0.25]). cbn [In]. tauto.
Defined.

(** ** The recorder and the predictor *)

Lemma calculatePitch_range (this : DSPProcessor) (samples : list float) :
  calculatePitch this samples = 150
  \/ ((50 <? calculatePitch this samples) = true
      /\ (calculatePitch this samples <? 500) = true).
Proof.
  rewrite calculatePitch_eq.
  destruct (frame_pitches this samples) as [|q l] eqn:E; [now left | right].
  assert (Hin : In (median (q :: l)) (q :: l)) by (apply median_In; congruence).
  pose proof (frame_pitches_plausible this samples) as Hall.
  rewrite E, Forall_forall in Hall. specialize (Hall _ Hin).
  now apply andb_true_iff in Hall.
Qed.

(** X14.  What the recorder hands on: nothing without an active recorder,
    and otherwise, whether the recording could be decoded or the fallback
    was taken, features with a pitch of 150 or strictly between 50 and 500,
    three or four formants and a ratio that is NaN or within [[0, 40]]; an
    undecodable recording gives the fallback features. *)
Theorem stopRecording_features (Math : MathObject) (fresh : DSPProcessor)
        (dspProcessor : option DSPProcessor) (active : bool)
        (decoded : option AudioBuffer) (elapsed : float) :
  match fst (stopRecording Math fresh dspProcessor active decoded elapsed) with
  | None => active = false
  | Some features =>
      active = true
      /\ (pitch features = 150
          \/ ((50 <? pitch features) = true /\ (pitch features <? 500) = true))
      /\ (length (formants features) = 3 \/ length (formants features) = 4)%nat
      /\ (is_nan (hnr features) = true
          \/ ((0 <=? hnr features) = true /\ (hnr features <=? 40) = true))
      /\ match decoded with
         | None => features = fallback_features elapsed
         | Some audioBuffer => duration features = buffer_duration audioBuffer
         end
  end.
Proof.
  unfold stopRecording. destruct active; [|reflexivity].
  destruct (getDSPProcessor fresh dspProcessor) as [dsp store].
  destruct decoded as [audioBuffer|]; cbn [fst].
  - split; [reflexivity|]. unfold extractFeatures.
    cbn [pitch formants hnr duration].
    split; [apply calculatePitch_range|]. split.
    + rewrite calculateFormants_length.
      pose proof (spectral_peaks_length Math dsp (channelData audioBuffer)). lia.
    + split; [apply calculateHNR_range | reflexivity].
  - split; [reflexivity|]. cbn [fallback_features pitch formants hnr length].
    split; [now left|]. split; [now left|]. split; [|reflexivity].
    right. split; reflexivity.
Qed.

(** A feature that is NaN makes the score NaN, and so the probability. *)
Lemma mock_probability_nan (Math_exp : float -> float)
      (features : VoiceFeatures) (random1 random2 : float) :
  Math_exp nan = nan ->
  is_nan (jitter features) || is_nan (shimmer features)
  || is_nan (hnr features) || is_nan (pitchVariation features)
  || is_nan (pitch features) || is_nan (amplitude features) = true ->
  mlService.probability
    (mlService.generateMockPrediction Math_exp features random1 random2)
  = nan.
Proof.
  intros Math_exp_nan H.
  unfold mlService.generateMockPrediction. cbn [mlService.probability].
  rewrite !orb_true_iff in H.
  destruct H as [[[[[H|H]|H]|H]|H]|H]; apply is_nan_eq in H; rewrite H;
    rewrite ?nan_div_l, ?nan_sub_l, ?nan_sub_r; change (abs nan) with nan;
    rewrite ?nan_div_l, ?Math_min_nan, ?nan_sub_r, ?nan_mul_r,
      ?nan_add_l, ?nan_add_r, ?nan_add_l, ?nan_sub_l, ?nan_mul_r, Math_exp_nan,
      nan_add_r, nan_div_r; reflexivity.
Qed.

Lemma mock_risk_of_nan (Math_exp : float -> float)
      (features : VoiceFeatures) (random1 random2 : float) :
  mlService.probability
    (mlService.generateMockPrediction Math_exp features random1 random2)
  = nan ->
  mlService.riskLevel
    (mlService.generateMockPrediction Math_exp features random1 random2)
  = mlService.low.
Proof.
  unfold mlService.generateMockPrediction.
  cbn [mlService.probability mlService.riskLevel].
  intros Hp. rewrite Hp. reflexivity.
Qed.

(** X15.  The mock predictor rates a recording with a feature that is NaN
    as low risk: the NaN runs through the weighted score into the
    probability, which then passes neither threshold. *)
Theorem nan_feature_low_risk (Math_exp : float -> float)
        (features : VoiceFeatures) (random1 random2 : float) :
  Math_exp nan = nan ->
  is_nan (jitter features) || is_nan (shimmer features)
  || is_nan (hnr features) || is_nan (pitchVariation features)
  || is_nan (pitch features) || is_nan (amplitude features) = true ->
  let prediction :=
    mlService.generateMockPrediction Math_exp features random1 random2 in
  mlService.probability prediction = nan
  /\ mlService.riskLevel prediction = mlService.low.
Proof.
  intros Hexp H. cbv zeta.
  pose proof (mock_probability_nan Math_exp features random1 random2 Hexp H)
    as Hp.
  split; [exact Hp | now apply mock_risk_of_nan].
Qed.

Lemma nan_feature_low_risk_witness :
  mlService.riskLevel
    (mlService.generateMockPrediction coarse_exp
       {| pitch := 150; pitchVariation := 10; jitter := 0.5; shimmer := nan;
          hnr := 25; duration := 3; amplitude := 0; formants := [] |}
       0.5 0.5)
  = mlService.low.
Proof.
  apply (nan_feature_low_risk coarse_exp
           {| pitch := 150; pitchVariation := 10; jitter := 0.5;
              shimmer := nan; hnr := 25; duration := 3; amplitude := 0;
              formants := [] |} 0.5 0.5);
    reflexivity.
Defined.

(** X16.  From the microphone to the verdict: a silent recording of 1025
    samples or more, decoded without error, comes out of the recorder with
    a shimmer that is NaN, and the mock predictor gives it a probability
    that is NaN and the risk level low. *)
Theorem silent_recording_low_risk (Math : MathObject)
        (Math_exp : float -> float) (fresh : DSPProcessor)
        (dspProcessor : option DSPProcessor) (seconds elapsed : float)
        (random1 random2 : float) (k : nat) :
  Math_exp nan = nan ->
  exists features,
    fst (stopRecording Math fresh dspProcessor true
           (Some (recording (silence (1025 + k)) seconds)) elapsed)
    = Some features
    /\ shimmer features = nan
    /\ mlService.probability
         (mlService.generateMockPrediction Math_exp features random1 random2)
       = nan
    /\ mlService.riskLevel
         (mlService.generateMockPrediction Math_exp features random1 random2)
       = mlService.low.
Proof.
  intros Hexp. unfold stopRecording.
  destruct (getDSPProcessor fresh dspProcessor) as [dsp store].
  eexists. split; [reflexivity|].
  assert (Hs : shimmer (extractFeatures Math dsp
                          (recording (silence (1025 + k)) seconds)) = nan)
    by apply calculateShimmer_silence.
  split; [exact Hs|].
  assert (Hp : mlService.probability
                 (mlService.generateMockPrediction Math_exp
                    (extractFeatures Math dsp
                       (recording (silence (1025 + k)) seconds))
                    random1 random2) = nan).
  { apply mock_probability_nan; [exact Hexp|].
    rewrite Hs. cbn [is_nan]. now rewrite !orb_true_r. }
  split; [exact Hp | now apply mock_risk_of_nan].
Qed.

Lemma silent_recording_low_risk_witness :
  exists features,
    fst (stopRecording coarse_Math rate_48000 None true
           (Some (recording (silence 1025) 1)) 1)
    = Some features
    /\ mlService.riskLevel
         (mlService.generateMockPrediction coarse_exp features 0.5 0.5)
       = mlService.low.
Proof.
  destruct (silent_recording_low_risk coarse_Math coarse_exp rate_48000 None
              1 1 0.5 0.5 0 eq_refl) as [features [H [_ [_ Hr]]]].
  exists features. split; [exact H | exact Hr].
Defined.

(** ** The ratio as sums *)

(** An accumulating loop adds up the list of its terms. *)
Lemma fold_left_add_map (A : Type) (f : A -> float) (l : list A) (acc : float) :
  fold_left (fun total x => total + f x) l acc = fold_left add (map f l) acc.
Proof.
  revert acc. induction l as [|x l IH]; intros acc; [reflexivity|].
  cbn [fold_left map]. apply IH.
Qed.

(** [signalPower] is the mean of the squared samples of the frame. *)
Lemma signalPower_mean (frame : list float) :
  signalPower frame = frame_signal_power frame.
Proof.
  unfold signalPower, frame_signal_power, sum, squares.
  now rewrite (fold_left_add_map _ (fun x => x * x)).
Qed.

(** The second loop adds up the squared first differences. *)
Lemma diff_power_loop_sum (prev : float) (rest : list float) (acc : float) :
  diff_power_loop prev rest acc
  = fold_left add (squares (first_differences_from prev rest)) acc.
Proof.
  revert prev acc. induction rest as [|x rest IH]; intros prev acc; [reflexivity|].
  cbn [diff_power_loop first_differences_from squares map fold_left]. apply IH.
Qed.

(** [noisePower * 0.1] is the scaled mean of the squared first differences;
    the mean is over the length of the frame, one more than the number of
    differences. *)
Lemma noisePower_mean (frame : list float) :
  noisePower frame * 0x1.999999999999ap-4 = frame_noise_power frame.
Proof.
  unfold noisePower, frame_noise_power, sum.
  destruct frame as [|x rest]; [reflexivity|].
  cbn [first_differences]. now rewrite diff_power_loop_sum.
Qed.

(** The loop of [calculateHNR] reads the blocks of 2048 samples that end
    before the last sample. *)
Lemma frames_hnr (samples : list float) :
  frames 2048 2048 samples = hnr_frames samples.
Proof.
  rewrite frames_eq by lia. unfold hnr_frames, frame_count.
  f_equal. f_equal.
  destruct (Nat.le_gt_cases 2048 (length samples)) as [H|H].
  - f_equal. lia.
  - replace (length samples - 2048)%nat with 0%nat by lia.
    rewrite !Nat.div_small by lia. reflexivity.
Qed.

Lemma totalSignalPower_sum (samples : list float) :
  totalSignalPower samples = total_signal_power samples.
Proof.
  unfold totalSignalPower, total_signal_power, sum.
  rewrite fold_left_add_map, frames_hnr.
  f_equal. apply map_ext. intros frame. apply signalPower_mean.
Qed.

Lemma totalNoisePower_sum (samples : list float) :
  totalNoisePower samples = total_noise_power samples.
Proof.
  unfold totalNoisePower, total_noise_power, sum.
  rewrite (fold_left_add_map _ (fun frame => noisePower frame * 0x1.999999999999ap-4)).
  rewrite frames_hnr.
  f_equal. apply map_ext. intros frame. apply noisePower_mean.
Qed.

(** ** A NaN sample in the ratio *)

Lemma nan_mul_l (y : float) : nan * y = nan.
Proof.
  apply is_nan_eq. rewrite is_nan_spec, mul_spec.
  change (Prim2SF nan) with S754_nan. reflexivity.
Qed.

Lemma fold_add_nan (l : list float) : fold_left add l nan = nan.
Proof.
  induction l as [|x l IH]; [reflexivity|].
  cbn [fold_left]. now rewrite nan_add_l.
Qed.

Lemma diff_power_loop_nan (prev : float) (rest : list float) :
  diff_power_loop prev rest nan = nan.
Proof. rewrite diff_power_loop_sum. apply fold_add_nan. Qed.

(** A NaN sample makes the differences with its neighbours NaN, and with
    them the sum. *)
Lemma diff_power_loop_nan_sample (prev : float) (rest : list float) (acc : float) :
  (is_nan prev = true /\ rest <> []) \/ Exists (fun x => is_nan x = true) rest ->
  diff_power_loop prev rest acc = nan.
Proof.
  revert prev acc. induction rest as [|x rest IH]; intros prev acc H.
  - destruct H as [[_ H]|H]; [congruence | inversion H].
  - cbn [diff_power_loop].
    destruct (is_nan x) eqn:Hx.
    + apply is_nan_eq in Hx. subst x.
      now rewrite nan_sub_l, nan_mul_l, nan_add_r, diff_power_loop_nan.
    + destruct H as [[Hp _]|H].
      * apply is_nan_eq in Hp. subst prev.
        now rewrite nan_sub_r, nan_mul_l, nan_add_r, diff_power_loop_nan.
      * inversion H as [? ? Hx'|? ? Hrest]; subst; [congruence|].
        apply IH. now right.
Qed.

(** A NaN sample in a frame makes its noise power NaN. *)
Lemma noisePower_nan_sample (frame : list float) :
  length frame = 2048%nat -> Exists (fun x => is_nan x = true) frame ->
  noisePower frame = nan.
Proof.
  intros Hlen H. unfold noisePower. destruct frame as [|x rest]; [inversion H|].
  rewrite diff_power_loop_nan_sample; [apply nan_div_l|].
  inversion H as [? ? Hx|? ? Hrest]; subst; [left | now right].
  split; [exact Hx|]. destruct rest; [discriminate | congruence].
Qed.

Lemma fold_noisePower_nan (fs : list (list float)) (total : float) :
  Forall (fun frame => length frame = 2048%nat) fs ->
  is_nan total = true \/ Exists (Exists (fun x => is_nan x = true)) fs ->
  fold_left (fun total frame => total + noisePower frame * 0x1.999999999999ap-4)
            fs total = nan.
Proof.
  revert total. induction fs as [|f fs IH]; intros total Hlen H.
  - destruct H as [H|H]; [now apply is_nan_eq | inversion H].
  - inversion Hlen as [|? ? Hf Hrest]; subst. cbn [fold_left].
    apply IH; [exact Hrest|].
    destruct H as [H|H].
    + left. apply is_nan_eq in H. subst total. now rewrite nan_add_l.
    + inversion H as [? ? Hx|? ? Hx]; subst; [left | now right].
      now rewrite noisePower_nan_sample, nan_mul_l, nan_add_r.
Qed.

Lemma totalNoisePower_nan_sample (samples : list float) :
  Exists (Exists (fun x => is_nan x = true)) (frames 2048 2048 samples) ->
  totalNoisePower samples = nan.
Proof.
  intros H. unfold totalNoisePower. apply fold_noisePower_nan; [|now right].
  apply Forall_forall. intros frame Hin. now apply frames_length in Hin.
Qed.

(** A NaN sample within the frames makes the ratio NaN, the logarithm of
    NaN being NaN. *)
Lemma calculateHNR_nan_sample (Math : MathObject) (samples : list float) :
  is_nan (Math_log10 Math nan) = true ->
  Exists (Exists (fun x => is_nan x = true)) (frames 2048 2048 samples) ->
  calculateHNR Math samples = nan.
Proof.
  intros Hlog H. unfold calculateHNR.
  rewrite (totalNoisePower_nan_sample samples H).
  change (nan =? 0) with false. cbv iota.
  rewrite nan_div_r. apply is_nan_eq in Hlog. rewrite Hlog, nan_mul_r.
  reflexivity.
Qed.

(** The ratio is NaN exactly when the noise power is not zero and the
    decibel value is NaN: the clamp passes NaN on and nothing else. *)
Lemma calculateHNR_nan (Math : MathObject) (samples : list float) :
  is_nan (calculateHNR Math samples)
  = negb (totalNoisePower samples =? 0)
    && is_nan (10 * Math_log10 Math (totalSignalPower samples / totalNoisePower samples)).
Proof.
  unfold calculateHNR. destruct (totalNoisePower samples =? 0); [reflexivity|].
  cbn [negb andb]. set (h := 10 * _). destruct (is_nan h) eqn:Hn.
  - now rewrite clamp_nan.
  - destruct (clamp_0_40 h Hn) as [H _]. now apply leb_not_nan in H.
Qed.

(** ** Rounding stays below a bound *)

(** The mantissa after the shift of a rounding: the quotient by the power
    of two the exponent went up by. *)
Lemma shr_fexp_m (m e : Z) (l : location) :
  (0 <= m)%Z ->
  shr_m (fst (shr_fexp prec emax m e l))
  = (m / 2 ^ Z.max 0 (SpecFloat.fexp prec emax (Zdigits2 m + e) - e))%Z.
Proof.
  intros Hm. unfold shr_fexp, shr.
  destruct (SpecFloat.fexp prec emax (Zdigits2 m + e) - e)%Z as [|p|p] eqn:H;
    cbn [fst].
  - rewrite shr_record_of_loc_m. cbn. rewrite ?Z.div_1_r; reflexivity.
  - rewrite iter_shr_1_m by (rewrite shr_record_of_loc_m; exact Hm).
    rewrite shr_record_of_loc_m. rewrite Z.max_r by lia. reflexivity.
  - rewrite shr_record_of_loc_m. rewrite Z.max_l by lia.
    cbn. rewrite ?Z.div_1_r; reflexivity.
Qed.

(** Rounding to nearest moves a mantissa up by at most one. *)
Lemma round_nearest_even_range (m : Z) (l : location) :
  (m <= round_nearest_even m l <= m + 1)%Z.
Proof.
  destruct l as [|[]]; cbn [round_nearest_even]; try lia.
  destruct (Z.even m); lia.
Qed.

Lemma Zdigits2_bounds (m : Z) :
  (0 < m)%Z -> (2 ^ (Zdigits2 m - 1) <= m < 2 ^ Zdigits2 m)%Z.
Proof.
  intros Hm. destruct m as [|p|p]; try lia. cbn [Zdigits2].
  apply digits2_pos_bounds.
Qed.

(** What one shift of the rounding does: the mantissa is cut down to the
    format, and it has 53 bits as soon as the exponent went up above the
    smallest one. *)
Lemma shr_fexp_normal (m e : Z) (l : location) :
  (0 <= m)%Z ->
  let s := Z.max 0 (SpecFloat.fexp prec emax (Zdigits2 m + e) - e) in
  shr_m (fst (shr_fexp prec emax m e l)) = (m / 2 ^ s)%Z
  /\ snd (shr_fexp prec emax m e l) = (e + s)%Z
  /\ (0 <= s)%Z
  /\ (-1074 <= e + s)%Z
  /\ ((0 < s)%Z -> (-1074 < e + s)%Z -> (2 ^ 52 <= m / 2 ^ s)%Z).
Proof.
  intros Hm. cbv zeta. split; [now apply shr_fexp_m|].
  rewrite shr_fexp_snd. unfold SpecFloat.fexp.
  change (SpecFloat.emin prec emax) with (-1074)%Z. change prec with 53%Z.
  split; [lia|]. split; [lia|]. split; [lia|].
  intros Hs Hn.
  assert (Hpos : (0 < m)%Z).
  { destruct (Z.eq_dec m 0) as [->|]; [|lia]. cbn [Zdigits2] in *. lia. }
  pose proof (Zdigits2_bounds m Hpos) as [Hlo _].
  set (d := Zdigits2 m) in *.
  assert (Hsd : Z.max 0 (Z.max (d + e - 53) (-1074) - e) = (d - 53)%Z) by lia.
  rewrite Hsd in *.
  apply Z.div_le_lower_bound; [apply Z.pow_pos_nonneg; lia|].
  rewrite <- Z.pow_add_r by lia.
  replace (d - 53 + 52)%Z with (d - 1)%Z by lia. exact Hlo.
Qed.

Lemma pow2_pos (a : Z) : (0 <= a)%Z -> (0 < 2 ^ a)%Z.
Proof. intros. apply Z.pow_pos_nonneg; lia. Qed.

Lemma pow2_sum (a b c : Z) :
  (0 <= a)%Z -> (0 <= b)%Z -> c = (a + b)%Z -> (2 ^ c = 2 ^ a * 2 ^ b)%Z.
Proof. intros Ha Hb ->. now apply Z.pow_add_r. Qed.

Lemma mul_le_cancel_r (a b p : Z) : (0 < p)%Z -> (a * p <= b * p)%Z -> (a <= b)%Z.
Proof. intros Hp H. now apply Z.mul_le_mono_pos_r in H. Qed.

Lemma mul_lt_cancel_r (a b p : Z) : (0 < p)%Z -> (a * p < b * p)%Z -> (a < b)%Z.
Proof. intros Hp H. now apply Z.mul_lt_mono_pos_r in H. Qed.

(** The quotient [Q] of [m] by [p], one more, stays at most [C] when
    [m + 1] is at most [C * p]. *)
Lemma quotient_succ_le (Q m C p : Z) :
  (0 < p)%Z -> (Q * p <= m)%Z -> (m + 1 <= C * p)%Z -> (Q + 1 <= C)%Z.
Proof.
  intros Hp HQ HC. assert (Q * p < C * p)%Z by lia.
  apply mul_lt_cancel_r in H; [lia | exact Hp].
Qed.

(** The value after the first shift of a rounding, one unit added, stays at
    most a bound [c * 2^E] that the value before, one unit added, respects:
    the bound is itself a multiple of the new unit, or it lies below the
    53-bit mantissas of that exponent. *)
Lemma shifted_at_most (m c Q Pe PE Pe1 p : Z) (aligned : bool) :
  (0 <= m)%Z -> (0 < p)%Z -> (0 < Pe)%Z -> (0 < PE)%Z ->
  Pe1 = (Pe * p)%Z ->
  (Q * p <= m)%Z ->
  ((m + 1) * Pe <= c * PE)%Z ->
  (if aligned then exists k, (0 < k)%Z /\ PE = (Pe1 * k)%Z
   else (c * PE < Q * Pe1)%Z) ->
  ((Q + 1) * Pe1 <= c * PE)%Z.
Proof.
  intros Hm Hp HPe HPE -> HQ Hle Hcase. destruct aligned.
  - destruct Hcase as [k [Hk ->]].
    assert (H1 : ((m + 1) * Pe <= (c * k * p) * Pe)%Z)
      by (replace (c * k * p * Pe)%Z with (c * (Pe * p * k))%Z by ring; exact Hle).
    apply mul_le_cancel_r in H1; [|exact HPe].
    pose proof (quotient_succ_le Q m (c * k) p Hp HQ H1) as H2.
    replace (c * (Pe * p * k))%Z with ((c * k) * (Pe * p))%Z by ring.
    apply Z.mul_le_mono_nonneg_r; [|exact H2].
    apply Z.lt_le_incl, Z.mul_pos_pos; assumption.
  - exfalso.
    assert (H1 : (Q * (Pe * p) <= m * Pe)%Z).
    { replace (Q * (Pe * p))%Z with ((Q * p) * Pe)%Z by ring.
      apply Z.mul_le_mono_nonneg_r; lia. }
    assert (m * Pe < (m + 1) * Pe)%Z by lia.
    lia.
Qed.

(** Rounding keeps a value below a bound of the form [c * 2^E], [c] below
    [2^53], that the value respects with one unit to spare: the result is
    zero or finite, and at most the bound. *)
Lemma round_at_most (m e : Z) (l : location) (c E lo : Z) :
  (0 <= m)%Z -> (lo <= e)%Z -> (lo <= -1074)%Z -> (e <= 971)%Z ->
  (-1074 <= E <= 971)%Z -> (c < 2 ^ 53)%Z ->
  ((m + 1) * 2 ^ (e - lo) <= c * 2 ^ (E - lo))%Z ->
  at_most c E (binary_round_aux prec emax false m e l).
Proof.
  intros Hm Hlo Hlo' He HE Hc Hle. unfold binary_round_aux.
  pose proof (shr_fexp_normal m e l Hm) as (HQ & He1 & Hs1 & Hlow1 & Hn1).
  cbv zeta in *.
  set (s1 := Z.max 0 (SpecFloat.fexp prec emax (Zdigits2 m + e) - e)) in *.
  destruct (shr_fexp prec emax m e l) as [mrs' e1]. cbn [fst snd] in *.
  set (Q := shr_m mrs') in *.
  pose proof (round_nearest_even_range Q (loc_of_shr_record mrs')) as Hq.
  set (q := round_nearest_even Q (loc_of_shr_record mrs')) in *.
  assert (HQ0 : (0 <= Q)%Z).
  { rewrite HQ. apply Z.div_pos; [exact Hm | apply pow2_pos; lia]. }
  assert (Hq0 : (0 <= q)%Z) by lia.
  pose proof (shr_fexp_normal q e1 loc_Exact Hq0) as (HM & He2 & Hs2 & Hlow2 & Hn2).
  cbv zeta in *.
  set (s2 := Z.max 0 (SpecFloat.fexp prec emax (Zdigits2 q + e1) - e1)) in *.
  destruct (shr_fexp prec emax q e1 loc_Exact) as [mrs'' e2]. cbn [fst snd] in *.
  set (M := shr_m mrs'') in *.
  assert (HM0 : (0 <= M)%Z).
  { rewrite HM. apply Z.div_pos; [exact Hq0 | apply pow2_pos; lia]. }
  (* powers, in units of 2^lo *)
  assert (Hp1 : (0 < 2 ^ s1)%Z) by (apply pow2_pos; lia).
  assert (Hp2 : (0 < 2 ^ s2)%Z) by (apply pow2_pos; lia).
  assert (HPe : (0 < 2 ^ (e - lo))%Z) by (apply pow2_pos; lia).
  assert (HPE : (0 < 2 ^ (E - lo))%Z) by (apply pow2_pos; lia).
  assert (HPe1' : (0 < 2 ^ (e1 - lo))%Z) by (apply pow2_pos; lia).
  assert (HPe1 : (2 ^ (e1 - lo) = 2 ^ (e - lo) * 2 ^ s1)%Z)
    by (apply pow2_sum; lia).
  assert (HPe2 : (2 ^ (e2 - lo) = 2 ^ (e1 - lo) * 2 ^ s2)%Z)
    by (apply pow2_sum; lia).
  assert (HQm : (Q * 2 ^ s1 <= m)%Z).
  { rewrite HQ, Z.mul_comm. apply Z.mul_div_le. exact Hp1. }
  assert (HMq : (M * 2 ^ s2 <= q)%Z).
  { rewrite HM, Z.mul_comm. apply Z.mul_div_le. exact Hp2. }
  (* the first rounding stays below the bound *)
  assert (HA : ((Q + 1) * 2 ^ (e1 - lo) <= c * 2 ^ (E - lo))%Z).
  { destruct (Z.eq_dec s1 0) as [H0|H0];
      [|destruct (Z.le_gt_cases e1 E) as [HE1|HE1]].
    - rewrite H0 in *. change (2 ^ 0)%Z with 1%Z in *.
      rewrite Z.div_1_r in HQ.
      replace e1 with e by lia. rewrite HQ. exact Hle.
    - apply (shifted_at_most m c Q (2 ^ (e - lo)) (2 ^ (E - lo)) (2 ^ (e1 - lo))
               (2 ^ s1) true); try assumption.
      exists (2 ^ (E - e1))%Z. split; [apply pow2_pos; lia|].
      apply pow2_sum; lia.
    - apply (shifted_at_most m c Q (2 ^ (e - lo)) (2 ^ (E - lo)) (2 ^ (e1 - lo))
               (2 ^ s1) false); try assumption.
      assert (H52 : (2 ^ 52 <= Q)%Z) by (rewrite HQ; apply Hn1; lia).
      assert (HPE' : (2 ^ (e1 - lo) = 2 ^ (E - lo) * 2 ^ (e1 - E))%Z)
        by (apply pow2_sum; lia).
      assert (H2 : (2 ^ 1 <= 2 ^ (e1 - E))%Z) by (apply Z.pow_le_mono_r; lia).
      change (2 ^ 1)%Z with 2%Z in H2.
      apply Z.lt_le_trans with (2 ^ 52 * 2 ^ (e1 - lo))%Z;
        [|apply Z.mul_le_mono_nonneg_r; lia].
      rewrite HPE'.
      apply Z.lt_le_trans with (2 ^ 53 * 2 ^ (E - lo))%Z;
        [apply Z.mul_lt_mono_pos_r; assumption|].
      change (2 ^ 53)%Z with (2 ^ 52 * 2)%Z. rewrite <- Z.mul_assoc.
      apply Z.mul_le_mono_nonneg_l; [lia|].
      rewrite (Z.mul_comm 2). apply Z.mul_le_mono_nonneg_l; lia. }
  assert (HB : (M * 2 ^ (e2 - lo) <= c * 2 ^ (E - lo))%Z).
  { apply Z.le_trans with ((Q + 1) * 2 ^ (e1 - lo))%Z; [|exact HA].
    rewrite HPe2.
    replace (M * (2 ^ (e1 - lo) * 2 ^ s2))%Z
      with ((M * 2 ^ s2) * 2 ^ (e1 - lo))%Z by ring.
    apply Z.mul_le_mono_nonneg_r; lia. }
  assert (HK : (0 < 2 ^ (-1074 - lo))%Z) by (apply pow2_pos; lia).
  destruct M as [|p|p] eqn:HMp; [exact I | | lia].
  change (emax - prec)%Z with 971%Z.
  destruct (Z.leb_spec e2 971) as [Hfin|Hinf]; cbn [at_most].
  - split; [lia|].
    rewrite (pow2_sum (e2 + 1074) (-1074 - lo) (e2 - lo)) in HB by lia.
    rewrite (pow2_sum (E + 1074) (-1074 - lo) (E - lo)) in HB by lia.
    rewrite !Z.mul_assoc in HB.
    now apply mul_le_cancel_r in HB.
  - (* an overflow would need a mantissa of 53 bits above the bound *)
    exfalso.
    assert (H52 : (2 ^ 52 <= Zpos p)%Z).
    { destruct (Z.eq_dec s2 0) as [H0|H0].
      - rewrite H0 in *. change (2 ^ 0)%Z with 1%Z in *.
        rewrite Z.div_1_r in HM.
        assert (2 ^ 52 <= Q)%Z by (rewrite HQ; apply Hn1; lia). lia.
      - rewrite HM. apply Hn2; lia. }
    assert (HP : (2 ^ (e2 - lo) = 2 ^ (E - lo) * 2 ^ (e2 - E))%Z)
      by (apply pow2_sum; lia).
    assert (H2 : (2 ^ 1 <= 2 ^ (e2 - E))%Z) by (apply Z.pow_le_mono_r; lia).
    change (2 ^ 1)%Z with 2%Z in H2.
    assert (Hlt : (c * 2 ^ (E - lo) < Zpos p * 2 ^ (e2 - lo))%Z).
    { apply Z.lt_le_trans with (2 ^ 53 * 2 ^ (E - lo))%Z;
        [apply Z.mul_lt_mono_pos_r; assumption|].
      rewrite HP. change (2 ^ 53)%Z with (2 ^ 52 * 2)%Z.
      rewrite <- Z.mul_assoc.
      apply Z.mul_le_mono_nonneg; try lia.
      rewrite (Z.mul_comm 2). apply Z.mul_le_mono_nonneg_l; lia. }
    lia.
Qed.

(** A larger bound. *)
Lemma at_most_weaken (c c' E : Z) (x : spec_float) :
  (c <= c')%Z -> (-1074 <= E)%Z -> at_most c E x -> at_most c' E x.
Proof.
  intros Hc HE. destruct x as [[]|[]| |[] m e]; cbn [at_most]; try tauto.
  intros [He H]. split; [exact He|].
  assert (0 < 2 ^ (E + 1074))%Z by (apply pow2_pos; lia). nia.
Qed.

(** The exponent of a number at most [c * 2^E], for [c] below [2^53]. *)
Lemma at_most_exponent (c E : Z) (m : positive) (e : Z) :
  valid_binary (S754_finite false m e) = true ->
  (c < 2 ^ 53)%Z -> (-1074 <= E)%Z ->
  at_most c E (S754_finite false m e) -> (e <= E)%Z.
Proof.
  intros V Hc HE [He H].
  destruct (valid_finite_bounds _ _ _ V) as [_ [_ Hn]].
  destruct (Z.le_gt_cases e E) as [Hle|Hgt]; [exact Hle|exfalso].
  specialize (Hn ltac:(lia)).
  assert (Hs : (2 ^ (e + 1074) = 2 ^ (E + 1074) * 2 ^ (e - E))%Z)
    by (apply pow2_sum; lia).
  assert (2 ^ 1 <= 2 ^ (e - E))%Z by (apply Z.pow_le_mono_r; lia).
  change (2 ^ 1)%Z with 2%Z in *.
  assert (0 < 2 ^ (E + 1074))%Z by (apply pow2_pos; lia).
  change (2 ^ 53)%Z with (2 * 2 ^ 52)%Z in Hc.
  rewrite Hs in H.
  assert (2 ^ 52 * (2 ^ (E + 1074) * 2) <= Zpos m * (2 ^ (E + 1074) * 2 ^ (e - E)))%Z.
  { apply Z.mul_le_mono_nonneg; try lia. nia. }
  nia.
Qed.

(** Aligning a mantissa to another exponent keeps the value and does not
    raise the exponent. *)
Lemma shl_align_units (m : positive) (e t : Z) :
  (-1074 <= e)%Z -> (-1074 <= t)%Z ->
  (-1074 <= snd (shl_align m e t) <= e)%Z
  /\ (Zpos (fst (shl_align m e t)) * 2 ^ (snd (shl_align m e t) + 1074)
      = Zpos m * 2 ^ (e + 1074))%Z.
Proof.
  intros He Ht. destruct (Z.le_gt_cases t e) as [H|H].
  - rewrite shl_align_value, shl_align_snd by exact H. split; [lia|].
    rewrite (pow2_sum (t + 1074) (e - t) (e + 1074)) by lia. ring.
  - unfold shl_align. destruct (t - e)%Z eqn:Hd; cbn [fst snd]; try lia.
Qed.

(** The sum of two numbers that are at most [n * 2^E] and [k * 2^E] is at
    most [(n + k + 1) * 2^E]: rounding adds less than one unit. *)
Lemma SFadd_at_most (n k E : Z) (x y : spec_float) :
  valid_binary x = true -> valid_binary y = true ->
  (0 <= n)%Z -> (0 <= k)%Z -> (n + k + 1 < 2 ^ 53)%Z -> (-1074 <= E <= 971)%Z ->
  at_most n E x -> at_most k E y -> at_most (n + k + 1) E (SF64add x y).
Proof.
  intros Vx Vy Hn Hk Hnk HE.
  destruct x as [sx|sx| |sx mx ex], y as [sy|sy| |sy my ey];
    try (destruct sx); try (destruct sy); cbn [at_most];
    intros Hx Hy; try contradiction; try exact I.
  - change (SF64add _ _) with (S754_finite false my ey).
    apply at_most_weaken with k; [lia | lia | exact Hy].
  - change (SF64add _ _) with (S754_finite false mx ex).
    apply at_most_weaken with n; [lia | lia | exact Hx].
  - pose proof (at_most_exponent n E mx ex Vx ltac:(lia) ltac:(lia) Hx) as Hex.
    pose proof (valid_exponent_upper _ _ _ Vx) as Hux.
    destruct Hx as [Hlx Hx], Hy as [Hly Hy].
    unfold SF64add, SFadd. cbn [cond_Zopp].
    set (ez := Z.min ex ey).
    pose proof (shl_align_value mx ex ez ltac:(lia)) as HA.
    pose proof (shl_align_value my ey ez ltac:(lia)) as HB.
    rewrite <- Pos2Z.inj_add. cbn [binary_normalize].
    set (p := (fst (shl_align mx ex ez) + fst (shl_align my ey ez))%positive) in *.
    assert (Hp : (Zpos p * 2 ^ (ez + 1074)
                  = Zpos mx * 2 ^ (ex + 1074) + Zpos my * 2 ^ (ey + 1074))%Z).
    { subst p. rewrite Pos2Z.inj_add, HA, HB.
      rewrite (pow2_sum (ez + 1074) (ex - ez) (ex + 1074)) by lia.
      rewrite (pow2_sum (ez + 1074) (ey - ez) (ey + 1074)) by lia. ring. }
    unfold binary_round.
    pose proof (shl_align_units p ez
                  (SpecFloat.fexp prec emax (Zpos (digits2_pos p) + ez))
                  ltac:(lia)) as Hal.
    assert (Hf : (-1074 <= SpecFloat.fexp prec emax (Zpos (digits2_pos p) + ez))%Z).
    { unfold SpecFloat.fexp. change (SpecFloat.emin prec emax) with (-1074)%Z. lia. }
    specialize (Hal Hf).
    destruct (shl_align p ez _) as [mz ez']. cbn [fst snd] in Hal.
    destruct Hal as [Hez Hval].
    apply round_at_most with (lo := (-1074)%Z); try lia.
    replace (ez' - -1074)%Z with (ez' + 1074)%Z by lia.
    replace (E - -1074)%Z with (E + 1074)%Z by lia.
    assert (2 ^ (ez' + 1074) <= 2 ^ (E + 1074))%Z
      by (apply Z.pow_le_mono_r; lia).
    nia.
Qed.

Lemma add_at_most (n k E : Z) (x y : float) :
  (0 <= n)%Z -> (0 <= k)%Z -> (n + k + 1 < 2 ^ 53)%Z -> (-1074 <= E <= 971)%Z ->
  at_most n E (Prim2SF x) -> at_most k E (Prim2SF y) ->
  at_most (n + k + 1) E (Prim2SF (x + y)).
Proof.
  intros. rewrite add_spec.
  apply SFadd_at_most; try assumption; apply Prim2SF_valid.
Qed.

(** The square of a number of magnitude at most [2^B] is at most
    [2 * 2^(2B)]. *)
Lemma SFmul_square_at_most (B : Z) (x : spec_float) :
  valid_binary x = true -> (0 <= B)%Z -> (2 * B <= 971)%Z ->
  within B x -> at_most 2 (2 * B) (SF64mul x x).
Proof.
  intros V HB HB'. destruct x as [s|s| |s m e]; cbn [within]; try contradiction.
  - intros _. now destruct s.
  - intros H. unfold SF64mul, SFmul. rewrite xorb_nilpotent.
    destruct (valid_finite_bounds _ _ _ V) as [Hlo _].
    assert (Hpe : (0 < 2 ^ (e + 1074))%Z) by (apply pow2_pos; lia).
    assert (HeB : (e <= B)%Z).
    { destruct (Z.le_gt_cases e B) as [Hle|Hgt]; [exact Hle|exfalso].
      assert (2 ^ (B + 1074) < 2 ^ (e + 1074))%Z
        by (apply Z.pow_lt_mono_r; lia).
      nia. }
    assert (Hm : (Zpos m <= 2 ^ (B - e))%Z).
    { rewrite (pow2_sum (e + 1074) (B - e) (B + 1074)) in H by lia. nia. }
    set (lo := Z.min (e + e) (-1074)).
    apply round_at_most with (lo := lo); try lia.
    assert (HP : (2 ^ (2 * B - lo) = 2 ^ (B - e) * 2 ^ (B - e) * 2 ^ (e + e - lo))%Z).
    { rewrite <- !Z.pow_add_r by lia. f_equal. lia. }
    rewrite HP.
    assert (0 < 2 ^ (e + e - lo))%Z by (apply pow2_pos; lia).
    assert (1 <= 2 ^ (B - e))%Z.
    { change 1%Z with (2 ^ 0)%Z. apply Z.pow_le_mono_r; lia. }
    rewrite Pos2Z.inj_mul.
    assert (Zpos m * Zpos m <= 2 ^ (B - e) * 2 ^ (B - e))%Z by nia.
    nia.
Qed.

Lemma square_at_most (B : Z) (x : float) :
  (0 <= B)%Z -> (2 * B <= 971)%Z ->
  within B (Prim2SF x) -> at_most 2 (2 * B) (Prim2SF (x * x)).
Proof.
  intros. rewrite mul_spec.
  apply SFmul_square_at_most; try assumption. apply Prim2SF_valid.
Qed.

(** A number that is at most [n * 2^E], over 2048. *)
Lemma SFdiv_at_most (n E : Z) (x : spec_float) :
  valid_binary x = true ->
  (0 <= n)%Z -> (n + 1 < 2 ^ 53)%Z -> (-1074 <= E <= 971)%Z ->
  at_most n E x ->
  at_most (n + 1) E (SF64div x (S754_finite false 4503599627370496 (-41))).
Proof.
  intros V Hn Hn1 HE.
  destruct x as [sx|sx| |sx m1 e1]; try (destruct sx); cbn [at_most];
    intros Hx; try contradiction; [exact I|].
  pose proof (at_most_exponent n E m1 e1 V ltac:(lia) ltac:(lia) Hx) as Hex.
  destruct (valid_finite_bounds _ _ _ V) as [Hlo [Hm1 _]].
  destruct Hx as [_ Hx].
  unfold SF64div, SFdiv, SFdiv_core_binary. cbn [xorb Zdigits2].
  change (Zpos (digits2_pos 4503599627370496)) with 53%Z.
  pose proof (digits2_pos_bounds m1) as [Hd1 Hd1'].
  set (d1 := Zpos (digits2_pos m1)) in *.
  assert (Hd : (1 <= d1 <= 53)%Z).
  { split; [subst d1; lia|].
    destruct (Z.le_gt_cases d1 53) as [H|H]; [exact H|exfalso].
    assert (2 ^ 53 <= 2 ^ (d1 - 1))%Z by (apply Z.pow_le_mono_r; lia). lia. }
  set (e' := Z.min (SpecFloat.fexp prec emax (d1 + e1 - (53 + -41))) (e1 - -41)).
  assert (He' : (-1074 <= e' <= E)%Z /\ (e' <= e1 + 41)%Z).
  { subst e'. unfold SpecFloat.fexp.
    change (SpecFloat.emin prec emax) with (-1074)%Z. change prec with 53%Z. lia. }
  set (s := (e1 - -41 - e')%Z).
  assert (Hs : (0 <= s)%Z) by (subst s; lia).
  assert (Hm' : match s with
                | Zpos _ => Z.shiftl (Zpos m1) s
                | 0%Z => Zpos m1
                | Zneg _ => 0%Z
                end = (Zpos m1 * 2 ^ s)%Z).
  { destruct s as [|p|p] eqn:Hse;
      [rewrite Z.pow_0_r; lia
      | rewrite Z.shiftl_mul_pow2 by lia; reflexivity
      | lia]. }
  rewrite Hm'.
  pose proof (Z.div_eucl_eq (Zpos m1 * 2 ^ s) 4503599627370496 ltac:(lia)) as Hdiv.
  pose proof (Z.mod_pos_bound (Zpos m1 * 2 ^ s) 4503599627370496 ltac:(lia)) as Hmod.
  unfold Z.modulo in Hmod.
  destruct (Z.div_eucl (Zpos m1 * 2 ^ s) 4503599627370496) as [q r].
  assert (Hps : (0 < 2 ^ s)%Z) by (apply pow2_pos; lia).
  assert (Hq : (0 <= q)%Z) by nia.
  apply round_at_most with (lo := (-1074)%Z); try lia.
  replace (e' - -1074)%Z with (e' + 1074)%Z by lia.
  replace (E - -1074)%Z with (E + 1074)%Z by lia.
  assert (Hpow : (2 ^ (e' + 1074) <= 2 ^ (E + 1074))%Z)
    by (apply Z.pow_le_mono_r; lia).
  assert (Hpe : (0 < 2 ^ (e' + 1074))%Z) by (apply pow2_pos; lia).
  assert (Hsplit : (2 ^ s * 2 ^ (e' + 1074) = 2 ^ (e1 + 1074) * 2 ^ 41)%Z).
  { rewrite <- !Z.pow_add_r by lia. f_equal. subst s. lia. }
  assert (Hqv : (q * 2 ^ (e' + 1074) * 4503599627370496
                 <= Zpos m1 * 2 ^ (e1 + 1074) * 2 ^ 41)%Z).
  { replace (Zpos m1 * 2 ^ (e1 + 1074) * 2 ^ 41)%Z
      with (Zpos m1 * (2 ^ s * 2 ^ (e' + 1074)))%Z by (rewrite Hsplit; ring).
    nia. }
  assert (0 < 2 ^ (E + 1074))%Z by (apply pow2_pos; lia).
  change (2 ^ 41)%Z with 2199023255552%Z in Hqv.
  assert (q * 2 ^ (e' + 1074) <= n * 2 ^ (E + 1074))%Z by nia.
  nia.
Qed.

(** ** The ratio of a finite recording *)

(** What the test [Math.abs(x) <= 2^128] says of the number. *)
Lemma single_range_within (x : float) :
  single_range x -> within 128 (Prim2SF x).
Proof.
  unfold single_range. intros H.
  destruct (leb_not_nan _ _ H) as [Hn Hn'].
  rewrite leb_key in H by assumption. apply Z.leb_le in H.
  unfold key in H. rewrite abs_spec in H.
  change (Prim2SF 0x1p+128) with (S754_finite false 4503599627370496 76) in H.
  rewrite abs_not_nan, is_nan_spec in Hn.
  destruct (Prim2SF x) as [s|s| |s m e]; cbn [within]; try exact I;
    try discriminate.
  - exfalso. cbn [SFabs SFkey cond_Zopp] in H. unfold key_infinity in H.
    change (76 + 1074)%Z with 1150%Z in H.
    assert (4503599627370496 * 2 ^ 1150 < 2 ^ 2100)%Z by (vm_compute; reflexivity).
    lia.
  - cbn [SFabs SFkey cond_Zopp] in H.
    replace (2 ^ (128 + 1074))%Z with (4503599627370496 * 2 ^ (76 + 1074))%Z
      by (vm_compute; reflexivity).
    exact H.
Qed.

Lemma within_finite_or_zero (B : Z) (x : spec_float) :
  within B x -> finite_or_zero x.
Proof. now destruct x. Qed.

(** The sum of squares of a frame: each term adds at most [2 * 2^256], and
    each addition one unit of rounding. *)
Lemma fold_squares_at_most (frame : list float) (acc : float) (a : Z) :
  (0 <= a)%Z -> (a + 3 * Z.of_nat (length frame) < 2 ^ 53)%Z ->
  at_most a 256 (Prim2SF acc) ->
  Forall single_range frame ->
  at_most (a + 3 * Z.of_nat (length frame)) 256
          (Prim2SF (fold_left (fun s x => s + x * x) frame acc)).
Proof.
  revert acc a. induction frame as [|x frame IH]; intros acc a Ha Hlen Hacc Hall.
  - cbn [fold_left length]. now rewrite Z.add_0_r.
  - inversion Hall as [|? ? Hx Hrest]; subst. cbn [fold_left].
    cbn [length] in *.
    replace (a + 3 * Z.of_nat (S (length frame)))%Z
      with ((a + 2 + 1) + 3 * Z.of_nat (length frame))%Z by lia.
    apply IH; try lia; [|exact Hrest].
    apply add_at_most; try lia; [exact Hacc|].
    apply (square_at_most 128); try lia. now apply single_range_within.
Qed.

Lemma of_nat_2048 : Prim2SF (of_nat 2048) = S754_finite false 4503599627370496 (-41).
Proof. vm_compute. reflexivity. Qed.

(** The signal power of a frame of samples in the single-precision range
    is finite. *)
Lemma signalPower_at_most (frame : list float) :
  length frame = 2048%nat -> Forall single_range frame ->
  at_most 6145 256 (Prim2SF (signalPower frame)).
Proof.
  intros Hlen Hall. unfold signalPower. rewrite div_spec, Hlen, of_nat_2048.
  apply (SFdiv_at_most 6144 256); try lia; [apply Prim2SF_valid|].
  pose proof (fold_squares_at_most frame 0 0 ltac:(lia)) as H.
  rewrite Hlen in H. apply H; [lia | exact I | exact Hall].
Qed.

Lemma fold_signalPower_at_most (fs : list (list float)) (total : float) (a : Z) :
  (0 <= a)%Z -> (a + 6146 * Z.of_nat (length fs) < 2 ^ 53)%Z ->
  at_most a 256 (Prim2SF total) ->
  Forall (fun frame => length frame = 2048%nat /\ Forall single_range frame) fs ->
  at_most (a + 6146 * Z.of_nat (length fs)) 256
          (Prim2SF (fold_left (fun total frame => total + signalPower frame) fs total)).
Proof.
  revert total a. induction fs as [|f fs IH]; intros total a Ha Hlen Hacc Hall.
  - cbn [fold_left length]. now rewrite Z.add_0_r.
  - inversion Hall as [|? ? [Hf Hx] Hrest]; subst. cbn [fold_left].
    cbn [length] in *.
    replace (a + 6146 * Z.of_nat (S (length fs)))%Z
      with ((a + 6145 + 1) + 6146 * Z.of_nat (length fs))%Z by lia.
    apply IH; try lia; [|exact Hrest].
    apply add_at_most; try lia; [exact Hacc|].
    now apply signalPower_at_most.
Qed.

Lemma In_slice (a : list float) (i j : nat) (x : float) :
  In x (slice a i j) -> In x a.
Proof.
  unfold slice. intros H.
  rewrite <- (firstn_skipn i a). apply in_or_app. right.
  rewrite <- (firstn_skipn (j - i) (skipn i a)). apply in_or_app. now left.
Qed.

(** The samples of a frame are samples of the buffer. *)
Lemma frames_In (frameSize hopSize : nat) (samples frame : list float) (x : float) :
  In frame (frames frameSize hopSize samples) -> In x frame -> In x samples.
Proof.
  unfold frames. rewrite in_map_iff. intros [o [<- _]]. apply In_slice.
Qed.

Lemma frames_Forall (P : float -> Prop) (samples : list float) :
  Forall P samples ->
  Forall (fun frame => length frame = 2048%nat /\ Forall P frame)
         (frames 2048 2048 samples).
Proof.
  intros Hall. apply Forall_forall. intros frame Hin. split.
  - now apply frames_length in Hin.
  - apply Forall_forall. intros x Hx.
    rewrite Forall_forall in Hall. apply Hall.
    now apply (frames_In 2048 2048 samples frame).
Qed.

(** There are at most [length / 2048] frames. *)
Lemma frames_count_le (samples : list float) :
  (length (frames 2048 2048 samples) <= length samples / 2048)%nat.
Proof.
  rewrite frames_eq by lia. rewrite length_map, length_seq.
  unfold frame_count.
  destruct (Nat.le_gt_cases 2048 (length samples)) as [H|H].
  - apply Nat.Div0.div_le_mono. lia.
  - replace (length samples - 2048)%nat with 0%nat by lia.
    rewrite Nat.div_small by lia. lia.
Qed.

(** The accumulated signal power of fewer than [2^50] samples in the
    single-precision range is finite: at most [2^52 * 2^256]. *)
Lemma totalSignalPower_at_most (samples : list float) :
  Forall single_range samples -> (Z.of_nat (length samples) < 2 ^ 50)%Z ->
  at_most (2 ^ 52) 256 (Prim2SF (totalSignalPower samples)).
Proof.
  intros Hall Hlen. unfold totalSignalPower.
  pose proof (frames_count_le samples) as Hc.
  assert (Hd : (Z.of_nat (length samples / 2048) < 2 ^ 39)%Z).
  { rewrite Nat2Z.inj_div. apply Z.div_lt_upper_bound; [lia|].
    change (2048 * 2 ^ 39)%Z with (2 ^ 50)%Z. exact Hlen. }
  change (2 ^ 39)%Z with 549755813888%Z in Hd.
  change (2 ^ 53)%Z with 9007199254740992%Z.
  apply at_most_weaken
    with (0 + 6146 * Z.of_nat (length (frames 2048 2048 samples)))%Z;
    [change (2 ^ 52)%Z with 4503599627370496%Z; lia | lia |].
  apply fold_signalPower_at_most; try lia.
  - exact I.
  - now apply frames_Forall.
Qed.

Lemma binary_normalize_not_nan (z e : Z) :
  binary_normalize prec emax z e false <> S754_nan.
Proof.
  destruct z as [|p|p]; cbn [binary_normalize]; try discriminate;
    unfold binary_round; destruct (shl_align p e _) as [mz ez];
    apply binary_round_aux_not_nan; lia.
Qed.

(** The difference of two finite numbers is a number. *)
Lemma sub_not_nan (x y : float) :
  finite_or_zero (Prim2SF x) -> finite_or_zero (Prim2SF y) ->
  is_nan (x - y) = false.
Proof.
  rewrite is_nan_spec, sub_spec.
  destruct (Prim2SF x) as [sx|sx| |sx mx ex], (Prim2SF y) as [sy|sy| |sy my ey];
    cbn [finite_or_zero]; intros Hx Hy; try contradiction;
    try (now destruct sx, sy).
  unfold SF64sub, SFsub.
  pose proof (binary_normalize_not_nan
                (cond_Zopp sx (Zpos (fst (shl_align mx ex (Z.min ex ey))))
                 - cond_Zopp sy (Zpos (fst (shl_align my ey (Z.min ex ey)))))
                (Z.min ex ey)) as H.
  now destruct (binary_normalize _ _ _ _ _).
Qed.

(** The square of a number is a number that is not negative. *)
Lemma square_shape (d : float) :
  is_nan d = false -> nonneg_shape (Prim2SF (d * d)).
Proof.
  rewrite is_nan_spec, mul_spec.
  destruct (Prim2SF d) as [s|s| |s m e]; try discriminate; intros _;
    try (now destruct s).
  unfold SF64mul, SFmul. rewrite xorb_nilpotent.
  apply binary_round_aux_shape. lia.
Qed.

Lemma add_shape (x y : float) :
  nonneg_shape (Prim2SF x) -> nonneg_shape (Prim2SF y) ->
  nonneg_shape (Prim2SF (x + y)).
Proof.
  rewrite add_spec.
  destruct (Prim2SF x) as [sx|sx| |sx mx ex], (Prim2SF y) as [sy|sy| |sy my ey];
    try (destruct sx); try (destruct sy); cbn [nonneg_shape];
    intros Hx Hy; try contradiction; try exact I.
  unfold SF64add, SFadd. cbn [cond_Zopp].
  rewrite <- Pos2Z.inj_add. cbn [binary_normalize].
  apply binary_round_shape.
Qed.

Lemma SFdiv_shape (x : spec_float) (m : positive) (e : Z) :
  nonneg_shape x -> nonneg_shape (SF64div x (S754_finite false m e)).
Proof.
  destruct x as [sx|sx| |sx mx ex]; try (destruct sx); cbn [nonneg_shape];
    intros Hx; try contradiction; try exact I.
  unfold SF64div, SFdiv, SFdiv_core_binary. cbn [xorb].
  set (e' := Z.min _ _). set (m' := match (ex - e - e')%Z with
                                     | 0%Z => Zpos mx
                                     | Zpos _ => Z.shiftl (Zpos mx) (ex - e - e')
                                     | Zneg _ => 0%Z end).
  assert (Hm' : (0 <= m')%Z).
  { subst m'. destruct (ex - e - e')%Z; try lia.
    apply Z.shiftl_nonneg. lia. }
  pose proof (div_eucl_nonneg m' (Zpos m) Hm' ltac:(lia)) as Hq.
  destruct (Z.div_eucl m' (Zpos m)) as [q r]. cbn [fst] in Hq.
  now apply binary_round_aux_shape.
Qed.

Lemma SFmul_shape (x : spec_float) (m : positive) (e : Z) :
  nonneg_shape x -> nonneg_shape (SF64mul x (S754_finite false m e)).
Proof.
  destruct x as [sx|sx| |sx mx ex]; try (destruct sx); cbn [nonneg_shape];
    intros Hx; try contradiction; try exact I.
  unfold SF64mul, SFmul. cbn [xorb]. apply binary_round_aux_shape. lia.
Qed.

Lemma diff_power_loop_shape (prev : float) (rest : list float) (acc : float) :
  finite_or_zero (Prim2SF prev) ->
  Forall (fun x => finite_or_zero (Prim2SF x)) rest ->
  nonneg_shape (Prim2SF acc) ->
  nonneg_shape (Prim2SF (diff_power_loop prev rest acc)).
Proof.
  revert prev acc. induction rest as [|x rest IH]; intros prev acc Hp Hall Hacc.
  - exact Hacc.
  - inversion Hall as [|? ? Hx Hrest]; subst. cbn [diff_power_loop].
    apply IH; [exact Hx | exact Hrest |].
    apply add_shape; [exact Hacc|]. apply square_shape.
    now apply sub_not_nan.
Qed.

(** The noise power of a frame of finite samples is a number that is not
    negative (it may be infinite). *)
Lemma noisePower_shape (frame : list float) :
  length frame = 2048%nat ->
  Forall (fun x => finite_or_zero (Prim2SF x)) frame ->
  nonneg_shape (Prim2SF (noisePower frame)).
Proof.
  intros Hlen Hall. unfold noisePower. rewrite div_spec, Hlen, of_nat_2048.
  apply SFdiv_shape. destruct frame as [|x rest]; [exact I|].
  inversion Hall; subst. now apply diff_power_loop_shape.
Qed.

Lemma fold_noisePower_shape (fs : list (list float)) (total : float) :
  Forall (fun frame => length frame = 2048%nat
                       /\ Forall (fun x => finite_or_zero (Prim2SF x)) frame) fs ->
  nonneg_shape (Prim2SF total) ->
  nonneg_shape
    (Prim2SF (fold_left
                (fun total frame => total + noisePower frame * 0x1.999999999999ap-4)
                fs total)).
Proof.
  revert total. induction fs as [|f fs IH]; intros total Hall Ht.
  - exact Ht.
  - inversion Hall as [|? ? [Hlen Hf] Hrest]; subst. cbn [fold_left].
    apply IH; [exact Hrest|]. apply add_shape; [exact Ht|].
    rewrite mul_spec.
    change (Prim2SF 0x1.999999999999ap-4)
      with (S754_finite false 7205759403792794 (-56)).
    apply SFmul_shape. now apply noisePower_shape.
Qed.

Lemma single_range_finite (x : float) :
  single_range x -> finite_or_zero (Prim2SF x).
Proof.
  intros H. apply (within_finite_or_zero 128). now apply single_range_within.
Qed.

(** So is the accumulated noise power. *)
Lemma totalNoisePower_shape (samples : list float) :
  Forall single_range samples ->
  nonneg_shape (Prim2SF (totalNoisePower samples)).
Proof.
  intros Hall. unfold totalNoisePower.
  apply fold_noisePower_shape; [|exact I].
  pose proof (frames_Forall single_range samples Hall) as H.
  eapply Forall_impl; [|exact H]. cbv beta. intros frame [Hlen Hf].
  split; [exact Hlen|]. eapply Forall_impl; [|exact Hf].
  intros x. apply single_range_finite.
Qed.

(** The quotient of a finite signal power by a noise power that is not
    zero is a number that is not negative. *)
Lemma ratio_shape (c E : Z) (signal noise : float) :
  at_most c E (Prim2SF signal) -> nonneg_shape (Prim2SF noise) ->
  (noise =? 0) = false ->
  nonneg_shape (Prim2SF (signal / noise)).
Proof.
  rewrite eqb_spec, div_spec. change (Prim2SF 0) with (S754_zero false).
  destruct (Prim2SF signal) as [sx|sx| |sx mx ex], (Prim2SF noise) as [sy|sy| |sy my ey];
    try (destruct sx); try (destruct sy); cbn [at_most nonneg_shape];
    intros Hs Hn Hz; try contradiction; try discriminate; try exact I.
  now apply SFdiv_shape.
Qed.

(** A number that is not negative is neither NaN nor below zero. *)
Lemma shape_not_nan (x : float) :
  nonneg_shape (Prim2SF x) -> is_nan x = false /\ (x <? 0) = false.
Proof.
  rewrite is_nan_spec, ltb_spec. change (Prim2SF 0) with (S754_zero false).
  destruct (Prim2SF x) as [[]|[]| |[] m e]; cbn [nonneg_shape]; intros H;
    try contradiction; split; reflexivity.
Qed.

(** For samples of the magnitude a 32-bit buffer holds, and a logarithm
    that is a number on every number that is not negative, the ratio is
    within its bounds. *)
Lemma calculateHNR_single_range (Math : MathObject) (samples : list float) :
  (forall y, is_nan y = false -> (y <? 0) = false ->
             is_nan (Math_log10 Math y) = false) ->
  Forall single_range samples -> (Z.of_nat (length samples) < 2 ^ 50)%Z ->
  (0 <=? calculateHNR Math samples) = true
  /\ (calculateHNR Math samples <=? 40) = true.
Proof.
  intros Hlog Hall Hlen. unfold calculateHNR.
  destruct (totalNoisePower samples =? 0) eqn:Hz; [now split|].
  apply clamp_0_40, ten_times_not_nan.
  pose proof (ratio_shape _ _ _ _ (totalSignalPower_at_most samples Hall Hlen)
                (totalNoisePower_shape samples Hall) Hz) as Hs.
  destruct (shape_not_nan _ Hs) as [Hn Hneg]. now apply Hlog.
Qed.

(** ** The logarithm of the test object *)

(** The conversion of a 63-bit integer is finite. *)
Lemma of_uint63_at_most (i : Uint63.int) : at_most 2 63 (Prim2SF (of_uint63 i)).
Proof.
  rewrite of_uint63_spec. change Uint63Axioms.to_Z with Uint63.to_Z.
  pose proof (Uint63.to_Z_bounded i) as [Hlo Hhi].
  change Uint63.wB with (2 ^ 63)%Z in Hhi.
  destruct (Uint63.to_Z i) as [|p|p]; [exact I | | lia].
  cbn [binary_normalize]. unfold binary_round.
  assert (Hf : (-1074 <= SpecFloat.fexp prec emax (Zpos (digits2_pos p) + 0))%Z).
  { unfold SpecFloat.fexp. change (SpecFloat.emin prec emax) with (-1074)%Z. lia. }
  pose proof (shl_align_units p 0 _ ltac:(lia) Hf) as Hal.
  destruct (shl_align p 0 _) as [mz ez]. cbn [fst snd] in Hal.
  destruct Hal as [Hez Hval].
  apply round_at_most with (lo := (-1074)%Z); try lia.
  replace (ez - -1074)%Z with (ez + 1074)%Z by lia.
  replace (63 - -1074)%Z with (63 + 1074)%Z by lia.
  change (0 + 1074)%Z with 1074%Z in Hval.
  assert (2 ^ (ez + 1074) <= 2 ^ 1074)%Z by (apply Z.pow_le_mono_r; lia).
  assert (H63 : (2 ^ (63 + 1074) = 2 ^ 63 * 2 ^ 1074)%Z)
    by (apply pow2_sum; lia).
  assert (0 < 2 ^ 1074)%Z by (apply pow2_pos; lia).
  assert (1 <= 2 ^ 63)%Z by lia.
  rewrite H63. nia.
Qed.

Lemma at_most_finite_or_zero (c E : Z) (x : spec_float) :
  at_most c E x -> finite_or_zero x.
Proof. destruct x as [[]|[]| |[] m e]; cbn; tauto. Qed.

Lemma of_Z_finite_or_zero (z : Z) : finite_or_zero (Prim2SF (of_Z z)).
Proof.
  unfold of_Z. destruct (z <? 0)%Z.
  - rewrite opp_spec.
    pose proof (at_most_finite_or_zero _ _ _
                  (of_uint63_at_most (Uint63.of_Z (- z)))) as H.
    now destruct (Prim2SF (of_uint63 _)).
  - exact (at_most_finite_or_zero _ _ _ (of_uint63_at_most (Uint63.of_Z z))).
Qed.

(** A finite number plus a number is a number. *)
Lemma add_not_nan (x y : float) :
  finite_or_zero (Prim2SF x) -> is_nan y = false -> is_nan (x + y) = false.
Proof.
  rewrite !is_nan_spec, add_spec.
  destruct (Prim2SF x) as [sx|sx| |sx mx ex], (Prim2SF y) as [sy|sy| |sy my ey];
    cbn [finite_or_zero]; intros Hx Hy; try contradiction; try discriminate;
    try (now destruct sx, sy).
  unfold SF64add, SFadd.
  pose proof (binary_normalize_not_nan
                (cond_Zopp sx (Zpos (fst (shl_align mx ex (Z.min ex ey))))
                 + cond_Zopp sy (Zpos (fst (shl_align my ey (Z.min ex ey)))))
                (Z.min ex ey)) as H.
  now destruct (binary_normalize _ _ _ _ _).
Qed.

Lemma sub_finite_not_nan (x y : float) (s : bool) (m : positive) (e : Z) :
  is_nan x = false -> Prim2SF y = S754_finite s m e -> is_nan (x - y) = false.
Proof.
  rewrite !is_nan_spec, sub_spec. intros Hx ->.
  destruct (Prim2SF x) as [sx|sx| |sx mx ex]; try discriminate;
    try reflexivity.
  unfold SF64sub, SFsub.
  pose proof (binary_normalize_not_nan
                (cond_Zopp sx (Zpos (fst (shl_align mx ex (Z.min ex e))))
                 - cond_Zopp s (Zpos (fst (shl_align m e (Z.min ex e)))))
                (Z.min ex e)) as H.
  now destruct (binary_normalize _ _ _ _ _).
Qed.

Lemma mul_finite_not_nan (x y : float) (s : bool) (m : positive) (e : Z) :
  is_nan x = false -> Prim2SF y = S754_finite s m e -> is_nan (x * y) = false.
Proof.
  rewrite !is_nan_spec, mul_spec. intros Hx ->.
  destruct (Prim2SF x) as [sx|sx| |sx mx ex]; try discriminate;
    try reflexivity.
  unfold SF64mul, SFmul.
  pose proof (binary_round_aux_not_nan (xorb sx s) (Zpos (mx * m)) (ex + e)
                loc_Exact ltac:(lia)) as H.
  now destruct (binary_round_aux _ _ _ _ _ _).
Qed.

Lemma finite_times_not_nan (x y : float) (s : bool) (m : positive) (e : Z) :
  Prim2SF x = S754_finite s m e -> is_nan y = false -> is_nan (x * y) = false.
Proof.
  rewrite !is_nan_spec, mul_spec. intros -> Hy.
  destruct (Prim2SF y) as [sy|sy| |sy my ey]; try discriminate;
    try reflexivity.
  unfold SF64mul, SFmul.
  pose proof (binary_round_aux_not_nan (xorb s sy) (Zpos (m * my)) (e + ey)
                loc_Exact ltac:(lia)) as H.
  now destruct (binary_round_aux _ _ _ _ _ _).
Qed.

(** The logarithm of [coarse_Math] is a number on every number that is
    not negative. *)
Lemma coarse_log10_number (y : float) :
  is_nan y = false -> (y <? 0) = false -> is_nan (coarse_log10 y) = false.
Proof.
  intros Hn Hneg. unfold coarse_log10. rewrite Hn, Hneg. cbn [orb].
  destruct (y =? 0) eqn:Hz; [reflexivity|].
  destruct (is_infinity y) eqn:Hi; [reflexivity|].
  pose proof (Z_frexp_spec y) as Hf. destruct (Z.frexp y) as [m e].
  assert (Hm : exists s mm, Prim2SF m = S754_finite s mm (-53)).
  { rewrite is_nan_spec in Hn. rewrite eqb_spec in Hz.
    unfold is_infinity in Hi. rewrite eqb_spec, abs_spec in Hi.
    change (Prim2SF 0) with (S754_zero false) in Hz.
    change (Prim2SF infinity) with (S754_infinity false) in Hi.
    destruct (Prim2SF y) as [sy|sy| |sy my ey];
      [destruct sy; discriminate | destruct sy; discriminate | discriminate |].
    cbn [SFfrexp] in Hf.
    destruct (prec <=? Zpos (digits2_pos my))%Z;
      injection Hf as Hm _; rewrite Hm; eauto. }
  destruct Hm as [s [mm Hm]].
  eapply mul_finite_not_nan;
    [|change (Prim2SF 0x1.34413509f79ffp-2)
        with (S754_finite false 5422874305198591 (-54)); reflexivity].
  apply add_not_nan; [apply of_Z_finite_or_zero|].
  eapply sub_finite_not_nan;
    [|change (Prim2SF 2) with (S754_finite false 4503599627370496 (-51));
      reflexivity].
  eapply finite_times_not_nan;
    [change (Prim2SF 2) with (S754_finite false 4503599627370496 (-51));
     reflexivity|].
  rewrite is_nan_spec, Hm. reflexivity.
Qed.

(** ** The harmonics-to-noise ratio, in full *)

(** The claim C4 fails on a buffer with a NaN sample: both powers are NaN,
    the noise power is not zero, and [Math.min] and [Math.max] pass the NaN
    on. *)
Lemma calculateHNR_counterexample :
  hnr (extractFeatures coarse_Math rate_44100 (recording (nan :: silence 2048) 0))
  = nan
  /\ (0 <=? hnr (extractFeatures coarse_Math rate_44100
                   (recording (nan :: silence 2048) 0))) = false
  /\ (hnr (extractFeatures coarse_Math rate_44100
             (recording (nan :: silence 2048) 0)) <=? 40) = false.
Proof.
  change (hnr (extractFeatures coarse_Math rate_44100
                 (recording (nan :: silence 2048) 0)))
    with (calculateHNR coarse_Math (nan :: silence 2048)).
  vm_compute. repeat split; reflexivity.
Qed.

(** C4 (amended).  With the signal power the sum over the 2048-sample
    frames of the mean squared sample, and the noise power the sum of the
    mean squared first difference scaled by 0.1: the ratio is 25 whenever
    the noise power is zero, which is the case when every frame is constant
    and for every buffer of at most 2048 samples; otherwise it is
    [10 * log10 (signal / noise)] clamped by [Math.max(0, Math.min(40, .))].
    It is NaN exactly when the noise power is not zero and that decibel
    value is NaN, which a NaN sample within the frames brings about, and it
    lies in [[0, 40]] whenever it is not NaN.  For a buffer of fewer than
    [2^50] samples that holds neither NaN nor infinities, each of magnitude
    at most [2^128] as in a 32-bit buffer, and a logarithm that is a number
    on every number that is not negative, it lies in [[0, 40]]. *)
Theorem calculateHNR_clamped (Math : MathObject) (this : DSPProcessor)
        (audioBuffer : AudioBuffer) :
  let samples := channelData audioBuffer in
  let signal := total_signal_power samples in
  let noise := total_noise_power samples in
  let ratio := 10 * Math_log10 Math (signal / noise) in
  let result := hnr (extractFeatures Math this audioBuffer) in
  ((noise =? 0) = true -> result = 25)
  /\ ((noise =? 0) = false -> result = Math_max 0 (Math_min 40 ratio))
  /\ is_nan result = negb (noise =? 0) && is_nan ratio
  /\ (is_nan result = false -> (0 <=? result) = true /\ (result <=? 40) = true)
  /\ (Forall constant_frame (hnr_frames samples) -> noise = 0 /\ result = 25)
  /\ ((length samples <= 2048)%nat -> noise = 0 /\ result = 25)
  /\ (is_nan (Math_log10 Math nan) = true ->
      Exists (Exists (fun x => is_nan x = true)) (hnr_frames samples) ->
      is_nan result = true)
  /\ ((forall y, is_nan y = false -> (y <? 0) = false ->
                 is_nan (Math_log10 Math y) = false) ->
      Forall single_range samples ->
      (Z.of_nat (length samples) < 2 ^ 50)%Z ->
      (0 <=? result) = true /\ (result <=? 40) = true).
Proof.
  cbv zeta. change (hnr (extractFeatures Math this audioBuffer))
    with (calculateHNR Math (channelData audioBuffer)).
  set (samples := channelData audioBuffer).
  rewrite <- totalSignalPower_sum, <- totalNoisePower_sum, <- frames_hnr.
  split; [unfold calculateHNR; now intros ->|].
  split; [unfold calculateHNR; now intros ->|].
  split; [apply calculateHNR_nan|].
  split.
  { intros Hn. destruct (calculateHNR_range Math samples) as [H|H];
      [congruence | exact H]. }
  split.
  { intros Hconst. unfold calculateHNR.
    rewrite totalNoisePower_constant_frames by exact Hconst.
    split; reflexivity. }
  split.
  { intros Hlen. unfold calculateHNR, totalNoisePower.
    rewrite frames_short by exact Hlen. split; reflexivity. }
  split.
  { intros Hlog H. now rewrite calculateHNR_nan_sample. }
  apply calculateHNR_single_range.
Qed.

Lemma calculateHNR_clamped_witness :
  total_signal_power loud_then_louder = 0.3125
  /\ total_noise_power loud_then_louder = 0x1.999999999999ap-15
  /\ hnr (extractFeatures coarse_Math rate_44100 (recording loud_then_louder 0))
     = 0x1.2e88ff4e0847bp+5
  /\ (0 <=? hnr (extractFeatures coarse_Math rate_44100
                   (recording loud_then_louder 0))) = true
  /\ (hnr (extractFeatures coarse_Math rate_44100
             (recording loud_then_louder 0)) <=? 40) = true.
Proof.
  pose proof (calculateHNR_clamped coarse_Math rate_44100
                (recording loud_then_louder 0))
    as [_ [Hdb [_ [_ [_ [_ [_ Hrange]]]]]]].
  cbv zeta in Hdb, Hrange. cbn [channelData recording] in Hdb, Hrange.
  assert (Hsignal : total_signal_power loud_then_louder = 0.3125)
    by (vm_compute; reflexivity).
  assert (Hnoise : total_noise_power loud_then_louder = 0x1.999999999999ap-15)
    by (vm_compute; reflexivity).
  split; [exact Hsignal|]. split; [exact Hnoise|]. split.
  - rewrite Hdb by (rewrite Hnoise; reflexivity).
    rewrite Hsignal, Hnoise. vm_compute. reflexivity.
  - apply Hrange.
    + exact coarse_log10_number.
    + unfold loud_then_louder. apply Forall_app. split;
        apply Forall_forall; intros x Hx; apply repeat_spec in Hx; subst x;
        reflexivity.
    + apply Z.ltb_lt. vm_compute. reflexivity.
Defined.
